(** * ExitOutPage: the exit-stack administration page

    A shallow embedding of [apps/frontend/src/pages/exit/ExitOutPage.jsx]
    and the properties of its handlers, its polling effect and its
    rendering guards.

    Modelling choices.
    - What the backend sends is untyped at run time, so a response is a
      value of [JsVal] (what JSON can carry, and [undefined]) and the
      code reads it with JavaScript's own property access ([get_prop],
      which throws on [undefined] and [null]), truthiness ([truthy]),
      string conversion ([to_str], which throws on an object with an own
      [toString]) and number conversion ([to_number]).
    - A number of a response is an integer, [JNum z], standing for the
      double nearest to [z]; [num_to_str] prints it as JavaScript does
      (the exponent form from 1e21 on).  Fractions, NaN and the
      infinities arise only from converting strings ([Number]).  Strings
      are UTF-8 text.
    - An [async] function is a term of [Async]: a tree of state effects
      with an [Await] node for each [await api(...)] and a [Throw] leaf
      for an exception, combined with [try_catch] and [finally] as the
      source combines them.
    - The page is an event system ([step]) over a [World]: the React
      state, the clock, the pending timeouts, the polling interval and
      the requests in flight.  State setters take effect in program
      order, which is what React does with the updater functions and the
      response-derived values used here (no handler reads state).
    - The [api] helper lives outside this file; how each of its calls
      settles ([ApiResult]) is an input of the model, as is the answer
      of [window.confirm].
    - A timer runs when it falls due: the clock cannot pass a due time
      ([Tick]), and a timer cannot run before it ([FireTimeout],
      [FireInterval]).
    - [page] evaluates the expression the component returns, in source
      order, to the values it puts on the page or to the exception it
      throws.  What React does with the elements (their [key]s
      included), or after the evaluation has thrown, is not modelled.
    - A control can be clicked when the loader is not shown and the
      control is enabled.  [step] does not ask that the rest of the page
      evaluates, so on data that cannot be rendered it allows clicks the
      page no longer offers: the reachable states of the model include
      those of the page.
    - After [Unmount] no control exists any more; requests and timeouts
      that are still pending run their callbacks on the state nobody
      displays. *)

From Stdlib Require Import ZArith NArith Ascii String List Decimal DecimalString.
From stdpp Require Import base gmap sets list strings option.

Set Warnings "-register-all".

Local Open Scope string_scope.
Local Open Scope Z_scope.
Local Open Scope list_scope.

(** ** JavaScript values *)

Inductive JsVal : Type :=
| JUndefined
| JNull
| JBool (b : bool)
| JNum (z : Z)
| JStr (s : string)
| JArr (items : list JsVal)
| JObj (fields : list (string * JsVal)).

(** What a [throw] carries: the [TypeError] of a property read on
    [undefined] or [null], or the reason of a rejected promise. *)
Inductive Thrown : Type :=
| TypeError
| Reason (v : JsVal).

(** Result of evaluating an expression. *)
Inductive Completion (A : Type) : Type :=
| Value (a : A)
| Raise (e : Thrown).
Arguments Value {A} a.
Arguments Raise {A} e.

Fixpoint lookup_field (name : string) (fields : list (string * JsVal)) : JsVal :=
  match fields with
  | [] => JUndefined
  | (k, v) :: rest => if String.eqb k name then v else lookup_field name rest
  end.

(** [v.name].  Own properties only, plus [length] of arrays and strings:
    none of the names the page reads is inherited from a prototype. *)
Definition get_prop (v : JsVal) (name : string) : Completion JsVal :=
  match v with
  | JUndefined | JNull => Raise TypeError
  | JBool _ | JNum _ => Value JUndefined
  | JStr s => if String.eqb name "length"
              then Value (JNum (Z.of_nat (String.length s))) else Value JUndefined
  | JArr items => if String.eqb name "length"
                  then Value (JNum (Z.of_nat (length items))) else Value JUndefined
  | JObj fields => Value (lookup_field name fields)
  end.

(** ToBoolean. *)
Definition truthy (v : JsVal) : bool :=
  match v with
  | JUndefined | JNull => false
  | JBool b => b
  | JNum z => negb (z =? 0)
  | JStr s => negb (String.eqb s "")
  | JArr _ | JObj _ => true
  end.

(** [a || b]. *)
Definition js_or (a b : JsVal) : JsVal := if truthy a then a else b.

(** [v === 0]. *)
Definition strict_eq_zero (v : JsVal) : bool :=
  match v with
  | JNum z => z =? 0
  | _ => false
  end.

(** ** Numbers and strings *)

(** [JNum z] is the number an integer literal [z] denotes: the double
    nearest to [z].  The decimal digits of a natural number: *)
Definition digits_of (z : Z) : string := NilZero.string_of_int (Z.to_int z).

(** The double nearest to the natural number [z], ties to the even
    mantissa; [None] when it is too large for a finite double. *)
Definition nearest_double (z : Z) : option Z :=
  if 2 ^ 53 <=? z then
    let sh := Z.log2 z - 52 in
    let q := Z.shiftr z sh in
    let rest := z - Z.shiftl q sh in
    let half := Z.shiftl 1 (sh - 1) in
    let q' := if (half <? rest) || ((rest =? half) && Z.odd q) then q + 1 else q in
    let v := Z.shiftl q' sh in
    if 2 ^ 1024 <=? v then None else Some v
  else Some z.

Definition rounds_to (v y : Z) : bool :=
  match nearest_double y with
  | Some v' => v' =? v
  | None => false
  end.

(** The number with the fewest significant digits that still denotes
    the double [v], and its count of trailing zeros: the multiples of
    [10 ^ j] next to [v] are tried from the largest [j] down, and of two
    that qualify the closer one is taken (the even one on a tie). *)
Fixpoint shortest (fuel : nat) (v j : Z) : Z * Z :=
  match fuel with
  | O => (v, 0)
  | S fuel' =>
      let p := 10 ^ j in
      let below := (v / p) * p in
      let above := below + p in
      match rounds_to v below, rounds_to v above with
      | true, true =>
          if v - below <? above - v then (below, j)
          else if above - v <? v - below then (above, j)
          else if Z.even (below / p) then (below, j) else (above, j)
      | true, false => (below, j)
      | false, true => (above, j)
      | false, false => shortest fuel' v (j - 1)
      end
  end.

(** Number::toString of [JNum z]: all digits up to 21 of them, the
    exponent form [d.ddde+n] beyond, [Infinity] past the largest
    double. *)
Definition num_to_str (z : Z) : string :=
  let sign := if z <? 0 then "-" else "" in
  match nearest_double (Z.abs z) with
  | None => sign +:+ "Infinity"
  | Some v =>
      if 2 ^ 53 <=? v then
        let width := String.length (digits_of v) in
        let '(y, j) := shortest width v (Z.of_nat width) in
        let n := Z.of_nat (String.length (digits_of y)) in
        if 22 <=? n then
          match digits_of (y / 10 ^ j) with
          | String d more =>
              sign +:+ String d (match more with
                                 | EmptyString => ""
                                 | _ => "." +:+ more
                                 end) +:+ "e+" +:+ digits_of (n - 1)
          | EmptyString => sign
          end
        else sign +:+ digits_of y
      else sign +:+ digits_of v
  end.

(** The object has an own property [name], whatever its value. *)
Definition has_own (name : string) (fields : list (string * JsVal)) : bool :=
  existsb (fun kv => String.eqb (fst kv) name) fields.

(** ToString, as a template literal applies it.  An array joins its
    items with commas, printing [null] and [undefined] items as empty.
    An object prints as [[object Object]] through the [toString] it
    inherits; an own [toString] property shadows that one, and since no
    value of a response is a function the conversion then throws a
    TypeError. *)
Fixpoint to_str (v : JsVal) : Completion string :=
  match v with
  | JUndefined => Value "undefined"
  | JNull => Value "null"
  | JBool true => Value "true"
  | JBool false => Value "false"
  | JNum z => Value (num_to_str z)
  | JStr s => Value s
  | JArr items =>
      (fix join (l : list JsVal) : Completion string :=
         match l with
         | [] => Value ""
         | x :: rest =>
             match match x with
                   | JUndefined | JNull => Value ""
                   | _ => to_str x
                   end with
             | Raise e => Raise e
             | Value sx =>
                 match rest with
                 | [] => Value sx
                 | _ :: _ =>
                     match join rest with
                     | Raise e => Raise e
                     | Value sr => Value (sx +:+ "," +:+ sr)
                     end
                 end
             end
         end) items
  | JObj fields =>
      if has_own "toString" fields then Raise TypeError else Value "[object Object]"
  end.

(** ** ToNumber *)

(** A number as ToNumber yields it: not a number, an infinity, or the
    double nearest to [± digits × 10 ^ exponent] (zero, or an infinity,
    when that is out of the doubles' range).  The sign is kept apart, so
    that [-0] is told from [0]. *)
Inductive Number : Type :=
| NaN
| Infinity (negative : bool)
| Dec (negative : bool) (digits exponent : Z).

(** [n > 0].  A positive decimal rounds to zero when it is at most
    [2 ^ -1075], half the least positive double. *)
Definition is_positive (n : Number) : bool :=
  match n with
  | NaN => false
  | Infinity negative => negb negative
  | Dec negative digits exponent =>
      negb negative &&
      (if 0 <=? exponent then 0 <? digits
       else 10 ^ (- exponent) <? digits * 2 ^ 1075)
  end.

Definition of_codes (l : list N) : string := string_of_list_ascii (map ascii_of_N l).

(** WhiteSpace and LineTerminator, in UTF-8: TAB, LF, VT, FF, CR, SP,
    U+00A0, U+1680, U+2000 to U+200A, U+2028, U+2029, U+202F, U+205F,
    U+3000 and U+FEFF. *)
Definition white_space : list string :=
  map of_codes
    [[9]; [10]; [11]; [12]; [13]; [32]; [194; 160]; [225; 154; 128];
     [226; 128; 128]; [226; 128; 129]; [226; 128; 130]; [226; 128; 131];
     [226; 128; 132]; [226; 128; 133]; [226; 128; 134]; [226; 128; 135];
     [226; 128; 136]; [226; 128; 137]; [226; 128; 138];
     [226; 128; 168]; [226; 128; 169]; [226; 128; 175]; [226; 129; 159];
     [227; 128; 128]; [239; 187; 191]]%N.

Fixpoint drop_prefix (p s : string) : option string :=
  match p, s with
  | EmptyString, _ => Some s
  | String a p', String b s' => if Ascii.eqb a b then drop_prefix p' s' else None
  | String _ _, EmptyString => None
  end.

Fixpoint drop_any (ps : list string) (s : string) : option string :=
  match ps with
  | [] => None
  | p :: ps' =>
      match drop_prefix p s with
      | Some s' => Some s'
      | None => drop_any ps' s
      end
  end.

Fixpoint strip (fuel : nat) (ps : list string) (s : string) : string :=
  match fuel with
  | O => s
  | S fuel' =>
      match drop_any ps s with
      | Some s' => strip fuel' ps s'
      | None => s
      end
  end.

Definition reverse_string (s : string) : string :=
  string_of_list_ascii (rev (list_ascii_of_string s)).

(** The string without its leading and trailing white space. *)
Definition trim (s : string) : string :=
  let s1 := strip (String.length s) white_space s in
  reverse_string (strip (String.length s1) (map reverse_string white_space)
                        (reverse_string s1)).

Definition digit_value (base : Z) (c : ascii) : option Z :=
  let n := Z.of_N (N_of_ascii c) in
  let d := if (48 <=? n) && (n <=? 57) then n - 48
           else if (97 <=? n) && (n <=? 122) then n - 87
           else if (65 <=? n) && (n <=? 90) then n - 55
           else base in
  if d <? base then Some d else None.

(** Reads the digits [s] starts with on top of [acc]: their value, how
    many they are, and the rest of [s]. *)
Fixpoint read_digits (base acc count : Z) (s : string) : Z * Z * string :=
  match s with
  | EmptyString => (acc, count, s)
  | String c rest =>
      match digit_value base c with
      | Some d => read_digits base (acc * base + d) (count + 1) rest
      | None => (acc, count, s)
      end
  end.

(** [0x], [0o] and [0b] literals: digits only, no sign. *)
Definition prefixed_literal (base : Z) (s : string) : Number :=
  let '(value, count, rest) := read_digits base 0 0 s in
  if (0 <? count) && String.eqb rest "" then Dec false value 0 else NaN.

(** [Infinity], or digits with an optional fraction and exponent:
    [12], [12.], [12.5], [.5], [1e3], [1.5E-3]. *)
Definition decimal_literal (negative : bool) (s : string) : Number :=
  if String.eqb s "Infinity" then Infinity negative
  else
    let '(whole, n_whole, s1) := read_digits 10 0 0 s in
    let '(digits, n_fraction, s2) :=
      match s1 with
      | String c r => if Ascii.eqb c "." then read_digits 10 whole 0 r
                      else (whole, 0, s1)
      | EmptyString => (whole, 0, s1)
      end in
    if n_whole + n_fraction =? 0 then NaN
    else
      match s2 with
      | EmptyString => Dec negative digits (- n_fraction)
      | String c r =>
          if Ascii.eqb c "e" || Ascii.eqb c "E" then
            let '(minus, r') :=
              match r with
              | String c' r'' => if Ascii.eqb c' "+" then (false, r'')
                                 else if Ascii.eqb c' "-" then (true, r'')
                                 else (false, r)
              | EmptyString => (false, r)
              end in
            let '(power, n_power, s3) := read_digits 10 0 0 r' in
            if (0 <? n_power) && String.eqb s3 ""
            then Dec negative digits ((if minus then - power else power) - n_fraction)
            else NaN
          else NaN
      end.

(** StringToNumber: the empty string (after trimming) is 0 and
    everything that is not a numeric literal is NaN. *)
Definition string_to_number (s : string) : Number :=
  match trim s with
  | EmptyString => Dec false 0 0
  | String c rest as t =>
      if Ascii.eqb c "+" then decimal_literal false rest
      else if Ascii.eqb c "-" then decimal_literal true rest
      else
        match rest with
        | String c' digits =>
            if Ascii.eqb c "0" && (Ascii.eqb c' "x" || Ascii.eqb c' "X")
            then prefixed_literal 16 digits
            else if Ascii.eqb c "0" && (Ascii.eqb c' "o" || Ascii.eqb c' "O")
            then prefixed_literal 8 digits
            else if Ascii.eqb c "0" && (Ascii.eqb c' "b" || Ascii.eqb c' "B")
            then prefixed_literal 2 digits
            else decimal_literal false t
        | EmptyString => decimal_literal false t
        end
  end.

(** ToNumber, as [>] and [/] apply it.  Arrays and objects are first
    converted to a string, which can throw as in [to_str]. *)
Definition to_number (v : JsVal) : Completion Number :=
  match v with
  | JUndefined => Value NaN
  | JNull => Value (Dec false 0 0)
  | JBool b => Value (Dec false (if b then 1 else 0) 0)
  | JNum z => Value (Dec (z <? 0) (Z.abs z) 0)
  | JStr s => Value (string_to_number s)
  | JArr _ | JObj _ =>
      match to_str v with
      | Value s => Value (string_to_number s)
      | Raise e => Raise e
      end
  end.

(** ** The component's state *)

Inductive ToastType : Type := Info | Success | Error.

Record Toast : Type := mkToast { message : string; type : ToastType }.

Record State : Type := mkState {
  stack : JsVal;
  stats : JsVal;
  loading : bool;
  releasing : gset string;
  toast : option Toast;
  autoRefresh : bool;
  confirmingId : option string
}.

Definition default_stats : JsVal :=
  JObj [("totalTeams", JNum 0); ("totalCards", JNum 0)].

(** The [useState] initial values. *)
Definition initial_state : State :=
  {| stack := JArr []; stats := default_stats; loading := true;
     releasing := ∅; toast := None; autoRefresh := true;
     confirmingId := None |}.

(** ** Effects of a handler *)

Inductive Method : Type := GET | POST.

Record Request : Type := mkRequest { method : Method; url : string }.

Inductive ApiResult : Type :=
| Fulfilled (response : JsVal)
| Rejected (reason : JsVal).

Inductive TimerCallback : Type := ClearToast.

Inductive LogArg : Type :=
| LStr (s : string)
| LVal (v : JsVal)
| LThrown (e : Thrown).

Inductive Effect : Type :=
| SetStack (v : JsVal)
| SetStats (v : JsVal)
| SetLoading (b : bool)
| AddReleasing (id : string)
| DeleteReleasing (id : string)
| SetToast (t : option Toast)
| SetTimeout (cb : TimerCallback) (delay : N)
| ConsoleError (args : list LogArg).

Inductive Async (A : Type) : Type :=
| Ret (a : A)
| Throw (e : Thrown)
| Do (e : Effect) (k : Async A)
| Await (req : Request) (k : ApiResult → Async A).
Arguments Ret {A} a.
Arguments Throw {A} e.
Arguments Do {A} e k.
Arguments Await {A} req k.

Fixpoint bind {A B : Type} (m : Async A) (f : A → Async B) : Async B :=
  match m with
  | Ret a => f a
  | Throw e => Throw e
  | Do e k => Do e (bind k f)
  | Await req k => Await req (fun r => bind (k r) f)
  end.

(** [try { m } catch (e) { h e }]. *)
Fixpoint try_catch {A : Type} (m : Async A) (h : Thrown → Async A) : Async A :=
  match m with
  | Ret a => Ret a
  | Throw e => h e
  | Do e k => Do e (try_catch k h)
  | Await req k => Await req (fun r => try_catch (k r) h)
  end.

(** [try { m } finally { f }]: [f] runs on both exits, and the exit of
    [m] is kept unless [f] itself throws. *)
Fixpoint finally {A : Type} (m : Async A) (f : Async unit) : Async A :=
  match m with
  | Ret a => bind f (fun _ => Ret a)
  | Throw e => bind f (fun _ => Throw e)
  | Do e k => Do e (finally k f)
  | Await req k => Await req (fun r => finally (k r) f)
  end.

(** The monad notations [x ← m; k] and [m;; k] are stdpp's. *)
#[global] Instance Async_ret : MRet Async := @Ret.
#[global] Instance Async_bind : MBind Async := fun A B f m => bind m f.

Definition effect (e : Effect) : Async unit := Do e (Ret tt).

Definition lift {A : Type} (c : Completion A) : Async A :=
  match c with
  | Value a => Ret a
  | Raise e => Throw e
  end.

(** [v.name] inside a handler. *)
Definition get (v : JsVal) (name : string) : Async JsVal := lift (get_prop v name).

(** [await api(url, { method })]: a rejection is thrown at the [await]. *)
Definition await_api (m : Method) (u : string) : Async JsVal :=
  Await (mkRequest m u)
        (fun r => match r with
                  | Fulfilled v => Ret v
                  | Rejected reason => Throw (Reason reason)
                  end).

Definition setStack (v : JsVal) : Async unit := effect (SetStack v).
Definition setStats (v : JsVal) : Async unit := effect (SetStats v).
Definition setLoading (b : bool) : Async unit := effect (SetLoading b).
Definition console_error (args : list LogArg) : Async unit := effect (ConsoleError args).

(** ** The handlers *)

(** [showToast(message, type = 'info')]. *)
Definition showToast (message : string) (type : option ToastType) : Async unit :=
  effect (SetToast (Some (mkToast message (default Info type))));;
  effect (SetTimeout ClearToast 5000).

Definition fetchStack : Async unit :=
  finally
    (try_catch
       (response ← await_api GET "/api/exitout/stack";
        success ← get response "success";
        if truthy success then
          stack_field ← get response "stack";
          setStack (js_or stack_field (JArr []));;
          stats_field ← get response "stats";
          setStats (js_or stats_field default_stats)
        else
          err ← get response "error";
          console_error [LStr "Failed to fetch stack:"; LVal err];;
          showToast "Failed to fetch stack data" (Some Error))
       (fun error =>
          console_error [LStr "Error fetching stack:"; LThrown error];;
          showToast "Error connecting to server" (Some Error)))
    (setLoading false).

Definition releaseTeam (registrationId : string) : Async unit :=
  effect (AddReleasing registrationId);;
  finally
    (try_catch
       (response ← await_api POST ("/api/exitout/release/" +:+ registrationId);
        success ← get response "success";
        if truthy success then
          result ← get response "result";
          released ← get result "released";
          count ← lift (to_str released);
          showToast ("Successfully released " +:+ count +:+
                     " cards for team " +:+ registrationId) (Some Success);;
          fetchStack
        else
          err ← get response "error";
          console_error [LStr "Failed to release team:"; LVal err];;
          err' ← get response "error";
          text ← lift (to_str err');
          showToast ("Failed to release team " +:+ registrationId +:+ ": " +:+
                     text) (Some Error))
       (fun error =>
          console_error [LStr "Error releasing team:"; LThrown error];;
          showToast ("Error releasing team " +:+ registrationId) (Some Error)))
    (effect (DeleteReleasing registrationId)).

(** [confirmed] is what [window.confirm] returned. *)
Definition clearStack (confirmed : bool) : Async unit :=
  if negb confirmed then Ret tt
  else
    setLoading true;;
    finally
      (try_catch
         (response ← await_api POST "/api/exitout/clear";
          success ← get response "success";
          if truthy success then
            showToast "Stack cleared successfully" (Some Success);;
            fetchStack
          else
            err ← get response "error";
            text ← lift (to_str err);
            showToast ("Failed to clear stack: " +:+ text) (Some Error))
         (fun error =>
            console_error [LStr "Error clearing stack:"; LThrown error];;
            showToast "Error clearing stack" (Some Error)))
      (setLoading false).

(** ** The world around the component *)

(** Which top-level call a pending request belongs to. *)
Inductive Origin : Type :=
| OFetch
| ORelease (registrationId : string)
| OClear.

Record Task : Type := mkTask {
  origin : Origin;
  request : Request;
  resume : ApiResult → Async unit
}.

Inductive Life : Type := Fresh | Live | Gone.

Record World : Type := mkWorld {
  ui : State;
  now : N;                                (* clock, in ms *)
  timeouts : list (N * TimerCallback);    (* due time and callback of each setTimeout *)
  interval : option N;                    (* next due time of the setInterval, if armed *)
  pending : list Task;                    (* requests in flight *)
  console : list (list LogArg);
  unhandled : list Thrown;                (* rejections no handler caught *)
  life : Life
}.

Definition with_ui (f : State → State) (w : World) : World :=
  {| ui := f (ui w); now := now w; timeouts := timeouts w; interval := interval w;
     pending := pending w; console := console w; unhandled := unhandled w;
     life := life w |}.

Definition with_timeouts (f : list (N * TimerCallback) → list (N * TimerCallback))
    (w : World) : World :=
  {| ui := ui w; now := now w; timeouts := f (timeouts w); interval := interval w;
     pending := pending w; console := console w; unhandled := unhandled w;
     life := life w |}.

Definition with_interval (i : option N) (w : World) : World :=
  {| ui := ui w; now := now w; timeouts := timeouts w; interval := i;
     pending := pending w; console := console w; unhandled := unhandled w;
     life := life w |}.

Definition with_pending (f : list Task → list Task) (w : World) : World :=
  {| ui := ui w; now := now w; timeouts := timeouts w; interval := interval w;
     pending := f (pending w); console := console w; unhandled := unhandled w;
     life := life w |}.

Definition with_console (f : list (list LogArg) → list (list LogArg)) (w : World) : World :=
  {| ui := ui w; now := now w; timeouts := timeouts w; interval := interval w;
     pending := pending w; console := f (console w); unhandled := unhandled w;
     life := life w |}.

Definition with_unhandled (f : list Thrown → list Thrown) (w : World) : World :=
  {| ui := ui w; now := now w; timeouts := timeouts w; interval := interval w;
     pending := pending w; console := console w; unhandled := f (unhandled w);
     life := life w |}.

Definition with_now (t : N) (w : World) : World :=
  {| ui := ui w; now := t; timeouts := timeouts w; interval := interval w;
     pending := pending w; console := console w; unhandled := unhandled w;
     life := life w |}.

Definition with_life (l : Life) (w : World) : World :=
  {| ui := ui w; now := now w; timeouts := timeouts w; interval := interval w;
     pending := pending w; console := console w; unhandled := unhandled w;
     life := l |}.

Definition set_stack (v : JsVal) (s : State) : State :=
  {| stack := v; stats := stats s; loading := loading s; releasing := releasing s;
     toast := toast s; autoRefresh := autoRefresh s; confirmingId := confirmingId s |}.

Definition set_stats (v : JsVal) (s : State) : State :=
  {| stack := stack s; stats := v; loading := loading s; releasing := releasing s;
     toast := toast s; autoRefresh := autoRefresh s; confirmingId := confirmingId s |}.

Definition set_loading (b : bool) (s : State) : State :=
  {| stack := stack s; stats := stats s; loading := b; releasing := releasing s;
     toast := toast s; autoRefresh := autoRefresh s; confirmingId := confirmingId s |}.

Definition set_releasing (f : gset string → gset string) (s : State) : State :=
  {| stack := stack s; stats := stats s; loading := loading s;
     releasing := f (releasing s);
     toast := toast s; autoRefresh := autoRefresh s; confirmingId := confirmingId s |}.

Definition set_toast (t : option Toast) (s : State) : State :=
  {| stack := stack s; stats := stats s; loading := loading s; releasing := releasing s;
     toast := t; autoRefresh := autoRefresh s; confirmingId := confirmingId s |}.

Definition set_autoRefresh (b : bool) (s : State) : State :=
  {| stack := stack s; stats := stats s; loading := loading s; releasing := releasing s;
     toast := toast s; autoRefresh := b; confirmingId := confirmingId s |}.

Definition apply_effect (e : Effect) (w : World) : World :=
  match e with
  | SetStack v => with_ui (set_stack v) w
  | SetStats v => with_ui (set_stats v) w
  | SetLoading b => with_ui (set_loading b) w
  | AddReleasing id => with_ui (set_releasing (fun prev => prev ∪ {[id]})) w
  | DeleteReleasing id => with_ui (set_releasing (fun prev => prev ∖ {[id]})) w
  | SetToast t => with_ui (set_toast t) w
  | SetTimeout cb delay => with_timeouts (fun ts => ts ++ [((now w + delay)%N, cb)]) w
  | ConsoleError args => with_console (fun c => c ++ [args]) w
  end.

(** ** Running a handler *)

Inductive Outcome (A : Type) : Type :=
| Done (a : A) (w : World)
| Failed (e : Thrown) (w : World)
| Blocked (req : Request) (k : ApiResult → Async A) (w : World).
Arguments Done {A} a w.
Arguments Failed {A} e w.
Arguments Blocked {A} req k w.

(** Runs [p] from [w].  Each [await] takes the next entry of [inputs]:
    how the request settles, and what the rest of the page did to the
    world while it was in flight.  With no entry left the handler stays
    blocked on its request. *)
Fixpoint drive {A : Type} (p : Async A) (inputs : list (ApiResult * (World → World)))
    (w : World) : Outcome A :=
  match p with
  | Ret a => Done a w
  | Throw e => Failed e w
  | Do e k => drive k inputs (apply_effect e w)
  | Await req k =>
      match inputs with
      | [] => Blocked req k w
      | (r, env) :: rest => drive (k r) rest (env w)
      end
  end.

(** Runs [p] inside the event loop until it returns, throws or awaits;
    an awaited request joins [pending] under the call's origin. *)
Definition exec (o : Origin) (p : Async unit) (w : World) : World :=
  match drive p [] w with
  | Done _ w' => w'
  | Failed e w' => with_unhandled (fun u => u ++ [e]) w'
  | Blocked req k w' => with_pending (fun ts => ts ++ [mkTask o req k]) w'
  end.

(** ** What the page renders *)

(** [loading && stack.length === 0]: the page shows the loader instead
    of the statistics, the controls and the rows. *)
Definition shows_loader (s : State) : Completion bool :=
  if loading s then
    match get_prop (stack s) "length" with
    | Value len => Value (strict_eq_zero len)
    | Raise e => Raise e
    end
  else Value false.

Definition main_view_shown (s : State) : bool :=
  match shows_loader s with
  | Value false => true
  | _ => false
  end.

(** [{stats.totalTeams}] and [{stats.totalCards}]. *)
Definition displayed_totalTeams (s : State) : Completion JsVal :=
  get_prop (stats s) "totalTeams".

Definition displayed_totalCards (s : State) : Completion JsVal :=
  get_prop (stats s) "totalCards".

Inductive AvgDisplay : Type :=
| AvgLiteral (text : string)
| AvgQuotient (totalCards totalTeams : Z).  (* (totalCards / totalTeams).toFixed(1) *)

(** [stats.totalCards > 0 ? (stats.totalCards / stats.totalTeams).toFixed(1) : '0']
    at numbers, which is what [Stats] holds. *)
Definition average_cards (totalCards totalTeams : Z) : AvgDisplay :=
  if 0 <? totalCards then AvgQuotient totalCards totalTeams else AvgLiteral "0".

Definition divides_by_zero (d : AvgDisplay) : bool :=
  match d with
  | AvgQuotient _ totalTeams => totalTeams =? 0
  | AvgLiteral _ => false
  end.

(** The average card at statistics that are numbers; [None] where a
    field is not a number and JavaScript converts it first, for which
    see [average_card]. *)
Definition displayed_average (s : State) : option AvgDisplay :=
  match get_prop (stats s) "totalCards", get_prop (stats s) "totalTeams" with
  | Value (JNum totalCards), Value (JNum totalTeams) =>
      Some (average_cards totalCards totalTeams)
  | _, _ => None
  end.

Record Button : Type := mkButton { disabled : bool; label : string }.

(** The Refresh button. *)
Definition refresh_button (s : State) : Button :=
  {| disabled := loading s;
     label := if loading s then "Refreshing..." else "Refresh" |}.

(** [disabled={loading || stats.totalCards === 0}] of "Clear All Stack". *)
Definition clear_disabled (s : State) : Completion bool :=
  if loading s then Value true
  else match get_prop (stats s) "totalCards" with
       | Value totalCards => Value (strict_eq_zero totalCards)
       | Raise e => Raise e
       end.

(** The "Release All" button of the row of [registrationId]. *)
Definition release_button (s : State) (registrationId : string) : Button :=
  {| disabled := bool_decide (registrationId ∈ releasing s);
     label := if bool_decide (registrationId ∈ releasing s)
              then "Releasing..." else "Release All" |}.

(** The team identifiers of the rows [stack.map] renders (identifiers
    are strings in the data model). *)
Definition row_ids (v : JsVal) : list string :=
  match v with
  | JArr items =>
      omap (fun item => match get_prop item "registrationId" with
                        | Value (JStr id) => Some id
                        | _ => None
                        end) items
  | _ => []
  end.

(** ** The event system *)

Inductive Event : Type :=
| Mount
| Unmount
| ClickRefresh
| ClickClear (confirmed : bool)
| ClickRelease (registrationId : string)
| ToggleAutoRefresh (checked : bool)
| CloseToast
| Settle (i : nat) (r : ApiResult)   (* the i-th request in flight settles *)
| Tick (dt : N)                      (* dt ms pass *)
| FireTimeout (i : nat)              (* the i-th timeout is due and runs *)
| FireInterval.                      (* the polling interval is due and runs *)

(** The body of the [useEffect]: one fetch, and the interval when
    auto-refresh is on. *)
Definition effect_run (w : World) : World :=
  let w1 := exec OFetch fetchStack w in
  if autoRefresh (ui w1) then with_interval (Some (now w1 + 3000)%N) w1 else w1.

(** The cleanup the effect returned: [clearInterval(interval)]. *)
Definition effect_cleanup (w : World) : World := with_interval None w.

Definition run_callback (cb : TimerCallback) (w : World) : World :=
  match cb with
  | ClearToast => apply_effect (SetToast None) w
  end.

Definition is_live (w : World) : bool :=
  match life w with
  | Live => true
  | _ => false
  end.

(** No timer is due before [t]. *)
Definition no_timer_before (t : N) (w : World) : bool :=
  forallb (fun tc => (t <=? fst tc)%N) (timeouts w)
  && match interval w with
     | Some due => (t <=? due)%N
     | None => true
     end.

(** One event; [None] when the event cannot happen in [w]. *)
Definition step (w : World) (e : Event) : option World :=
  match e with
  | Mount =>
      match life w with
      | Fresh => Some (effect_run (with_life Live w))
      | _ => None
      end
  | Unmount =>
      if is_live w then Some (with_life Gone (effect_cleanup w)) else None
  | ClickRefresh =>
      if is_live w && main_view_shown (ui w) && negb (disabled (refresh_button (ui w)))
      then Some (exec OFetch fetchStack w) else None
  | ClickClear confirmed =>
      if is_live w && main_view_shown (ui w) then
        match clear_disabled (ui w) with
        | Value false => Some (exec OClear (clearStack confirmed) w)
        | _ => None
        end
      else None
  | ClickRelease id =>
      if is_live w && main_view_shown (ui w)
         && bool_decide (id ∈ row_ids (stack (ui w)))
         && negb (disabled (release_button (ui w) id))
      then Some (exec (ORelease id) (releaseTeam id) w) else None
  | ToggleAutoRefresh checked =>
      if is_live w && main_view_shown (ui w) then
        if Bool.eqb checked (autoRefresh (ui w)) then Some w
        else Some (effect_run (effect_cleanup (with_ui (set_autoRefresh checked) w)))
      else None
  | CloseToast =>
      if is_live w && main_view_shown (ui w) then
        match toast (ui w) with
        | Some _ => Some (apply_effect (SetToast None) w)
        | None => None
        end
      else None
  | Settle i r =>
      match pending w !! i with
      | Some t => Some (exec (origin t) (resume t r) (with_pending (delete i) w))
      | None => None
      end
  | Tick dt =>
      if (0 <? dt)%N && no_timer_before (now w + dt)%N w
      then Some (with_now (now w + dt)%N w) else None
  | FireTimeout i =>
      match timeouts w !! i with
      | Some (due, cb) =>
          if (due <=? now w)%N
          then Some (run_callback cb (with_timeouts (delete i) w)) else None
      | None => None
      end
  | FireInterval =>
      match interval w with
      | Some due =>
          if (due <=? now w)%N
          then Some (with_interval (Some (due + 3000)%N) (exec OFetch fetchStack w))
          else None
      | None => None
      end
  end.

Fixpoint run (w : World) (es : list Event) : option World :=
  match es with
  | [] => Some w
  | e :: rest =>
      match step w e with
      | Some w' => run w' rest
      | None => None
      end
  end.

(** The page after its first render, before its effect has run. *)
Definition init_world : World :=
  {| ui := initial_state; now := 0%N; timeouts := []; interval := None;
     pending := []; console := []; unhandled := []; life := Fresh |}.

Definition requests (w : World) : list Request := map request (pending w).

Definition stack_request : Request := mkRequest GET "/api/exitout/stack".


(** ** Vocabulary of the statements *)

(** [v.name] where the read cannot throw. *)
Definition field (v : JsVal) (name : string) : JsVal :=
  match get_prop v name with
  | Value x => x
  | Raise _ => JUndefined
  end.

(** [response.stats.totalTeams] and the like, read off a response. *)
Definition response_stat (response : JsVal) (name : string) : Completion JsVal :=
  match get_prop response "stats" with
  | Value st => get_prop st name
  | Raise e => Raise e
  end.

(** The request settled with a response whose [success] is truthy. *)
Definition succeeded (r : ApiResult) : bool :=
  match r with
  | Fulfilled response =>
      match get_prop response "success" with
      | Value success => truthy success
      | Raise _ => false
      end
  | Rejected _ => false
  end.

Definition clear_request : Request := mkRequest POST "/api/exitout/clear".

Definition release_request (registrationId : string) : Request :=
  mkRequest POST ("/api/exitout/release/" +:+ registrationId).

Definition toast_type (t : option Toast) : option ToastType := type <$> t.

(** Everything of the React state but the loading flag and the toast. *)
Definition same_data (s s' : State) : Prop :=
  stack s' = stack s ∧ stats s' = stats s ∧ releasing s' = releasing s ∧
  autoRefresh s' = autoRefresh s ∧ confirmingId s' = confirmingId s.

(** A count of the data model: an integer that is not negative. *)
Definition is_count (v : JsVal) : bool :=
  match v with
  | JNum z => 0 <=? z
  | _ => false
  end.

Definition is_string (v : JsVal) : bool :=
  match v with
  | JStr _ => true
  | _ => false
  end.

(** [Stats] of the data model. *)
Definition stats_ok (v : JsVal) : bool :=
  match v with
  | JObj _ => is_count (field v "totalTeams") && is_count (field v "totalCards")
  | _ => false
  end.

(** [StackEntry] of the data model. *)
Definition entry_ok (v : JsVal) : bool :=
  match v with
  | JObj _ =>
      is_string (field v "registrationId") && is_count (field v "cardCount")
      && match field v "cards" with
         | JArr cards => forallb is_string cards
         | _ => false
         end
  | _ => false
  end.

(** A successful stack response as the API documents it, or one that
    leaves [stats] out. *)
Definition stack_response_ok (response : JsVal) : bool :=
  match field response "success", field response "stack" with
  | JBool true, JArr entries =>
      forallb entry_ok entries
      && match field response "stats" with
         | JUndefined => true
         | st => stats_ok st
         end
  | _, _ => false
  end.

(** The statement that an accepted clear always triggers a re-fetch. *)
Definition clear_always_refetches : Prop :=
  ∀ (w : World) (r : ApiResult) (env : World → World),
    ∃ k w', drive (clearStack true) [(r, env)] w = Blocked stack_request k w'.

Definition ok_stack : JsVal :=
  JObj [("success", JBool true);
        ("stack", JArr [JObj [("registrationId", JStr "T1"); ("cardCount", JNum 4);
                              ("cards", JArr [JStr "C1"; JStr "C2"; JStr "C3"; JStr "C4"])]]);
        ("stats", JObj [("totalTeams", JNum 1); ("totalCards", JNum 4)])].

(** A successful stack response that omits [stats]. *)
Definition ok_without_stats : JsVal :=
  JObj [("success", JBool true); ("stack", JArr [])].

Definition refused : JsVal :=
  JObj [("success", JBool false); ("error", JStr "database unavailable")].

(** ** Shapes of handlers *)

(** The effects other than the two updates of the [releasing] set. *)
Definition keeps_releasing (e : Effect) : Prop :=
  match e with
  | AddReleasing _ | DeleteReleasing _ => False
  | _ => True
  end.

(** [Runs ok may_throw p]: every effect of [p] satisfies [ok], and [p]
    throws only if [may_throw]. *)
Inductive Runs (ok : Effect → Prop) (may_throw : bool) {A : Type} : Async A → Prop :=
| Runs_ret (a : A) : Runs ok may_throw (Ret a)
| Runs_throw (e : Thrown) : may_throw = true → Runs ok may_throw (Throw e)
| Runs_do (e : Effect) (k : Async A) :
    ok e → Runs ok may_throw k → Runs ok may_throw (Do e k)
| Runs_await (req : Request) (k : ApiResult → Async A) :
    (∀ r, Runs ok may_throw (k r)) → Runs ok may_throw (Await req k).

(** [Releases id p]: [p] leaves the [releasing] set alone until its last
    effect, which deletes [id]; it then returns, and it never throws. *)
Inductive Releases (id : string) : Async unit → Prop :=
| Releases_delete : Releases id (Do (DeleteReleasing id) (Ret tt))
| Releases_do (e : Effect) (k : Async unit) :
    keeps_releasing e → Releases id k → Releases id (Do e k)
| Releases_await (req : Request) (k : ApiResult → Async unit) :
    (∀ r, Releases id (k r)) → Releases id (Await req k).

(** What the event system keeps true of a request in flight. *)
Definition task_ok (t : Task) : Prop :=
  match origin t with
  | ORelease id => ∀ r, Releases id (resume t r)
  | _ => ∀ r, Runs keeps_releasing false (resume t r)
  end.

(** The teams whose [releaseTeam] call has started and not returned. *)
Definition release_ids (ts : list Task) : list string :=
  omap (fun t => match origin t with
                 | ORelease id => Some id
                 | _ => None
                 end) ts.

Definition in_flight (w : World) (registrationId : string) : Prop :=
  registrationId ∈ release_ids (pending w).

(** The release read both [success] (truthy) and [result.released],
    and could print the latter. *)
Definition released_ok (r : ApiResult) : bool :=
  succeeded r &&
  match r with
  | Fulfilled response =>
      match get_prop (field response "result") "released" with
      | Value released =>
          match to_str released with
          | Value _ => true
          | Raise _ => false
          end
      | Raise _ => false
      end
  | Rejected _ => false
  end.

(** The invariant of the event system on the requests in flight. *)
Definition Inv (w : World) : Prop :=
  Forall task_ok (pending w) ∧
  (∀ id, id ∈ releasing (ui w) ↔ in_flight w id) ∧
  NoDup (release_ids (pending w)) ∧
  unhandled w = [].

(** The page after its first fetch returned [ok_stack]. *)
Definition loaded_world : World :=
  default init_world (run init_world [Mount; Settle 0%nat (Fulfilled ok_stack)]).

(** ... and after "Release All" was clicked on the row of team T1. *)
Definition releasing_world : World :=
  default init_world (step loaded_world (ClickRelease "T1")).

(** A release response that reports success but carries no [result]. *)
Definition released_without_result : JsVal := JObj [("success", JBool true)].

(** ** Timers *)

(** No timer of [w] is overdue: timers run when they fall due. *)
Definition on_time (w : World) : bool := no_timer_before (now w) w.

Definition is_fire_interval (e : Event) : bool :=
  match e with
  | FireInterval => true
  | _ => false
  end.

(** The event that switches polling on. *)
Definition starts_polling (e : Event) : bool :=
  match e with
  | ToggleAutoRefresh true => true
  | _ => false
  end.

(** The events that switch polling off. *)
Definition stops_polling (e : Event) : bool :=
  match e with
  | ToggleAutoRefresh false | Unmount => true
  | _ => false
  end.

(** The events that neither show nor clear a toast: everything but a
    settling request, a timeout and the close button. *)
Definition leaves_toast (e : Event) : bool :=
  match e with
  | Settle _ _ | FireTimeout _ | CloseToast => false
  | _ => true
  end.

(** The statement that switching auto-refresh off issues no fetch. *)
Definition toggle_off_issues_no_fetch : Prop :=
  ∀ (es : list Event) (w w' : World),
    run init_world es = Some w → autoRefresh (ui w) = true →
    step w (ToggleAutoRefresh false) = Some w' →
    requests w' = requests w.

(** The statement that a toast, once an event has shown it (the event
    set the toast and armed its timer), stays on display until 5000 ms
    have passed, whatever else happens. *)
Definition every_toast_lasts_5000 : Prop :=
  ∀ (es es' : list Event) (w w1 w2 : World) (e : Event) (t : Toast),
    run init_world es = Some w →
    step w e = Some w1 →
    toast (ui w1) = Some t →
    timeouts w1 = timeouts w ++ [((now w + 5000)%N, ClearToast)] →
    run w1 es' = Some w2 →
    (now w2 < now w1 + 5000)%N →
    toast (ui w2) = Some t.

(** The backend is down: every request is rejected. *)
Definition down : ApiResult := Rejected (JStr "Failed to fetch").

(** The number of times the polling interval ran in [es]. *)
Definition polls (es : list Event) : N :=
  N.of_nat (length (List.filter is_fire_interval es)).

(** The world after a failed fetch settles in [w]. *)
Definition after_fetch_failure (msg : string) (log : list LogArg) (w : World) : World :=
  with_ui (set_loading false)
    (with_timeouts (fun ts => ts ++ [((now w + 5000)%N, ClearToast)])
      (with_ui (set_toast (Some (mkToast msg Error)))
        (with_console (fun c => c ++ [log]) w))).

(** ** The list of teams *)

(** One row of the list: the team, its card count, the badges of its
    first cards, the "+n more" badge and the "Release All" button. *)
Record Row : Type := mkRow {
  row_registrationId : JsVal;
  row_cardCount : JsVal;
  row_badges : list JsVal;
  row_more : option Z;
  row_button : Button
}.

Inductive StackSection : Type :=
| EmptyCard                  (* "No Cards in ExitOut Stack" *)
| TeamRows (rows : list Row).

(** The body of [stack.map((item) => ...)].  [item.cards.slice(0, 3).map]
    exists only when [item.cards] is an array; on anything else one of
    the two calls throws a TypeError.  The button is that of
    [release_button] (the busy set holds strings, so a team identifier
    that is not a string is never in it). *)
Definition render_row (s : State) (item : JsVal) : Completion Row :=
  match get_prop item "registrationId" with
  | Raise e => Raise e
  | Value registrationId =>
      match get_prop item "cardCount" with
      | Raise e => Raise e
      | Value cardCount =>
          match get_prop item "cards" with
          | Raise e => Raise e
          | Value (JArr cards) =>
              Value {| row_registrationId := registrationId;
                       row_cardCount := cardCount;
                       row_badges := take 3 cards;
                       row_more := if 3 <? Z.of_nat (length cards)
                                   then Some (Z.of_nat (length cards) - 3)
                                   else None;
                       row_button := match registrationId with
                                     | JStr id => release_button s id
                                     | _ => mkButton false "Release All"
                                     end |}
          | Value _ => Raise TypeError
          end
      end
  end.

Fixpoint render_rows (s : State) (items : list JsVal) : Completion (list Row) :=
  match items with
  | [] => Value []
  | item :: rest =>
      match render_row s item with
      | Raise e => Raise e
      | Value row =>
          match render_rows s rest with
          | Raise e => Raise e
          | Value rows => Value (row :: rows)
          end
      end
  end.

(** [stack.length === 0 ? <empty card> : stack.map(...)]. *)
Definition stack_section (s : State) : Completion StackSection :=
  match get_prop (stack s) "length" with
  | Raise e => Raise e
  | Value len =>
      if strict_eq_zero len then Value EmptyCard
      else match stack s with
           | JArr items =>
               match render_rows s items with
               | Raise e => Raise e
               | Value rows => Value (TeamRows rows)
               end
           | _ => Raise TypeError
           end
  end.

(** The third statistics card. *)
Inductive Average : Type :=
| AverageZero                                     (* '0' *)
| AverageOf (totalCards totalTeams : Number).     (* (totalCards / totalTeams).toFixed(1) *)

(** [stats.totalCards > 0 ? (stats.totalCards / stats.totalTeams).toFixed(1) : '0']
    at any value: [>] and [/] convert their operands to numbers, which
    throws on an object that cannot be printed. *)
Definition average_card (s : State) : Completion Average :=
  match get_prop (stats s) "totalCards" with
  | Raise e => Raise e
  | Value totalCards =>
      match to_number totalCards with
      | Raise e => Raise e
      | Value cards =>
          if is_positive cards then
            match get_prop (stats s) "totalTeams" with
            | Raise e => Raise e
            | Value totalTeams =>
                match to_number totalTeams with
                | Raise e => Raise e
                | Value teams => Value (AverageOf cards teams)
                end
            end
          else Value AverageZero
      end
  end.

Inductive Page : Type :=
| LoaderPage
| MainPage (totalTeams totalCards : JsVal) (average : Average) (clearDisabled : bool)
           (section : StackSection) (shownToast : option Toast).

(** The component's [return]: the loader, or the three statistics, the
    [disabled] test of "Clear All Stack", the list and the toast,
    evaluated in that order.  (The checkbox and the Refresh button show
    [autoRefresh] and [refresh_button]; nothing in them can throw.) *)
Definition page (s : State) : Completion Page :=
  match shows_loader s with
  | Raise e => Raise e
  | Value true => Value LoaderPage
  | Value false =>
      match displayed_totalTeams s with
      | Raise e => Raise e
      | Value totalTeams =>
          match displayed_totalCards s with
          | Raise e => Raise e
          | Value totalCards =>
              match average_card s with
              | Raise e => Raise e
              | Value average =>
                  match clear_disabled s with
                  | Raise e => Raise e
                  | Value clearDisabled =>
                      match stack_section s with
                      | Raise e => Raise e
                      | Value section =>
                          Value (MainPage totalTeams totalCards average clearDisabled
                                          section (toast s))
                      end
                  end
              end
          end
      end
  end.

(** The page shows its statistics, controls and list. *)
Definition interactive (s : State) : bool :=
  match page s with
  | Value (MainPage _ _ _ _ _ _) => true
  | _ => false
  end.

(** The entry has a [cards] array. *)
Definition has_cards (item : JsVal) : bool :=
  match get_prop item "cards" with
  | Value (JArr _) => true
  | _ => false
  end.

(** Neither an array nor an object. *)
Definition is_primitive (v : JsVal) : bool :=
  match v with
  | JArr _ | JObj _ => false
  | _ => true
  end.

(** The statement that after every well-formed successful response the
    two totals on the page are the response's own [stats] fields. *)
Definition totals_always_from_response : Prop :=
  ∀ (w : World) (response : JsVal) (env : World → World),
    stack_response_ok response = true →
    ∃ w' totalTeams totalCards average clearDisabled section shownToast,
      drive fetchStack [(Fulfilled response, env)] w = Done tt w' ∧
      page (ui w') = Value (MainPage totalTeams totalCards average clearDisabled
                                     section shownToast) ∧
      Value totalTeams = response_stat response "totalTeams" ∧
      Value totalCards = response_stat response "totalCards".

(** The statement that the view is interactive again after a stack
    fetch, whatever the shape of the response. *)
Definition every_response_leaves_view_interactive : Prop :=
  ∀ (w : World) (r : ApiResult) (env : World → World),
    interactive (ui (env w)) = true →
    ∃ w', drive fetchStack [(r, env)] w = Done tt w' ∧
          interactive (ui w') = true.

(** A successful stack response with an entry that has no [cards]. *)
Definition stack_without_cards : JsVal :=
  JObj [("success", JBool true);
        ("stack", JArr [JObj [("registrationId", JStr "T1")]])].

(** The view once a stack fetch that settled with [r] in state [s] has
    returned in state [s']: after a failure it is what the data held
    before give with the loading flag off, and after a well-formed
    success it is interactive. *)
Definition view_after_fetch (r : ApiResult) (s s' : State) : Prop :=
  (succeeded r = false → interactive s' = interactive (set_loading false s)) ∧
  (∀ response, r = Fulfilled response → stack_response_ok response = true →
               interactive s' = true).

(** ** State invariants *)

(** [P] holds of the React state and every request in flight resumes
    into code whose effects satisfy [ok]. *)
Definition StateInv (ok : Effect → Prop) (P : State → Prop) (w : World) : Prop :=
  P (ui w) ∧ Forall (fun t => ∀ r, Runs ok false (resume t r)) (pending w).

(** The values a handler stores as stack and stats are truthy. *)
Definition stores_truthy (e : Effect) : Prop :=
  match e with
  | SetStack v | SetStats v => truthy v = true
  | _ => True
  end.

Definition data_truthy (s : State) : Prop :=
  truthy (stack s) = true ∧ truthy (stats s) = true.


(** The interval is armed exactly on the mounted page with auto-refresh
    on, and its next run is at most 3000 ms away. *)
Definition polling_consistent (w : World) : Prop :=
  (is_Some (interval w) ↔ autoRefresh (ui w) = true ∧ life w = Live) ∧
  ∀ due, interval w = Some due → (due ≤ now w + 3000)%N.

(** The message of the toast a failed release shows for [id]. *)
Definition names_team (id : string) (msg : string) : Prop :=
  msg = "Error releasing team " +:+ id ∨
  ∃ err, msg = "Failed to release team " +:+ id +:+ ": " +:+ err.

(** ** The loading flag *)

(** [Unloads p]: the last effect of [p] sets the loading flag to false;
    [p] then returns, and it never throws. *)
Inductive Unloads : Async unit → Prop :=
| Unloads_last : Unloads (Do (SetLoading false) (Ret tt))
| Unloads_do (e : Effect) (k : Async unit) : Unloads k → Unloads (Do e k)
| Unloads_await (req : Request) (k : ApiResult → Async unit) :
    (∀ r, Unloads (k r)) → Unloads (Await req k).

(** The effects other than [setLoading(true)]. *)
Definition keeps_loading (e : Effect) : Prop :=
  match e with
  | SetLoading true => False
  | _ => True
  end.

Definition every_effect (e : Effect) : Prop := True.

(** The calls that end by clearing the loading flag: [fetchStack] on
    its own and [clearStack]. *)
Definition is_loader (o : Origin) : bool :=
  match o with
  | ORelease _ => false
  | _ => true
  end.

Definition loading_task_ok (t : Task) : Prop :=
  if is_loader (origin t)
  then ∀ r, Unloads (resume t r)
  else ∀ r, Runs keeps_loading false (resume t r).

Definition InvLoading (w : World) : Prop :=
  Forall loading_task_ok (pending w) ∧
  (loading (ui w) = true →
   life w = Fresh ∨ ∃ t, t ∈ pending w ∧ is_loader (origin t) = true).

(** ** Code that resumes after a response *)

(** The effects that are no part of showing a toast: clearing the toast
    is allowed, and so is a bare timer of at most 5000 ms. *)
Definition beside_toast (e : Effect) : Prop :=
  match e with
  | SetToast (Some _) => False
  | SetTimeout _ delay => (delay ≤ 5000)%N
  | _ => True
  end.

(** [Resumes p]: [p] shows a toast only together with its 5000 ms timer,
    and the only request it awaits is the fetch of the stack. *)
Inductive Resumes {A : Type} : Async A → Prop :=
| Resumes_ret (a : A) : Resumes (Ret a)
| Resumes_throw (e : Thrown) : Resumes (Throw e)
| Resumes_toast (t : Toast) (cb : TimerCallback) (k : Async A) :
    Resumes k → Resumes (Do (SetToast (Some t)) (Do (SetTimeout cb 5000) k))
| Resumes_do (e : Effect) (k : Async A) :
    beside_toast e → Resumes k → Resumes (Do e k)
| Resumes_await (k : ApiResult → Async A) :
    (∀ r, Resumes (k r)) → Resumes (Await stack_request k).

(** A toast on display has a timer pending, and every pending timer is
    due within 5000 ms. *)
Definition toast_armed (w : World) : Prop :=
  (is_Some (toast (ui w)) → timeouts w ≠ []) ∧
  Forall (fun tc => (fst tc ≤ now w + 5000)%N) (timeouts w).

Definition InvResume (w : World) : Prop :=
  Forall (fun t => ∀ r, Resumes (resume t r)) (pending w) ∧ toast_armed w.

(** * Properties *)

(** ** Reading a response *)

Lemma get_prop_field (v : JsVal) (a b : string) (x : JsVal) :
  get_prop v a = Value x → get_prop v b = Value (field v b).
Proof.
  unfold field. destruct v; simpl; try discriminate; intros _;
    try destruct (String.eqb b "length"); reflexivity.
Qed.

Lemma succeeded_fulfilled (r : ApiResult) :
  succeeded r = true →
  ∃ response, r = Fulfilled response ∧
              get_prop response "success" = Value (field response "success") ∧
              truthy (field response "success") = true.
Proof.
  destruct r as [response|reason]; simpl; [|discriminate].
  destruct (get_prop response "success") as [s|] eqn:E; [|discriminate].
  intros Ht. exists response. pose proof (get_prop_field _ _ "success" _ E) as E'.
  rewrite E in E'. injection E' as ->. auto.
Qed.

(** ** fetchStack *)

Lemma fetchStack_blocks (w : World) :
  ∃ k, drive fetchStack [] w = Blocked stack_request k w.
Proof. eexists. reflexivity. Qed.

Lemma fetchStack_success (r : ApiResult) env rest (w : World) :
  succeeded r = true →
  ∃ response, r = Fulfilled response ∧
    drive fetchStack ((r, env) :: rest) w =
    Done tt (with_ui (set_loading false)
              (with_ui (set_stats (js_or (field response "stats") default_stats))
                (with_ui (set_stack (js_or (field response "stack") (JArr [])))
                  (env w)))).
Proof.
  intros H. destruct (succeeded_fulfilled r H) as (response & -> & Hs & Ht).
  exists response. split; [reflexivity|].
  unfold fetchStack. simpl. unfold get.
  rewrite Hs. simpl. rewrite Ht.
  rewrite (get_prop_field _ _ "stack" _ Hs). simpl.
  rewrite (get_prop_field _ _ "stats" _ Hs). reflexivity.
Qed.

Lemma fetchStack_failure (r : ApiResult) env rest (w : World) :
  succeeded r = false →
  ∃ msg log, drive fetchStack ((r, env) :: rest) w =
             Done tt (after_fetch_failure msg log (env w)).
Proof.
  intros H. destruct r as [response|reason]; simpl in H.
  - destruct (get_prop response "success") as [s|e] eqn:E.
    + exists "Failed to fetch stack data",
             [LStr "Failed to fetch stack:"; LVal (field response "error")].
      unfold fetchStack. simpl. unfold get. rewrite E. simpl. rewrite H.
      rewrite (get_prop_field _ _ "error" _ E). reflexivity.
    + exists "Error connecting to server", [LStr "Error fetching stack:"; LThrown e].
      unfold fetchStack. simpl. unfold get. rewrite E. reflexivity.
  - exists "Error connecting to server",
           [LStr "Error fetching stack:"; LThrown (Reason reason)].
    reflexivity.
Qed.

(** C3.  A stack fetch that fails (the request is rejected, the response
    cannot be read, or its [success] is falsy) changes nothing while it
    is in flight, and when it settles it leaves the stack, the stats and
    every other part of the state as they were at that moment, except
    that an error toast is shown (with its dismissal timer) and the
    loading flag is false.  It issues no further request. *)
Theorem fetchStack_failure_frame (w : World) (r : ApiResult) (env : World → World) :
  succeeded r = false →
  (∃ k, drive fetchStack [] w = Blocked stack_request k w) ∧
  ∃ w', drive fetchStack [(r, env)] w = Done tt w' ∧
        same_data (ui (env w)) (ui w') ∧
        loading (ui w') = false ∧
        toast_type (toast (ui w')) = Some Error ∧
        timeouts w' = timeouts (env w) ++ [((now (env w) + 5000)%N, ClearToast)] ∧
        requests w' = requests (env w) ∧
        interval w' = interval (env w) ∧ now w' = now (env w) ∧
        unhandled w' = unhandled (env w).
Proof.
  intros H. split; [apply fetchStack_blocks|].
  destruct (fetchStack_failure r env [] w H) as (msg & log & ->).
  eexists. split; [reflexivity|]. unfold same_data. simpl. tauto.
Qed.

Lemma fetchStack_failure_frame_witness :
  ∃ w', drive fetchStack [(Fulfilled refused, id)] init_world = Done tt w' ∧
        stack (ui w') = JArr [] ∧ stats (ui w') = default_stats ∧
        loading (ui w') = false ∧
        toast (ui w') = Some (mkToast "Failed to fetch stack data" Error).
Proof.
  destruct (fetchStack_failure_frame init_world (Fulfilled refused) id eq_refl)
    as (_ & w' & Hrun & (Hstack & Hstats & _) & Hload & _).
  exists w'. split; [exact Hrun|].
  split; [exact Hstack|]. split; [exact Hstats|]. split; [exact Hload|].
  injection Hrun as <-. reflexivity.
Defined.

(** ** Rendering guards *)

(** C5.  In every state whose [stats.totalCards] is 0 the [disabled]
    attribute of "Clear All Stack" is true, so wherever the page renders
    the control it renders it disabled, and no click on it reaches
    [clearStack]. *)
Theorem clear_disabled_when_no_cards (w : World) (confirmed : bool) :
  displayed_totalCards (ui w) = Value (JNum 0) →
  clear_disabled (ui w) = Value true ∧ step w (ClickClear confirmed) = None.
Proof.
  unfold displayed_totalCards. intros H.
  assert (Hd : clear_disabled (ui w) = Value true).
  { unfold clear_disabled. rewrite H. destruct (loading (ui w)); reflexivity. }
  split; [exact Hd|]. simpl. rewrite Hd.
  destruct (is_live w && main_view_shown (ui w)); reflexivity.
Qed.

Lemma clear_disabled_when_no_cards_witness :
  clear_disabled (ui (with_ui (set_loading false) init_world)) = Value true ∧
  step (with_ui (set_loading false) init_world) (ClickClear true) = None.
Proof.
  apply (clear_disabled_when_no_cards (with_ui (set_loading false) init_world) true).
  reflexivity.
Defined.

(** C10.  For stats whose two fields are numbers, the average card
    divides [totalCards] by [totalTeams] exactly when [totalCards > 0]
    and is the literal '0' otherwise; and for a team count that is not
    negative the card is free of a division by zero if and only if
    [totalTeams > 0] whenever [totalCards > 0].  The guard itself lets
    [totalTeams = 0] through: see [average_guard_passes_zero_teams]. *)
Theorem average_division_guard (s : State) (totalCards totalTeams : Z) :
  displayed_totalCards s = Value (JNum totalCards) →
  displayed_totalTeams s = Value (JNum totalTeams) →
  0 ≤ totalTeams →
  displayed_average s =
    Some (if 0 <? totalCards then AvgQuotient totalCards totalTeams
          else AvgLiteral "0") ∧
  (divides_by_zero (average_cards totalCards totalTeams) = false ↔
   (0 < totalCards → 0 < totalTeams)).
Proof.
  unfold displayed_totalCards, displayed_totalTeams, displayed_average.
  intros -> -> Hteams. split; [reflexivity|].
  unfold average_cards. destruct (0 <? totalCards) eqn:E; simpl.
  - apply Z.ltb_lt in E. rewrite Z.eqb_neq. lia.
  - apply Z.ltb_ge in E. split; [lia | reflexivity].
Qed.

Lemma average_division_guard_witness :
  displayed_average (ui loaded_world) = Some (AvgQuotient 4 1) ∧
  (divides_by_zero (average_cards 4 1) = false ↔ (0 < 4 → 0 < 1)).
Proof.
  apply (average_division_guard (ui loaded_world) 4 1); [reflexivity..|lia].
Defined.

(** Three cards and no team pass the guard and divide by zero. *)
Example average_guard_passes_zero_teams :
  displayed_average (set_stats (JObj [("totalTeams", JNum 0); ("totalCards", JNum 3)])
                               initial_state)
  = Some (AvgQuotient 3 0) ∧
  divides_by_zero (AvgQuotient 3 0) = true.
Proof. split; reflexivity. Qed.

(** ** clearStack *)

(** C6 (as amended).  A declined confirmation ends [clearStack] at once:
    no request is issued and the world is unchanged.  An accepted one
    sets the loading flag and posts to the clear endpoint.  When that
    request succeeds a success toast is shown and the stack is fetched
    again, and the loading flag is false once that fetch has settled.
    When it fails an error toast is shown, the loading flag is false,
    and no fetch is issued. *)
Theorem clearStack_contract (w : World) (r r2 : ApiResult) (env env2 : World → World)
    (inputs : list (ApiResult * (World → World))) :
  drive (clearStack false) inputs w = Done tt w ∧
  (∃ k, drive (clearStack true) [] w =
        Blocked clear_request k (with_ui (set_loading true) w)) ∧
  if succeeded r then
    (∃ k w1, drive (clearStack true) [(r, env)] w = Blocked stack_request k w1 ∧
             toast (ui w1) = Some (mkToast "Stack cleared successfully" Success) ∧
             requests w1 = requests (env (with_ui (set_loading true) w))) ∧
    (∃ w2, drive (clearStack true) [(r, env); (r2, env2)] w = Done tt w2 ∧
           loading (ui w2) = false)
  else
    ∃ w1, drive (clearStack true) [(r, env)] w = Done tt w1 ∧
          toast_type (toast (ui w1)) = Some Error ∧
          loading (ui w1) = false ∧
          same_data (ui (env (with_ui (set_loading true) w))) (ui w1) ∧
          requests w1 = requests (env (with_ui (set_loading true) w)).
Proof.
  split; [reflexivity|]. split; [eexists; reflexivity|].
  destruct (succeeded r) eqn:H.
  - destruct (succeeded_fulfilled r H) as (response & -> & Hs & Ht).
    split.
    + unfold clearStack, fetchStack. simpl. unfold get. rewrite Hs. simpl. rewrite Ht.
      simpl. do 2 eexists. split; [reflexivity|]. split; reflexivity.
    + unfold clearStack. simpl. unfold get. rewrite Hs. simpl. rewrite Ht. simpl.
      destruct (succeeded r2) eqn:H2.
      * destruct (succeeded_fulfilled r2 H2) as (resp2 & -> & Hs2 & Ht2).
        unfold fetchStack. simpl. unfold get. rewrite Hs2. simpl. rewrite Ht2.
        rewrite (get_prop_field _ _ "stack" _ Hs2). simpl.
        rewrite (get_prop_field _ _ "stats" _ Hs2). simpl.
        eexists. split; reflexivity.
      * destruct r2 as [resp2|reason2]; simpl in H2.
        -- unfold fetchStack. simpl. unfold get.
           destruct (get_prop resp2 "success") as [s|e] eqn:E; simpl.
           ++ rewrite H2. rewrite (get_prop_field _ _ "error" _ E). simpl.
              eexists. split; reflexivity.
           ++ eexists. split; reflexivity.
        -- simpl. eexists. split; reflexivity.
  - unfold same_data. destruct r as [response|reason]; simpl in H.
    + unfold clearStack. simpl. unfold get.
      destruct (get_prop response "success") as [s|e] eqn:E; simpl.
      * rewrite H. rewrite (get_prop_field _ _ "error" _ E). simpl. unfold lift.
        destruct (to_str (field response "error")); simpl;
          eexists; (split; [reflexivity|]); simpl; tauto.
      * eexists. split; [reflexivity|]. simpl. tauto.
    + simpl. eexists. split; [reflexivity|]. simpl. tauto.
Qed.

(** C6, counterexample: an accepted clear that the backend refuses
    ([success: false]) ends without fetching the stack again. *)
Lemma clear_failure_does_not_refetch : ¬ clear_always_refetches.
Proof.
  intros claim.
  destruct (claim init_world (Fulfilled refused) id) as (k & w' & Hrun).
  discriminate Hrun.
Qed.

(** ** Shapes of the three handlers *)

Section Shapes.
Context (ok : Effect → Prop).

Lemma Runs_weaken {A} (p : Async A) (t : bool) :
  Runs ok false p → Runs ok t p.
Proof.
  induction 1; try (constructor; auto; fail). discriminate.
Qed.

Lemma Runs_bind {A B} (m : Async A) (f : A → Async B) (t : bool) :
  Runs ok t m → (∀ a, Runs ok t (f a)) → Runs ok t (m ≫= f).
Proof.
  intros Hm Hf. unfold mbind, Async_bind.
  induction Hm; simpl; try (constructor; auto; fail). apply Hf.
Qed.

Lemma Runs_try_catch {A} (m : Async A) (h : Thrown → Async A) (t : bool) :
  Runs ok true m → (∀ e, Runs ok t (h e)) → Runs ok t (try_catch m h).
Proof.
  intros Hm Hh. induction Hm; simpl; try (constructor; auto; fail). apply Hh.
Qed.

Lemma Runs_finally {A} (m : Async A) (f : Async unit) (t : bool) :
  Runs ok t m → Runs ok false f → Runs ok t (finally m f).
Proof.
  intros Hm Hf. induction Hm; simpl; try (constructor; auto; fail).
  - apply (Runs_bind f); [apply Runs_weaken, Hf | constructor].
  - apply (Runs_bind f); [apply Runs_weaken, Hf | constructor; assumption].
Qed.

Lemma Runs_lift {A} (c : Completion A) : Runs ok true (lift c).
Proof. destruct c; constructor. reflexivity. Qed.

Lemma Runs_get (v : JsVal) (name : string) : Runs ok true (get v name).
Proof. apply Runs_lift. Qed.

Lemma Runs_await_api (m : Method) (u : string) : Runs ok true (await_api m u).
Proof. constructor. intros [v|reason]; constructor. reflexivity. Qed.

Lemma Runs_effect (e : Effect) (t : bool) : ok e → Runs ok t (effect e).
Proof. intros H. constructor; [exact H | constructor]. Qed.
End Shapes.

Ltac runs :=
  repeat first
    [ apply Runs_finally
    | apply Runs_try_catch; [|intros ?]
    | apply Runs_bind; [|intros ?]
    | apply Runs_get
    | apply Runs_lift
    | apply Runs_await_api
    | apply Runs_effect; exact I
    | apply Runs_weaken; apply Runs_effect; exact I
    | match goal with |- Runs _ _ (if ?b then _ else _) => destruct b end ].

Lemma Runs_showToast (ok : Effect → Prop) (t : bool) msg ty :
  ok (SetToast (Some (mkToast msg (default Info ty)))) →
  ok (SetTimeout ClearToast 5000) →
  Runs ok t (showToast msg ty).
Proof. intros H1 H2. repeat constructor; assumption. Qed.

Lemma Runs_fetchStack (t : bool) : Runs keeps_releasing t fetchStack.
Proof.
  apply Runs_weaken. unfold fetchStack, setStack, setStats, setLoading, console_error.
  runs; apply Runs_showToast; exact I.
Qed.

Lemma Runs_clearStack (confirmed t : bool) : Runs keeps_releasing t (clearStack confirmed).
Proof.
  apply Runs_weaken. unfold clearStack, setLoading, console_error.
  destruct (negb confirmed); [constructor|].
  runs; try (apply Runs_showToast; exact I); apply Runs_fetchStack.
Qed.

Lemma Releases_finally (id : string) (m : Async unit) :
  Runs keeps_releasing false m →
  Releases id (finally m (effect (DeleteReleasing id))).
Proof.
  induction 1 as [[]| |e k He Hk IH|req k Hk IH]; simpl.
  - apply Releases_delete.
  - discriminate.
  - apply Releases_do; assumption.
  - apply Releases_await. exact IH.
Qed.

Lemma releaseTeam_shape (id : string) :
  ∃ k, releaseTeam id = Do (AddReleasing id) (Await (release_request id) k) ∧
       ∀ r, Releases id (k r).
Proof.
  eexists. split; [reflexivity|]. intros r.
  apply Releases_finally. unfold console_error.
  apply Runs_try_catch; [|intros ?; runs; apply Runs_showToast; exact I].
  apply (Runs_bind _ (match r with
                      | Fulfilled v => Ret v
                      | Rejected reason => Throw (Reason reason)
                      end)).
  - destruct r; constructor. reflexivity.
  - intros response. runs; apply Runs_showToast; exact I.
Qed.

(** ** Running a handler in the event loop *)

Lemma exec_do (o : Origin) (e : Effect) (k : Async unit) (w : World) :
  exec o (Do e k) w = exec o k (apply_effect e w).
Proof. reflexivity. Qed.

Lemma keeps_releasing_effect (e : Effect) (w : World) :
  keeps_releasing e →
  releasing (ui (apply_effect e w)) = releasing (ui w) ∧
  pending (apply_effect e w) = pending w ∧
  unhandled (apply_effect e w) = unhandled w.
Proof. destruct e; simpl; intros H; try contradiction; auto. Qed.

Lemma exec_keeps_releasing (o : Origin) (p : Async unit) (w : World) :
  Runs keeps_releasing false p →
  releasing (ui (exec o p w)) = releasing (ui w) ∧
  unhandled (exec o p w) = unhandled w ∧
  (pending (exec o p w) = pending w ∨
   ∃ t, pending (exec o p w) = pending w ++ [t] ∧ origin t = o ∧
        ∀ r, Runs keeps_releasing false (resume t r)).
Proof.
  intros H. revert w. induction H as [a|e Ht|e k He Hk IH|req k Hk IH]; intros w.
  - simpl. auto.
  - discriminate.
  - rewrite exec_do. destruct (keeps_releasing_effect e w He) as (Hr & Hp & Hu).
    destruct (IH (apply_effect e w)) as (Hr' & Hu' & Hp').
    rewrite Hr', Hu', Hr, Hu. split; [reflexivity|]. split; [reflexivity|].
    rewrite <- Hp. exact Hp'.
  - unfold exec. simpl. split; [reflexivity|]. split; [reflexivity|].
    right. eexists. split; [reflexivity|]. split; [reflexivity|]. exact Hk.
Qed.

Lemma exec_releases (id : string) (p : Async unit) (w : World) :
  Releases id p →
  unhandled (exec (ORelease id) p w) = unhandled w ∧
  ((pending (exec (ORelease id) p w) = pending w ∧
    releasing (ui (exec (ORelease id) p w)) = releasing (ui w) ∖ {[id]}) ∨
   ∃ t, pending (exec (ORelease id) p w) = pending w ++ [t] ∧
        origin t = ORelease id ∧ (∀ r, Releases id (resume t r)) ∧
        releasing (ui (exec (ORelease id) p w)) = releasing (ui w)).
Proof.
  intros H. revert w. induction H as [|e k He Hk IH|req k Hk IH]; intros w.
  - unfold exec. simpl. auto.
  - rewrite exec_do. destruct (keeps_releasing_effect e w He) as (Hr & Hp & Hu).
    destruct (IH (apply_effect e w)) as (Hu' & Hcases).
    rewrite Hu', Hu. split; [reflexivity|]. rewrite <- Hr, <- Hp. exact Hcases.
  - unfold exec. simpl. split; [reflexivity|].
    right. eexists. split; [reflexivity|]. split; [reflexivity|]. split; [exact Hk|].
    reflexivity.
Qed.

(** ** The invariant on the requests in flight *)

Lemma release_ids_app (ts1 ts2 : list Task) :
  release_ids (ts1 ++ ts2) = release_ids ts1 ++ release_ids ts2.
Proof. unfold release_ids. apply omap_app. Qed.

Lemma Inv_init : Inv init_world.
Proof.
  unfold Inv, in_flight. simpl. split; [constructor|].
  split; [|split; [constructor|reflexivity]].
  intros id. split; intros H; [set_solver | inversion H].
Qed.

(** A change that touches neither the requests nor the set keeps [Inv]. *)
Lemma Inv_frame (w w' : World) :
  Inv w → pending w' = pending w → releasing (ui w') = releasing (ui w) →
  unhandled w' = unhandled w → Inv w'.
Proof.
  unfold Inv, in_flight. intros (Ht & Hs & Hn & Hu) Hp Hr Hu'.
  rewrite Hp, Hr, Hu'. auto.
Qed.

Lemma Inv_exec_other (o : Origin) (p : Async unit) (w : World) :
  Inv w → (∀ id, o ≠ ORelease id) → Runs keeps_releasing false p → Inv (exec o p w).
Proof.
  intros HI Ho Hp.
  destruct (exec_keeps_releasing o p w Hp) as (Hr & Hu & [Hpend|(t & Hpend & Hto & Htk)]).
  - apply (Inv_frame w); assumption.
  - destruct HI as (Ht & Hs & Hn & Hu0). unfold Inv, in_flight.
    assert (Hids : release_ids (pending (exec o p w)) = release_ids (pending w)).
    { rewrite Hpend, release_ids_app. simpl. rewrite Hto.
      destruct o; try (apply app_nil_r). exfalso. eapply Ho. reflexivity. }
    rewrite Hids, Hr, Hu. split; [|auto].
    rewrite Hpend. apply Forall_app. split; [exact Ht|].
    constructor; [|constructor]. unfold task_ok. rewrite Hto.
    destruct o; try exact Htk. exfalso. eapply Ho. reflexivity.
Qed.

Lemma Inv_click_release (id : string) (w : World) :
  Inv w → id ∉ releasing (ui w) →
  Inv (exec (ORelease id) (releaseTeam id) w) ∧
  id ∈ releasing (ui (exec (ORelease id) (releaseTeam id) w)).
Proof.
  intros (Ht & Hs & Hn & Hu) Hfree.
  destruct (releaseTeam_shape id) as (k & -> & Hk).
  unfold Inv, in_flight, exec. simpl. rewrite release_ids_app. simpl.
  split; [split|].
  - apply Forall_app. split; [exact Ht|]. constructor; [|constructor]. exact Hk.
  - split; [|split; [|exact Hu]].
    + intros id'. rewrite elem_of_app, list_elem_of_singleton, elem_of_union,
        elem_of_singleton. rewrite (Hs id'). reflexivity.
    + apply list.NoDup_app. split; [exact Hn|]. split; [|apply NoDup_singleton].
      intros x Hx. rewrite list_elem_of_singleton. intros ->.
      apply Hfree, Hs, Hx.
  - apply elem_of_union. right. apply elem_of_singleton. reflexivity.
Qed.

Lemma release_ids_middle (ts : list Task) (i : nat) (t : Task) :
  ts !! i = Some t →
  release_ids ts =
  release_ids (take i ts) ++ release_ids [t] ++ release_ids (drop (S i) ts).
Proof.
  intros Hi. rewrite <- !release_ids_app. f_equal. symmetry.
  apply take_drop_middle. exact Hi.
Qed.

Lemma release_ids_delete_other (ts : list Task) (i : nat) (t : Task) :
  ts !! i = Some t → (∀ id, origin t ≠ ORelease id) →
  release_ids (delete i ts) = release_ids ts.
Proof.
  intros Hi Ho. rewrite (release_ids_middle ts i t Hi).
  rewrite delete_take_drop, release_ids_app. simpl.
  destruct (origin t) eqn:E; try reflexivity. exfalso. eapply Ho. reflexivity.
Qed.

Lemma release_ids_delete_release (ts : list Task) (i : nat) (t : Task) (id : string) :
  ts !! i = Some t → origin t = ORelease id → NoDup (release_ids ts) →
  (id ∉ release_ids (delete i ts)) ∧ NoDup (release_ids (delete i ts)) ∧
  (∀ id', id' ∈ release_ids ts ↔ (id' = id ∨ id' ∈ release_ids (delete i ts))).
Proof.
  intros Hi Ho. rewrite (release_ids_middle ts i t Hi).
  rewrite delete_take_drop, release_ids_app. simpl. rewrite Ho. simpl.
  set (l1 := release_ids (take i ts)). set (l2 := release_ids (drop (S i) ts)).
  intros Hn. apply list.NoDup_app in Hn as (Hn1 & Hdis & Hn2).
  apply list.NoDup_cons in Hn2 as (Hid2 & Hn2).
  split; [|split].
  - rewrite elem_of_app. intros [H1|H2]; [|exact (Hid2 H2)].
    apply (Hdis id H1). left.
  - apply list.NoDup_app. split; [exact Hn1|]. split; [|exact Hn2].
    intros x Hx Hx2. apply (Hdis x Hx). right. exact Hx2.
  - intros id'. rewrite !elem_of_app, elem_of_cons. tauto.
Qed.

Lemma Forall_delete_task (ts : list Task) (i : nat) :
  Forall task_ok ts → Forall task_ok (delete i ts).
Proof.
  intros H. rewrite Forall_forall in *. intros t Ht. apply H.
  apply list_elem_of_In. apply list_elem_of_In in Ht.
  eapply list_elem_of_delete_inv. exact Ht.
Qed.

Lemma Inv_settle (w : World) (i : nat) (t : Task) (r : ApiResult) :
  Inv w → pending w !! i = Some t →
  Inv (exec (origin t) (resume t r) (with_pending (delete i) w)).
Proof.
  intros (Ht & Hs & Hn & Hu) Hi.
  assert (Htok : task_ok t).
  { rewrite Forall_forall in Ht. apply Ht. apply list_elem_of_In.
    eapply list_elem_of_lookup_2. exact Hi. }
  set (w0 := with_pending (delete i) w).
  destruct (origin t) as [|id|] eqn:Ho.
  1,3: (apply Inv_exec_other; [|intros id; discriminate
        |unfold task_ok in Htok; rewrite Ho in Htok; apply Htok];
        unfold Inv, in_flight; subst w0; simpl;
        rewrite (release_ids_delete_other _ _ _ Hi)
          by (intros id; rewrite Ho; discriminate);
        split; [apply Forall_delete_task, Ht|auto]).
  unfold task_ok in Htok. rewrite Ho in Htok.
  destruct (release_ids_delete_release _ _ _ _ Hi Ho Hn) as (Hgone & Hn' & Hmem).
  destruct (exec_releases id (resume t r) w0 (Htok r))
    as (Hu' & [(Hp & Hr)|(t' & Hp & Hto & Htk & Hr)]);
    unfold Inv, in_flight; rewrite Hp, Hr, Hu'; subst w0; simpl.
  - split; [apply Forall_delete_task, Ht|]. split; [|auto].
    intros id'. rewrite elem_of_difference, elem_of_singleton, (Hs id').
    unfold in_flight. rewrite (Hmem id'). split.
    + intros ([->|H] & Hne); [contradiction|exact H].
    + intros H. split; [right; exact H|]. intros ->. exact (Hgone H).
  - rewrite release_ids_app. simpl. rewrite Hto. simpl.
    split; [|split; [|split; [|exact Hu]]].
    + apply Forall_app. split; [apply Forall_delete_task, Ht|].
      constructor; [|constructor]. unfold task_ok. rewrite Hto. exact Htk.
    + intros id'. rewrite (Hs id'). unfold in_flight. rewrite (Hmem id').
      rewrite elem_of_app, list_elem_of_singleton. tauto.
    + apply list.NoDup_app. split; [exact Hn'|]. split; [|apply NoDup_singleton].
      intros x Hx. rewrite list_elem_of_singleton. intros ->. exact (Hgone Hx).
Qed.

Lemma Inv_effect_run (w : World) : Inv w → Inv (effect_run w).
Proof.
  intros H. unfold effect_run.
  assert (H1 : Inv (exec OFetch fetchStack w)).
  { apply Inv_exec_other; [exact H|intros id; discriminate|apply Runs_fetchStack]. }
  destruct (autoRefresh (ui (exec OFetch fetchStack w))); [|exact H1].
  apply (Inv_frame _ _ H1); reflexivity.
Qed.

Lemma Inv_step (w w' : World) (e : Event) : Inv w → step w e = Some w' → Inv w'.
Proof.
  intros H. destruct e; simpl.
  - destruct (life w); try discriminate. intros [= <-].
    apply Inv_effect_run. apply (Inv_frame _ _ H); reflexivity.
  - destruct (is_live w); try discriminate. intros [= <-].
    apply (Inv_frame _ _ H); reflexivity.
  - destruct (_ && _); try discriminate. intros [= <-].
    apply Inv_exec_other; [exact H|intros id; discriminate|apply Runs_fetchStack].
  - destruct (_ && _); try discriminate.
    destruct (clear_disabled (ui w)) as [[]|]; try discriminate. intros [= <-].
    apply Inv_exec_other; [exact H|intros id; discriminate|apply Runs_clearStack].
  - destruct (is_live w && main_view_shown (ui w)
              && bool_decide (registrationId ∈ row_ids (stack (ui w)))); simpl;
      try discriminate.
    destruct (bool_decide (registrationId ∈ releasing (ui w))) eqn:E;
      simpl; try discriminate.
    intros [= <-]. apply bool_decide_eq_false in E.
    apply Inv_click_release; assumption.
  - destruct (_ && _); try discriminate.
    destruct (Bool.eqb checked (autoRefresh (ui w))); intros [= <-]; [exact H|].
    apply Inv_effect_run. apply (Inv_frame _ _ H); reflexivity.
  - destruct (_ && _); try discriminate.
    destruct (toast (ui w)); try discriminate. intros [= <-].
    apply (Inv_frame _ _ H); reflexivity.
  - destruct (pending w !! i) as [t|] eqn:Hi; try discriminate. intros [= <-].
    apply Inv_settle; assumption.
  - destruct (_ && _); try discriminate. intros [= <-].
    apply (Inv_frame _ _ H); reflexivity.
  - destruct (timeouts w !! i) as [[due []]|]; try discriminate.
    destruct (due <=? now w)%N; try discriminate. intros [= <-].
    apply (Inv_frame _ _ H); reflexivity.
  - destruct (interval w) as [due|]; try discriminate.
    destruct (due <=? now w)%N; try discriminate. intros [= <-].
    eapply Inv_frame; [|reflexivity..].
    apply Inv_exec_other; [exact H|intros id; discriminate|apply Runs_fetchStack].
Qed.

Lemma Inv_run (es : list Event) (w w' : World) : Inv w → run w es = Some w' → Inv w'.
Proof.
  revert w. induction es as [|e es IH]; simpl; intros w H.
  - intros [= <-]. exact H.
  - destruct (step w e) as [w1|] eqn:E; [|discriminate].
    apply IH. eapply Inv_step; eassumption.
Qed.

(** ** Driving the handlers through their requests *)

Ltac read_response :=
  repeat (simpl; unfold get, lift;
    match goal with
    | H : get_prop ?v _ = Value _ |- context [get_prop ?v ?n] =>
        rewrite (get_prop_field v _ n _ H)
    | |- context [match get_prop ?v ?n with _ => _ end] =>
        let E := fresh "E" in destruct (get_prop v n) eqn:E
    | |- context [match to_str ?v with _ => _ end] =>
        let E := fresh "E" in destruct (to_str v) eqn:E
    | |- context [if truthy ?s then _ else _] =>
        let T := fresh "T" in destruct (truthy s) eqn:T
    end).

Ltac settle r :=
  let response := fresh "response" in
  let reason := fresh "reason" in
  destruct r as [response|reason]; read_response.

Lemma drive_releases (id : string) (p : Async unit) :
  Releases id p →
  ∀ inputs w,
    match drive p inputs w with
    | Done _ w' => id ∉ releasing (ui w')
    | Failed _ _ => False
    | Blocked _ k _ => ∀ r, Releases id (k r)
    end.
Proof.
  induction 1 as [|e k He Hk IH|req k Hk IH]; intros inputs w; simpl.
  - intros Hin. apply elem_of_difference in Hin as (_ & Hne).
    apply Hne, elem_of_singleton. reflexivity.
  - apply IH.
  - destruct inputs as [|[r env] rest]; [exact Hk | apply IH].
Qed.

Lemma releaseTeam_returns (id : string) (w : World) r1 env1 r2 env2 rest :
  ∃ w', drive (releaseTeam id) ((r1, env1) :: (r2, env2) :: rest) w = Done tt w'.
Proof.
  unfold releaseTeam, fetchStack. settle r1; try (eexists; reflexivity).
  all: settle r2; eexists; reflexivity.
Qed.

(** C2.  Whatever way the release request settles ([r1]: any response,
    or a rejection), whatever way the re-fetch awaited after a
    successful release settles ([r2]), and whatever the rest of the page
    did to the state in the meantime ([env1], [env2]), [releaseTeam]
    returns and the identifier is not in the [releasing] set then. *)
Theorem releaseTeam_clears_marker (registrationId : string) (w : World)
    (r1 r2 : ApiResult) (env1 env2 : World → World)
    (rest : list (ApiResult * (World → World))) :
  ∃ w', drive (releaseTeam registrationId) ((r1, env1) :: (r2, env2) :: rest) w
        = Done tt w' ∧
        registrationId ∉ releasing (ui w').
Proof.
  destruct (releaseTeam_returns registrationId w r1 env1 r2 env2 rest) as (w' & Hrun).
  exists w'. split; [exact Hrun|].
  destruct (releaseTeam_shape registrationId) as (k & Hshape & Hk).
  rewrite Hshape in Hrun. simpl in Hrun.
  pose proof (drive_releases registrationId (k r1) (Hk r1) ((r2, env2) :: rest)
                (env1 (apply_effect (AddReleasing registrationId) w))) as Hd.
  cbn [apply_effect] in Hd. rewrite Hrun in Hd. exact Hd.
Qed.

(** ** The busy set *)

Lemma Inv_reachable (es : list Event) (w : World) :
  run init_world es = Some w → Inv w.
Proof. apply Inv_run, Inv_init. Qed.

(** C7.  In every state the page can reach, the [releasing] set holds
    exactly the teams whose [releaseTeam] call has started and has not
    returned yet (the call of the async function: after a successful
    release it also awaits the re-fetch), no team twice.  A team is in
    the set if and only if such a call is in flight, its "Release All"
    control is disabled and labelled "Releasing..." exactly then, and a
    click on an enabled control puts the team into the set at once. *)
Theorem busy_set_is_in_flight (es : list Event) (w : World) (registrationId : string) :
  run init_world es = Some w →
  (registrationId ∈ releasing (ui w) ↔ in_flight w registrationId) ∧
  (disabled (release_button (ui w) registrationId) = true ↔ in_flight w registrationId) ∧
  (label (release_button (ui w) registrationId) = "Releasing..." ↔
   in_flight w registrationId) ∧
  NoDup (release_ids (pending w)) ∧
  ∀ w', step w (ClickRelease registrationId) = Some w' →
        ¬ in_flight w registrationId ∧
        registrationId ∈ releasing (ui w') ∧ in_flight w' registrationId.
Proof.
  intros Hrun. pose proof (Inv_reachable es w Hrun) as HI.
  destruct HI as (Ht & Hs & Hn & Hu).
  split; [apply Hs|]. split; [|split; [|split; [exact Hn|]]].
  - simpl. rewrite bool_decide_eq_true. apply Hs.
  - simpl. rewrite <- (Hs registrationId).
    destruct (bool_decide (registrationId ∈ releasing (ui w))) eqn:E.
    + apply bool_decide_eq_true in E. tauto.
    + apply bool_decide_eq_false in E. split; [discriminate|contradiction].
  - intros w' Hstep.
    assert (HIw : Inv w) by (unfold Inv; auto).
    assert (HI' : Inv w') by (eapply Inv_step; [exact HIw|exact Hstep]).
    simpl in Hstep.
    destruct (is_live w && main_view_shown (ui w)
              && bool_decide (registrationId ∈ row_ids (stack (ui w))));
      simpl in Hstep; try discriminate.
    destruct (bool_decide (registrationId ∈ releasing (ui w))) eqn:E;
      simpl in Hstep; try discriminate.
    apply bool_decide_eq_false in E. injection Hstep as <-.
    destruct (Inv_click_release registrationId w HIw E) as (_ & Hin).
    split; [rewrite <- (Hs registrationId); exact E|]. split; [exact Hin|].
    destruct HI' as (_ & Hs' & _). apply Hs', Hin.
Qed.

Lemma busy_set_is_in_flight_witness :
  "T1" ∈ releasing (ui releasing_world) ↔ in_flight releasing_world "T1".
Proof.
  apply (busy_set_is_in_flight
           [Mount; Settle 0%nat (Fulfilled ok_stack); ClickRelease "T1"]
           releasing_world "T1").
  reflexivity.
Defined.

(** ** No exception leaves a handler *)

Lemma fetchStack_returns (w : World) r env (rest : list (ApiResult * (World → World))) :
  ∃ w', drive fetchStack ((r, env) :: rest) w = Done tt w' ∧
        loading (ui w') = false ∧
        (succeeded r = true ∨ toast_type (toast (ui w')) = Some Error).
Proof.
  destruct (succeeded r) eqn:H.
  - destruct (fetchStack_success r env rest w H) as (response & _ & ->).
    eexists. split; [reflexivity|]. split; [reflexivity|]. left. reflexivity.
  - destruct (fetchStack_failure r env rest w H) as (msg & log & ->).
    eexists. split; [reflexivity|]. split; [reflexivity|]. right. reflexivity.
Qed.

Lemma releaseTeam_toasts (id : string) (w : World) r1 env1
    (rest : list (ApiResult * (World → World))) :
  if released_ok r1 then
    ∃ k w1, drive (releaseTeam id) [(r1, env1)] w = Blocked stack_request k w1 ∧
            toast_type (toast (ui w1)) = Some Success
  else
    ∃ w', drive (releaseTeam id) ((r1, env1) :: rest) w = Done tt w' ∧
          toast_type (toast (ui w')) = Some Error.
Proof.
  unfold released_ok, succeeded, releaseTeam, fetchStack.
  settle r1.
  all: try (eexists; split; reflexivity).
  all: do 2 eexists; split; reflexivity.
Qed.

Lemma clearStack_returns (w : World) r1 env1 r2 env2
    (rest : list (ApiResult * (World → World))) :
  ∃ w', drive (clearStack true) ((r1, env1) :: (r2, env2) :: rest) w = Done tt w' ∧
        loading (ui w') = false.
Proof.
  unfold clearStack, fetchStack. settle r1; try (eexists; split; reflexivity).
  all: settle r2; eexists; split; reflexivity.
Qed.

Lemma clearStack_toasts (w : World) r1 env1 (rest : list (ApiResult * (World → World))) :
  if succeeded r1 then
    ∃ k w1, drive (clearStack true) [(r1, env1)] w = Blocked stack_request k w1 ∧
            toast_type (toast (ui w1)) = Some Success
  else
    ∃ w', drive (clearStack true) ((r1, env1) :: rest) w = Done tt w' ∧
          toast_type (toast (ui w')) = Some Error.
Proof.
  unfold succeeded, clearStack, fetchStack.
  settle r1.
  all: try (eexists; split; reflexivity).
  all: do 2 eexists; split; reflexivity.
Qed.

(** A release that reports success without a [result]: reading
    [response.result.released] throws inside the [try], the [catch]
    shows the error toast and the [finally] clears the marker. *)
Example release_without_result :
  ∃ w', drive (releaseTeam "T1") [(Fulfilled released_without_result, id)]
              releasing_world = Done tt w' ∧
        toast (ui w') = Some (mkToast "Error releasing team T1" Error) ∧
        ("T1" ∉ releasing (ui w')) ∧
        unhandled w' = [].
Proof.
  eexists. split; [reflexivity|]. split; [reflexivity|]. split; [|reflexivity].
  eapply bool_decide_unpack. vm_compute. exact I.
Qed.

(** ** Timers and the clock *)

Lemma apply_effect_frame (e : Effect) (w : World) :
  now (apply_effect e w) = now w ∧
  interval (apply_effect e w) = interval w ∧
  life (apply_effect e w) = life w ∧
  autoRefresh (ui (apply_effect e w)) = autoRefresh (ui w) ∧
  ∃ l, timeouts (apply_effect e w) = timeouts w ++ l ∧
       Forall (fun tc => (now w <=? fst tc)%N = true) l.
Proof.
  destruct e; simpl; repeat (split; [reflexivity|]);
    try (exists []; split; [symmetry; apply app_nil_r | constructor]).
  eexists. split; [reflexivity|]. constructor; [|constructor].
  simpl. apply N.leb_le. lia.
Qed.

Lemma exec_frame (o : Origin) (p : Async unit) (w : World) :
  now (exec o p w) = now w ∧
  interval (exec o p w) = interval w ∧
  life (exec o p w) = life w ∧
  autoRefresh (ui (exec o p w)) = autoRefresh (ui w) ∧
  ∃ l, timeouts (exec o p w) = timeouts w ++ l ∧
       Forall (fun tc => (now w <=? fst tc)%N = true) l.
Proof.
  revert w. induction p as [a|e|e k IH|req k _]; intros w.
  1,2,4: (unfold exec; simpl; repeat (split; [reflexivity|]);
          exists []; split; [symmetry; apply app_nil_r | constructor]).
  rewrite exec_do.
  destruct (apply_effect_frame e w) as (Hn & Hi & Hl & Ha & l1 & Ht1 & Hf1).
  destruct (IH (apply_effect e w)) as (Hn' & Hi' & Hl' & Ha' & l2 & Ht2 & Hf2).
  rewrite Hn', Hi', Hl', Ha', Hn, Hi, Hl, Ha. repeat (split; [reflexivity|]).
  exists (l1 ++ l2). rewrite Ht2, Ht1, app_assoc. split; [reflexivity|].
  apply Forall_app. split; [exact Hf1|]. rewrite Hn in Hf2. exact Hf2.
Qed.

Lemma on_time_spec (w : World) :
  on_time w = true ↔
  Forall (fun tc => (now w <=? fst tc)%N = true) (timeouts w) ∧
  ∀ due, interval w = Some due → (now w ≤ due)%N.
Proof.
  unfold on_time, no_timer_before. rewrite andb_true_iff, forallb_forall, Forall_forall.
  destruct (interval w) as [d|].
  - rewrite N.leb_le. split; intros (H1 & H2); (split; [exact H1|]).
    + intros due [= <-]. exact H2.
    + apply H2. reflexivity.
  - split; intros (H1 & H2); (split; [exact H1|]); [discriminate | reflexivity].
Qed.

Lemma on_time_exec (o : Origin) (p : Async unit) (w : World) :
  on_time w = true → on_time (exec o p w) = true.
Proof.
  rewrite !on_time_spec. intros (Ht & Hi).
  destruct (exec_frame o p w) as (Hn & Hi' & _ & _ & l & Hl & Hf).
  rewrite Hn, Hi', Hl. split; [|exact Hi]. apply Forall_app. auto.
Qed.

Lemma on_time_effect_run (w : World) : on_time w = true → on_time (effect_run w) = true.
Proof.
  intros H. unfold effect_run.
  pose proof (on_time_exec OFetch fetchStack w H) as H1.
  destruct (autoRefresh (ui (exec OFetch fetchStack w))); [|exact H1].
  apply on_time_spec in H1 as (Ht & _). apply on_time_spec. simpl.
  split; [exact Ht|]. intros due [= <-]. lia.
Qed.

Lemma Forall_delete_timeout (P : N * TimerCallback → Prop)
    (ts : list (N * TimerCallback)) (i : nat) :
  Forall P ts → Forall P (delete i ts).
Proof.
  rewrite !Forall_forall. intros H tc Hin. apply H.
  apply list_elem_of_In. apply list_elem_of_In in Hin.
  eapply list_elem_of_delete_inv. exact Hin.
Qed.

Lemma on_time_step (w w' : World) (e : Event) :
  on_time w = true → step w e = Some w' → on_time w' = true.
Proof.
  intros H. destruct e; simpl.
  - destruct (life w); try discriminate. intros [= <-].
    apply on_time_effect_run. exact H.
  - destruct (is_live w); try discriminate. intros [= <-].
    apply on_time_spec in H as (Ht & _). apply on_time_spec. simpl.
    split; [exact Ht|discriminate].
  - destruct (_ && _); try discriminate. intros [= <-]. apply on_time_exec, H.
  - destruct (_ && _); try discriminate.
    destruct (clear_disabled (ui w)) as [[]|]; try discriminate. intros [= <-].
    apply on_time_exec, H.
  - destruct (_ && _); try discriminate. intros [= <-]. apply on_time_exec, H.
  - destruct (_ && _); try discriminate.
    destruct (Bool.eqb checked (autoRefresh (ui w))); intros [= <-]; [exact H|].
    apply on_time_effect_run.
    apply on_time_spec in H as (Ht & _). apply on_time_spec. simpl.
    split; [exact Ht|discriminate].
  - destruct (_ && _); try discriminate.
    destruct (toast (ui w)); try discriminate. intros [= <-]. exact H.
  - destruct (pending w !! i) as [t|]; try discriminate. intros [= <-].
    apply on_time_exec. exact H.
  - destruct (0 <? dt)%N; simpl; try discriminate.
    destruct (no_timer_before (now w + dt) w) eqn:E; try discriminate.
    intros [= <-]. exact E.
  - destruct (timeouts w !! i) as [[due []]|]; try discriminate.
    destruct (due <=? now w)%N; try discriminate. intros [= <-].
    apply on_time_spec in H as (Ht & Hi). apply on_time_spec. simpl.
    split; [apply Forall_delete_timeout, Ht|exact Hi].
  - destruct (interval w) as [due|] eqn:Ei; try discriminate.
    destruct (due <=? now w)%N; try discriminate. intros [= <-].
    pose proof (on_time_exec OFetch fetchStack w H) as H1.
    apply on_time_spec in H as (_ & Hi). specialize (Hi due Ei).
    apply on_time_spec in H1 as (Ht & _). apply on_time_spec. simpl.
    split; [exact Ht|]. intros d [= <-]. lia.
Qed.

(** ** The polling effect *)

Lemma effect_run_requests (w : World) :
  requests (effect_run w) = requests w ++ [stack_request] ∧
  interval (effect_run w) =
    (if autoRefresh (ui w) then Some (now w + 3000)%N else interval w) ∧
  autoRefresh (ui (effect_run w)) = autoRefresh (ui w) ∧
  life (effect_run w) = life w.
Proof.
  unfold effect_run, requests, exec. simpl.
  destruct (autoRefresh (ui w)) eqn:E; simpl; rewrite ?E, map_app;
    repeat split; reflexivity.
Qed.

(** While polling is off, only switching it on arms the interval. *)
Lemma polling_off_step (w w' : World) (e : Event) :
  interval w = None → life w ≠ Fresh → starts_polling e = false →
  step w e = Some w' →
  interval w' = None ∧ life w' ≠ Fresh ∧ is_fire_interval e = false.
Proof.
  intros Hi Hl He. destruct e; simpl.
  - destruct (life w); try discriminate. contradiction.
  - destruct (is_live w); try discriminate. intros [= <-]. simpl. auto.
  - destruct (_ && _); try discriminate. intros [= <-].
    destruct (exec_frame OFetch fetchStack w) as (_ & -> & -> & _). auto.
  - destruct (_ && _); try discriminate.
    destruct (clear_disabled (ui w)) as [[]|]; try discriminate. intros [= <-].
    destruct (exec_frame OClear (clearStack confirmed) w) as (_ & -> & -> & _). auto.
  - destruct (_ && _); try discriminate. intros [= <-].
    destruct (exec_frame (ORelease registrationId) (releaseTeam registrationId) w)
      as (_ & -> & -> & _). auto.
  - destruct checked; [discriminate He|].
    destruct (_ && _); try discriminate.
    destruct (Bool.eqb false (autoRefresh (ui w))); intros [= <-]; [auto|].
    destruct (effect_run_requests
                (effect_cleanup (with_ui (set_autoRefresh false) w)))
      as (_ & -> & _ & ->). simpl. auto.
  - destruct (_ && _); try discriminate.
    destruct (toast (ui w)); try discriminate. intros [= <-]. simpl. auto.
  - destruct (pending w !! i) as [t|]; try discriminate. intros [= <-].
    destruct (exec_frame (origin t) (resume t r) (with_pending (delete i) w))
      as (_ & -> & -> & _). simpl. auto.
  - destruct (_ && _); try discriminate. intros [= <-]. simpl. auto.
  - destruct (timeouts w !! i) as [[due []]|]; try discriminate.
    destruct (due <=? now w)%N; try discriminate. intros [= <-]. simpl. auto.
  - rewrite Hi. discriminate.
Qed.

Lemma polling_off_run (es : list Event) (w w' : World) :
  interval w = None → life w ≠ Fresh →
  forallb (fun e => negb (starts_polling e)) es = true →
  run w es = Some w' →
  interval w' = None ∧ polls es = 0%N.
Proof.
  revert w. induction es as [|e es IH]; simpl; intros w Hi Hl Hes.
  - intros [= <-]. auto.
  - apply andb_true_iff in Hes as (He & Hes). apply negb_true_iff in He.
    destruct (step w e) as [w1|] eqn:E; [|discriminate]. intros Hrun.
    destruct (polling_off_step w w1 e Hi Hl He E) as (Hi1 & Hl1 & Hf).
    destruct (IH w1 Hi1 Hl1 Hes Hrun) as (Hi' & Hp).
    split; [exact Hi'|]. unfold polls in *. simpl. rewrite Hf. exact Hp.
Qed.

(** After the page is unmounted nothing can arm the interval. *)
Lemma unmounted_step (w w' : World) (e : Event) :
  interval w = None → life w = Gone → step w e = Some w' →
  interval w' = None ∧ life w' = Gone ∧ starts_polling e = false.
Proof.
  intros Hi Hl. destruct e; simpl; unfold is_live; rewrite ?Hl; simpl;
    try discriminate.
  - destruct (pending w !! i) as [t|]; try discriminate. intros [= <-].
    destruct (exec_frame (origin t) (resume t r) (with_pending (delete i) w))
      as (_ & -> & -> & _). simpl. auto.
  - destruct (_ && _); try discriminate. intros [= <-]. simpl. auto.
  - destruct (timeouts w !! i) as [[due []]|]; try discriminate.
    destruct (due <=? now w)%N; try discriminate. intros [= <-]. simpl. auto.
  - rewrite Hi. discriminate.
Qed.

Lemma unmounted_run (es : list Event) (w w' : World) :
  interval w = None → life w = Gone → run w es = Some w' →
  interval w' = None ∧ polls es = 0%N.
Proof.
  revert w. induction es as [|e es IH]; simpl; intros w Hi Hl.
  - intros [= <-]. auto.
  - destruct (step w e) as [w1|] eqn:E; [|discriminate]. intros Hrun.
    destruct (unmounted_step w w1 e Hi Hl E) as (Hi1 & Hl1 & He).
    assert (Hl0 : life w ≠ Fresh) by (rewrite Hl; discriminate).
    destruct (polling_off_step w w1 e Hi Hl0 He E) as (_ & _ & Hf).
    destruct (IH w1 Hi1 Hl1 Hrun) as (Hi' & Hp).
    split; [exact Hi'|]. unfold polls in *. simpl. rewrite Hf. exact Hp.
Qed.

(** While polling is on, the interval runs exactly when it is due,
    issues one fetch and is due again 3000 ms later. *)
Lemma polling_on_step (w w' : World) (e : Event) (due : N) :
  on_time w = true → interval w = Some due → autoRefresh (ui w) = true →
  life w = Live → stops_polling e = false → step w e = Some w' →
  autoRefresh (ui w') = true ∧ life w' = Live ∧
  if is_fire_interval e
  then now w = due ∧ interval w' = Some (due + 3000)%N ∧
       requests w' = requests w ++ [stack_request]
  else interval w' = Some due.
Proof.
  intros Hon Hi Ha Hl He. destruct e; simpl.
  - rewrite Hl. discriminate.
  - discriminate He.
  - destruct (_ && _); try discriminate. intros [= <-].
    destruct (exec_frame OFetch fetchStack w) as (_ & -> & -> & -> & _). auto.
  - destruct (_ && _); try discriminate.
    destruct (clear_disabled (ui w)) as [[]|]; try discriminate. intros [= <-].
    destruct (exec_frame OClear (clearStack confirmed) w) as (_ & -> & -> & -> & _).
    auto.
  - destruct (_ && _); try discriminate. intros [= <-].
    destruct (exec_frame (ORelease registrationId) (releaseTeam registrationId) w)
      as (_ & -> & -> & -> & _). auto.
  - destruct checked; [|discriminate He].
    destruct (_ && _); try discriminate. rewrite Ha. simpl. intros [= <-]. auto.
  - destruct (_ && _); try discriminate.
    destruct (toast (ui w)); try discriminate. intros [= <-]. simpl. auto.
  - destruct (pending w !! i) as [t|]; try discriminate. intros [= <-].
    destruct (exec_frame (origin t) (resume t r) (with_pending (delete i) w))
      as (_ & -> & -> & -> & _). simpl. auto.
  - destruct (_ && _); try discriminate. intros [= <-]. simpl. auto.
  - destruct (timeouts w !! i) as [[d []]|]; try discriminate.
    destruct (d <=? now w)%N; try discriminate. intros [= <-]. simpl. auto.
  - rewrite Hi. destruct (due <=? now w)%N eqn:E; try discriminate. intros [= <-].
    apply N.leb_le in E. apply on_time_spec in Hon as (_ & Hd).
    specialize (Hd due Hi). simpl.
    split; [exact Ha|]. split; [exact Hl|]. split; [lia|]. split; [reflexivity|].
    unfold requests. simpl. apply map_app.
Qed.

Lemma polling_on_run (es : list Event) (w w' : World) (due : N) :
  on_time w = true → interval w = Some due → autoRefresh (ui w) = true →
  life w = Live →
  forallb (fun e => negb (stops_polling e)) es = true →
  run w es = Some w' →
  interval w' = Some (due + 3000 * polls es)%N ∧
  (now w' ≤ due + 3000 * polls es)%N.
Proof.
  revert w due. induction es as [|e es IH]; simpl; intros w due Hon Hi Ha Hl Hes.
  - intros [= <-]. unfold polls. simpl. rewrite N.mul_0_r, N.add_0_r.
    split; [exact Hi|]. apply on_time_spec in Hon as (_ & Hd). apply Hd, Hi.
  - apply andb_true_iff in Hes as (He & Hes). apply negb_true_iff in He.
    destruct (step w e) as [w1|] eqn:E; [|discriminate]. intros Hrun.
    pose proof (on_time_step w w1 e Hon E) as Hon1.
    destruct (polling_on_step w w1 e due Hon Hi Ha Hl He E) as (Ha1 & Hl1 & Hcase).
    unfold polls in *. simpl. destruct (is_fire_interval e).
    + destruct Hcase as (_ & Hi1 & _).
      destruct (IH w1 (due + 3000)%N Hon1 Hi1 Ha1 Hl1 Hes Hrun) as (Hi' & Hn').
      simpl length. rewrite Nat2N.inj_succ.
      replace (due + 3000 * N.succ (N.of_nat (length (List.filter is_fire_interval es))))%N
        with (due + 3000 + 3000 * N.of_nat (length (List.filter is_fire_interval es)))%N
        by lia.
      auto.
    + apply (IH w1 due Hon1 Hcase Ha1 Hl1 Hes Hrun).
Qed.

(** C4 (as amended).  On the mounted page, switching auto-refresh off
    cancels the interval and issues one fetch of its own (the effect
    runs again), and from then on no automatic fetch happens until
    auto-refresh is switched on again.  Switching it on issues one fetch
    and arms the interval 3000 ms ahead; as long as it is neither
    switched off nor unmounted, the interval runs exactly at its due
    times, 3000 ms apart, each run issuing one fetch.  Unmounting
    cancels the interval for good. *)
Theorem auto_refresh_polling (w : World) :
  is_live w = true → main_view_shown (ui w) = true → on_time w = true →
  (if autoRefresh (ui w) then
     ∃ w', step w (ToggleAutoRefresh false) = Some w' ∧
           autoRefresh (ui w') = false ∧ interval w' = None ∧
           requests w' = requests w ++ [stack_request] ∧
           ∀ es w'', forallb (fun e => negb (starts_polling e)) es = true →
                     run w' es = Some w'' →
                     interval w'' = None ∧ polls es = 0%N
   else
     ∃ w', step w (ToggleAutoRefresh true) = Some w' ∧
           autoRefresh (ui w') = true ∧ interval w' = Some (now w + 3000)%N ∧
           requests w' = requests w ++ [stack_request] ∧
           ∀ es w'', forallb (fun e => negb (stops_polling e)) es = true →
                     run w' es = Some w'' →
                     interval w'' = Some (now w + 3000 + 3000 * polls es)%N ∧
                     (now w'' ≤ now w + 3000 + 3000 * polls es)%N) ∧
  (∀ w0 w1 due, on_time w0 = true → interval w0 = Some due →
                step w0 FireInterval = Some w1 →
                now w0 = due ∧ interval w1 = Some (due + 3000)%N ∧
                requests w1 = requests w0 ++ [stack_request]) ∧
  ∃ w', step w Unmount = Some w' ∧ interval w' = None ∧
        ∀ es w'', run w' es = Some w'' → interval w'' = None ∧ polls es = 0%N.
Proof.
  intros Hlive Hmain Hon.
  assert (Hl : life w = Live).
  { unfold is_live in Hlive. destruct (life w); try discriminate. reflexivity. }
  split; [|split].
  - destruct (autoRefresh (ui w)) eqn:Ha.
    + set (w0 := effect_cleanup (with_ui (set_autoRefresh false) w)).
      exists (effect_run w0).
      split; [simpl; rewrite Hlive, Hmain, Ha; reflexivity|].
      destruct (effect_run_requests w0) as (Hr & Hi & Ha' & Hl').
      rewrite Ha', Hi, Hr. subst w0. simpl.
      split; [reflexivity|]. split; [reflexivity|]. split; [reflexivity|].
      intros es w'' Hes Hrun.
      eapply polling_off_run; [| |exact Hes|exact Hrun].
      * rewrite Hi. reflexivity.
      * rewrite Hl'. simpl. rewrite Hl. discriminate.
    + set (w0 := effect_cleanup (with_ui (set_autoRefresh true) w)).
      exists (effect_run w0).
      split; [simpl; rewrite Hlive, Hmain, Ha; reflexivity|].
      destruct (effect_run_requests w0) as (Hr & Hi & Ha' & Hl').
      rewrite Ha', Hi, Hr. subst w0. simpl.
      split; [reflexivity|]. split; [reflexivity|]. split; [reflexivity|].
      intros es w'' Hes Hrun.
      eapply polling_on_run; [| | | |exact Hes|exact Hrun].
      * apply on_time_effect_run.
        apply on_time_spec in Hon as (Ht & _). apply on_time_spec. simpl.
        split; [exact Ht|discriminate].
      * rewrite Hi. reflexivity.
      * rewrite Ha'. reflexivity.
      * rewrite Hl'. exact Hl.
  - intros w0 w1 due Hon0 Hi0. simpl. rewrite Hi0.
    destruct (due <=? now w0)%N eqn:E; try discriminate. intros [= <-].
    apply N.leb_le in E. apply on_time_spec in Hon0 as (_ & Hd).
    specialize (Hd due Hi0). simpl. split; [lia|]. split; [reflexivity|].
    unfold requests. simpl. apply map_app.
  - exists (with_life Gone (effect_cleanup w)). simpl. rewrite Hlive.
    split; [reflexivity|]. split; [reflexivity|].
    intros es w'' Hrun. eapply unmounted_run; [| |exact Hrun]; reflexivity.
Qed.

Lemma auto_refresh_polling_witness :
  ∃ w', step loaded_world (ToggleAutoRefresh false) = Some w' ∧
        interval w' = None ∧
        requests w' = requests loaded_world ++ [stack_request].
Proof.
  destruct (auto_refresh_polling loaded_world eq_refl eq_refl eq_refl)
    as ((w' & Hstep & _ & Hi & Hr & _) & _).
  exists w'. split; [exact Hstep|]. split; [exact Hi|exact Hr].
Defined.

(** C4, counterexample: on the loaded page, with auto-refresh on and no
    request in flight, switching auto-refresh off sends a request for
    the stack. *)
Lemma toggle_off_fetches_once : ¬ toggle_off_issues_no_fetch.
Proof.
  intros claim.
  specialize (claim [Mount; Settle 0%nat (Fulfilled ok_stack)] loaded_world
                (effect_run (effect_cleanup
                               (with_ui (set_autoRefresh false) loaded_world)))
                eq_refl eq_refl eq_refl).
  discriminate claim.
Qed.

(** ** Toasts *)

Lemma exec_timeouts (o : Origin) (p : Async unit) (w : World)
    (tc : N * TimerCallback) :
  tc ∈ timeouts w → tc ∈ timeouts (exec o p w).
Proof.
  intros H. destruct (exec_frame o p w) as (_ & _ & _ & _ & l & -> & _).
  apply elem_of_app. left. exact H.
Qed.

Lemma elem_of_delete_or {A : Type} (l : list A) (i : nat) (x y : A) :
  l !! i = Some x → y ∈ l → y = x ∨ y ∈ delete i l.
Proof.
  intros Hi Hy. rewrite <- (take_drop_middle l i x Hi) in Hy.
  rewrite delete_take_drop. rewrite elem_of_app, elem_of_cons in Hy.
  rewrite elem_of_app. tauto.
Qed.

Lemma effect_run_timeouts (w : World) : timeouts (effect_run w) = timeouts w.
Proof.
  unfold effect_run, exec. simpl. destruct (autoRefresh (ui w)); reflexivity.
Qed.

(** A pending timeout stays pending until it runs, and it runs at its
    due time; whatever toast is on display is cleared then. *)
Lemma timeout_step (w w' : World) (e : Event) (tc : N * TimerCallback) :
  on_time w = true → tc ∈ timeouts w → step w e = Some w' →
  tc ∈ timeouts w' ∨ (now w' = fst tc ∧ toast (ui w') = None).
Proof.
  intros Hon Htc. destruct e; simpl.
  - destruct (life w); try discriminate. intros [= <-]. left.
    rewrite effect_run_timeouts. exact Htc.
  - destruct (is_live w); try discriminate. intros [= <-]. left. exact Htc.
  - destruct (_ && _); try discriminate. intros [= <-]. left.
    apply exec_timeouts, Htc.
  - destruct (_ && _); try discriminate.
    destruct (clear_disabled (ui w)) as [[]|]; try discriminate. intros [= <-].
    left. apply exec_timeouts, Htc.
  - destruct (_ && _); try discriminate. intros [= <-]. left.
    apply exec_timeouts, Htc.
  - destruct (_ && _); try discriminate.
    destruct (Bool.eqb checked (autoRefresh (ui w))); intros [= <-]; left;
      [exact Htc|].
    rewrite effect_run_timeouts. exact Htc.
  - destruct (_ && _); try discriminate.
    destruct (toast (ui w)); try discriminate. intros [= <-]. left. exact Htc.
  - destruct (pending w !! i) as [t|]; try discriminate. intros [= <-]. left.
    apply exec_timeouts, Htc.
  - destruct (_ && _); try discriminate. intros [= <-]. left. exact Htc.
  - destruct (timeouts w !! i) as [[due []]|] eqn:Ei; try discriminate.
    destruct (due <=? now w)%N eqn:E; try discriminate. intros [= <-]. simpl.
    destruct (elem_of_delete_or _ _ _ _ Ei Htc) as [->|Hin]; [right|left; exact Hin].
    split; [|reflexivity]. simpl. apply N.leb_le in E.
    apply on_time_spec in Hon as (Ht & _). rewrite Forall_forall in Ht.
    apply list_elem_of_In in Htc. specialize (Ht _ Htc). simpl in Ht.
    apply N.leb_le in Ht. lia.
  - destruct (interval w) as [due|]; try discriminate.
    destruct (due <=? now w)%N; try discriminate. intros [= <-]. left.
    exact Htc.
Qed.

Lemma timeout_run (es : list Event) (w w' : World) (tc : N * TimerCallback) :
  on_time w = true → tc ∈ timeouts w → run w es = Some w' →
  tc ∈ timeouts w' ∨
  ∃ es1 es2 wm, es = es1 ++ es2 ∧ run w es1 = Some wm ∧
                now wm = fst tc ∧ toast (ui wm) = None.
Proof.
  revert w. induction es as [|e es IH]; simpl; intros w Hon Htc.
  - intros [= <-]. left. exact Htc.
  - destruct (step w e) as [w1|] eqn:E; [|discriminate]. intros Hrun.
    destruct (timeout_step w w1 e tc Hon Htc E) as [Hin|(Hnow & Hnone)].
    + destruct (IH w1 (on_time_step w w1 e Hon E) Hin Hrun)
        as [Hin'|(es1 & es2 & wm & -> & Hrun1 & Hnow & Hnone)]; [left; exact Hin'|].
      right. exists (e :: es1), es2, wm. simpl. rewrite E. auto.
    + right. exists [e], es, w1. simpl. rewrite E. auto.
Qed.

Lemma run_on_time (es : list Event) (w w' : World) :
  on_time w = true → run w es = Some w' → on_time w' = true.
Proof.
  revert w. induction es as [|e es IH]; simpl; intros w Hon.
  - intros [= <-]. exact Hon.
  - destruct (step w e) as [w1|] eqn:E; [|discriminate].
    apply IH. eapply on_time_step; eassumption.
Qed.

Lemma reachable_on_time (es : list Event) (w : World) :
  run init_world es = Some w → on_time w = true.
Proof. apply run_on_time. reflexivity. Qed.

Lemma leaves_toast_step (w w' : World) (e : Event) :
  leaves_toast e = true → step w e = Some w' →
  toast (ui w') = toast (ui w) ∧ timeouts w' = timeouts w.
Proof.
  destruct e; simpl; try discriminate; intros _.
  - destruct (life w); try discriminate. intros [= <-].
    unfold effect_run, exec. simpl. destruct (autoRefresh (ui w)); auto.
  - destruct (is_live w); try discriminate. intros [= <-]. auto.
  - destruct (_ && _); try discriminate. intros [= <-]. auto.
  - destruct (_ && _); try discriminate.
    destruct (clear_disabled (ui w)) as [[]|]; try discriminate. intros [= <-].
    destruct confirmed; auto.
  - destruct (_ && _); try discriminate. intros [= <-]. auto.
  - destruct (_ && _); try discriminate.
    destruct (Bool.eqb checked (autoRefresh (ui w))); intros [= <-]; [auto|].
    unfold effect_run, exec. simpl. destruct checked; auto.
  - destruct (_ && _); try discriminate. intros [= <-]. auto.
  - destruct (interval w) as [due|]; try discriminate.
    destruct (due <=? now w)%N; try discriminate. intros [= <-]. auto.
Qed.

Lemma leaves_toast_run (es : list Event) (w w' : World) :
  forallb leaves_toast es = true → run w es = Some w' →
  toast (ui w') = toast (ui w) ∧ timeouts w' = timeouts w.
Proof.
  revert w. induction es as [|e es IH]; simpl; intros w Hes.
  - intros [= <-]. auto.
  - apply andb_true_iff in Hes as (He & Hes).
    destruct (step w e) as [w1|] eqn:E; [|discriminate]. intros Hrun.
    destruct (leaves_toast_step w w1 e He E) as (<- & <-).
    apply IH; assumption.
Qed.

(** C8 (as amended).  Every call of [showToast] displays the toast and
    arms a timer for exactly 5000 ms later, which clears whatever toast
    is on display when it runs; no timer is ever cancelled.  So the
    toast state is cleared 5000 ms after the call at the latest: the
    clock cannot pass that time before a timer has run at it.  And as
    long as nothing else touches the toast (no request settles, no
    other timeout runs, the toast is not closed) the toast stays on
    display and its timer can run only when the full 5000 ms have
    passed, clearing it. *)
Theorem toast_auto_dismissal (w : World) (msg : string) (ty : option ToastType) :
  on_time w = true →
  ∃ w1, drive (showToast msg ty) [] w = Done tt w1 ∧
        toast (ui w1) = Some (mkToast msg (default Info ty)) ∧
        timeouts w1 = timeouts w ++ [((now w + 5000)%N, ClearToast)] ∧
        now w1 = now w ∧
        (∀ es w2, run w1 es = Some w2 → (now w + 5000 < now w2)%N →
           ∃ es1 es2 wm, es = es1 ++ es2 ∧ run w1 es1 = Some wm ∧
                         now wm = (now w + 5000)%N ∧ toast (ui wm) = None) ∧
        (∀ es w2, forallb leaves_toast es = true → run w1 es = Some w2 →
           toast (ui w2) = Some (mkToast msg (default Info ty)) ∧
           (now w2 ≤ now w + 5000)%N ∧
           ((now w2 < now w + 5000)%N →
            step w2 (FireTimeout (length (timeouts w))) = None) ∧
           (now w2 = (now w + 5000)%N →
            ∃ w3, step w2 (FireTimeout (length (timeouts w))) = Some w3 ∧
                  toast (ui w3) = None)).
Proof.
  intros Hon.
  set (w1 := with_timeouts (fun ts => ts ++ [((now w + 5000)%N, ClearToast)])
               (with_ui (set_toast (Some (mkToast msg (default Info ty)))) w)).
  assert (Hon1 : on_time w1 = true).
  { apply on_time_spec in Hon as (Ht & Hi). apply on_time_spec. subst w1. simpl.
    split; [|exact Hi]. apply Forall_app. split; [exact Ht|].
    constructor; [|constructor]. simpl. apply N.leb_le. lia. }
  assert (Hin : ((now w + 5000)%N, ClearToast) ∈ timeouts w1).
  { subst w1. simpl. apply elem_of_app. right. apply list_elem_of_singleton.
    reflexivity. }
  exists w1. split; [reflexivity|]. split; [reflexivity|]. split; [reflexivity|].
  split; [reflexivity|]. split.
  - intros es w2 Hrun Hlate.
    destruct (timeout_run es w1 w2 _ Hon1 Hin Hrun) as [Hstill|Hfired].
    + exfalso. pose proof (run_on_time es w1 w2 Hon1 Hrun) as Hon2.
      apply on_time_spec in Hon2 as (Ht & _). rewrite Forall_forall in Ht.
      apply list_elem_of_In in Hstill. specialize (Ht _ Hstill). simpl in Ht.
      apply N.leb_le in Ht. lia.
    + exact Hfired.
  - intros es w2 Hes Hrun.
    destruct (leaves_toast_run es w1 w2 Hes Hrun) as (Htoast & Htimers).
    pose proof (run_on_time es w1 w2 Hon1 Hrun) as Hon2.
    assert (Hidx : timeouts w2 !! length (timeouts w)
                   = Some ((now w + 5000)%N, ClearToast)).
    { rewrite Htimers. subst w1. simpl. apply list_lookup_middle. reflexivity. }
    assert (Hle : (now w2 ≤ now w + 5000)%N).
    { apply on_time_spec in Hon2 as (Ht & _). rewrite Forall_forall in Ht.
      apply list_elem_of_lookup_2, list_elem_of_In in Hidx.
      specialize (Ht _ Hidx). simpl in Ht. apply N.leb_le in Ht. exact Ht. }
    split; [rewrite Htoast; reflexivity|]. split; [exact Hle|]. split.
    + intros Hlt. simpl. rewrite Hidx.
      destruct (now w + 5000 <=? now w2)%N eqn:E; [|reflexivity].
      apply N.leb_le in E. lia.
    + intros Heq. simpl. rewrite Hidx, Heq, N.leb_refl.
      eexists. split; reflexivity.
Qed.

Lemma toast_auto_dismissal_witness :
  ∃ w1, drive (showToast "Stack cleared successfully" (Some Success)) [] loaded_world
        = Done tt w1 ∧
        timeouts w1 = [(5000%N, ClearToast)].
Proof.
  destruct (toast_auto_dismissal loaded_world "Stack cleared successfully"
              (Some Success) eq_refl) as (w1 & Hrun & _ & Htimers & _).
  exists w1. split; [exact Hrun|exact Htimers].
Defined.

(** A toast that nothing disturbs: a refused clear shows an error toast
    at time 0, it is still on display when 5000 ms have passed (a poll
    ran meanwhile), and its timer clears it then. *)
Example toast_full_life :
  option_map (fun w => (toast (ui w), now w))
    (run loaded_world [ClickClear true; Settle 0%nat (Fulfilled refused)])
  = Some (Some (mkToast "Failed to clear stack: database unavailable" Error), 0%N) ∧
  option_map (fun w => (toast (ui w), now w))
    (run loaded_world [ClickClear true; Settle 0%nat (Fulfilled refused);
                       Tick 3000; FireInterval; Tick 2000])
  = Some (Some (mkToast "Failed to clear stack: database unavailable" Error), 5000%N) ∧
  option_map (fun w => (toast (ui w), now w))
    (run loaded_world [ClickClear true; Settle 0%nat (Fulfilled refused);
                       Tick 3000; FireInterval; Tick 2000; FireTimeout 0%nat])
  = Some (None, 5000%N).
Proof. vm_compute. repeat split; reflexivity. Qed.

(** C8, counterexample: the backend is down.  The first fetch fails at
    time 0 and shows an error toast; the poll of time 3000 fails too and
    shows a second one; at time 5000 the timer of the first toast runs
    and clears the second, 2000 ms after it appeared. *)
Lemma second_toast_cut_short : ¬ every_toast_lasts_5000.
Proof.
  intros claim.
  set (w := default init_world
              (run init_world [Mount; Settle 0%nat down; Tick 3000; FireInterval])).
  set (w1 := default init_world (step w (Settle 0%nat down))).
  set (w2 := default init_world (run w1 [Tick 2000; FireTimeout 0%nat])).
  assert (H : toast (ui w2) = Some (mkToast "Error connecting to server" Error)).
  { apply (claim [Mount; Settle 0%nat down; Tick 3000; FireInterval]
                 [Tick 2000; FireTimeout 0%nat] w w1 w2 (Settle 0%nat down));
      vm_compute; reflexivity. }
  vm_compute in H. discriminate H.
Qed.

(** * Further properties *)

(** ** The list of teams *)

Lemma render_row_cards (s : State) (item : JsVal) (cards : list JsVal) :
  get_prop item "cards" = Value (JArr cards) →
  render_row s item =
  Value {| row_registrationId := field item "registrationId";
           row_cardCount := field item "cardCount";
           row_badges := take 3 cards;
           row_more := if 3 <? Z.of_nat (length cards)
                       then Some (Z.of_nat (length cards) - 3) else None;
           row_button := match field item "registrationId" with
                         | JStr id => release_button s id
                         | _ => mkButton false "Release All"
                         end |}.
Proof.
  intros H. unfold render_row.
  rewrite (get_prop_field _ _ "registrationId" _ H).
  rewrite (get_prop_field _ _ "cardCount" _ H). rewrite H. reflexivity.
Qed.

Lemma render_row_no_cards (s : State) (item : JsVal) :
  has_cards item = false → render_row s item = Raise TypeError.
Proof.
  unfold has_cards, render_row.
  destruct (get_prop item "cards") as [c|e] eqn:E.
  - rewrite (get_prop_field _ _ "registrationId" _ E).
    rewrite (get_prop_field _ _ "cardCount" _ E).
    destruct c; try reflexivity. discriminate.
  - intros _. destruct item; simpl in *; try discriminate; try reflexivity;
      destruct (String.eqb _ _); discriminate.
Qed.

(** X1.  A row shows at most three card badges, the first cards of the
    entry in their order, and a "+n more" badge exactly when the entry
    has more than three cards, [n] being the number of cards left out:
    badges and [n] add up to the number of cards.  The count in "cards
    stacked" is the entry's [cardCount] as sent, whatever the length of
    [cards]. *)
Theorem row_badges_and_more (s : State) (item : JsVal) (cards : list JsVal) :
  get_prop item "cards" = Value (JArr cards) →
  ∃ row, render_row s item = Value row ∧
         row_badges row = take 3 cards ∧
         length (row_badges row) = Nat.min 3 (length cards) ∧
         (row_more row = None ↔ (length cards ≤ 3)%nat) ∧
         Z.of_nat (length (row_badges row)) + default 0 (row_more row)
           = Z.of_nat (length cards) ∧
         row_registrationId row = field item "registrationId" ∧
         row_cardCount row = field item "cardCount".
Proof.
  intros H. rewrite (render_row_cards s item cards H).
  eexists. split; [reflexivity|].
  cbn [row_badges row_more row_registrationId row_cardCount].
  split; [reflexivity|]. split; [apply length_take|].
  rewrite length_take.
  destruct (3 <? Z.of_nat (length cards)) eqn:E.
  - apply Z.ltb_lt in E. split; [|split; [unfold default, from_option, id; lia|auto]].
    split; [discriminate|lia].
  - apply Z.ltb_ge in E. split; [|split; [unfold default, from_option, id; lia|auto]].
    split; [lia|reflexivity].
Qed.

Lemma row_badges_and_more_witness :
  ∃ row, render_row initial_state
           (JObj [("registrationId", JStr "T1"); ("cardCount", JNum 4);
                  ("cards", JArr [JStr "C1"; JStr "C2"; JStr "C3"; JStr "C4"])])
         = Value row ∧
         row_badges row = [JStr "C1"; JStr "C2"; JStr "C3"] ∧
         row_more row = Some 1.
Proof.
  destruct (row_badges_and_more initial_state
              (JObj [("registrationId", JStr "T1"); ("cardCount", JNum 4);
                     ("cards", JArr [JStr "C1"; JStr "C2"; JStr "C3"; JStr "C4"])])
              [JStr "C1"; JStr "C2"; JStr "C3"; JStr "C4"] eq_refl)
    as (row & Hrow & Hbadges & _).
  exists row. split; [exact Hrow|]. split; [exact Hbadges|].
  injection Hrow as <-. reflexivity.
Defined.

Lemma render_rows_spec (s : State) (items : list JsVal) :
  if forallb has_cards items
  then ∃ rows, render_rows s items = Value rows ∧
               map row_registrationId rows
               = map (fun item => field item "registrationId") items
  else render_rows s items = Raise TypeError.
Proof.
  induction items as [|item rest IH]; simpl.
  - exists []. auto.
  - destruct (has_cards item) eqn:E; simpl.
    + assert (∃ cards, get_prop item "cards" = Value (JArr cards)) as (cards & Hc).
      { unfold has_cards in E.
        destruct (get_prop item "cards") as [[]|]; try discriminate.
        eexists. reflexivity. }
      rewrite (render_row_cards s item cards Hc).
      destruct (forallb has_cards rest).
      * destruct IH as (rows & -> & Hids). eexists. split; [reflexivity|].
        simpl. rewrite Hids. reflexivity.
      * rewrite IH. reflexivity.
    + rewrite (render_row_no_cards s item E). reflexivity.
Qed.

(** X3.  For a stack that is an array: the empty array shows the "No
    Cards" card; an array whose entries all have a [cards] array shows
    one row per entry, in the order of the response; and a single entry
    without one makes the whole list throw a TypeError. *)
Theorem stack_section_of_array (s : State) (items : list JsVal) :
  stack s = JArr items →
  match items with
  | [] => stack_section s = Value EmptyCard
  | _ :: _ =>
      if forallb has_cards items
      then ∃ rows, stack_section s = Value (TeamRows rows) ∧
                   map row_registrationId rows
                   = map (fun item => field item "registrationId") items
      else stack_section s = Raise TypeError
  end.
Proof.
  intros H. destruct items as [|item rest].
  - unfold stack_section. rewrite H. reflexivity.
  - assert (Hsec : stack_section s =
                   match render_rows s (item :: rest) with
                   | Raise e => Raise e
                   | Value rows => Value (TeamRows rows)
                   end).
    { unfold stack_section. rewrite H. reflexivity. }
    rewrite Hsec. pose proof (render_rows_spec s (item :: rest)) as Hrows.
    destruct (forallb has_cards (item :: rest)).
    + destruct Hrows as (rows & -> & Hids). exists rows. auto.
    + rewrite Hrows. reflexivity.
Qed.

Lemma stack_section_of_array_witness :
  ∃ rows, stack_section (set_stack (field ok_stack "stack") initial_state)
          = Value (TeamRows rows) ∧
          map row_registrationId rows = [JStr "T1"].
Proof.
  exact (stack_section_of_array (set_stack (field ok_stack "stack") initial_state)
           _ eq_refl).
Defined.

(** ** An invariant rule for the React state *)

Lemma exec_runs (ok : Effect → Prop) (o : Origin) (p : Async unit) (w : World) :
  Runs ok false p →
  pending (exec o p w) = pending w ∨
  ∃ t, pending (exec o p w) = pending w ++ [t] ∧ origin t = o ∧
       ∀ r, Runs ok false (resume t r).
Proof.
  intros H. revert w. induction H as [a|e Ht|e k He Hk IH|req k Hk IH]; intros w.
  - left. reflexivity.
  - discriminate.
  - rewrite exec_do. destruct (IH (apply_effect e w)) as [Hp|(t & Hp & Ho & Hr)].
    + left. rewrite Hp. destruct e; reflexivity.
    + right. exists t. rewrite Hp. split; [destruct e; reflexivity|auto].
  - right. eexists. split; [reflexivity|]. split; [reflexivity|exact Hk].
Qed.

Section StateInvariant.
Context (ok : Effect → Prop) (P : State → Prop).
Hypothesis ok_effect : ∀ e w, ok e → P (ui w) → P (ui (apply_effect e w)).
Hypothesis ok_fetchStack : Runs ok false fetchStack.
Hypothesis ok_releaseTeam : ∀ id, Runs ok false (releaseTeam id).
Hypothesis ok_clearStack : ∀ confirmed, Runs ok false (clearStack confirmed).
Hypothesis ok_close : ok (SetToast None).
Hypothesis P_toggle : ∀ s checked, P s → P (set_autoRefresh checked s).

Lemma exec_state (o : Origin) (p : Async unit) (w : World) :
  Runs ok false p → P (ui w) → P (ui (exec o p w)).
Proof.
  intros H. revert w. induction H as [a|e Ht|e k He Hk IH|req k Hk IH]; intros w HP.
  - exact HP.
  - discriminate.
  - rewrite exec_do. apply IH, ok_effect; assumption.
  - exact HP.
Qed.

Lemma StateInv_exec (o : Origin) (p : Async unit) (w : World) :
  Runs ok false p → StateInv ok P w → StateInv ok P (exec o p w).
Proof.
  intros Hp (HP & Hts). split; [apply exec_state; assumption|].
  destruct (exec_runs ok o p w Hp) as [->|(t & -> & _ & Ht)]; [exact Hts|].
  apply Forall_app. split; [exact Hts|]. constructor; [exact Ht|constructor].
Qed.

Lemma StateInv_frame (w w' : World) :
  StateInv ok P w → ui w' = ui w → pending w' = pending w → StateInv ok P w'.
Proof. unfold StateInv. intros H -> ->. exact H. Qed.

Lemma StateInv_effect_run (w : World) : StateInv ok P w → StateInv ok P (effect_run w).
Proof.
  intros H. unfold effect_run.
  pose proof (StateInv_exec OFetch fetchStack w ok_fetchStack H) as H1.
  destruct (autoRefresh (ui (exec OFetch fetchStack w))); [|exact H1].
  apply (StateInv_frame _ _ H1); reflexivity.
Qed.

Lemma StateInv_step (w w' : World) (e : Event) :
  StateInv ok P w → step w e = Some w' → StateInv ok P w'.
Proof.
  intros H. destruct e; simpl.
  - destruct (life w); try discriminate. intros [= <-].
    apply StateInv_effect_run. apply (StateInv_frame _ _ H); reflexivity.
  - destruct (is_live w); try discriminate. intros [= <-].
    apply (StateInv_frame _ _ H); reflexivity.
  - destruct (_ && _); try discriminate. intros [= <-].
    apply StateInv_exec; assumption.
  - destruct (_ && _); try discriminate.
    destruct (clear_disabled (ui w)) as [[]|]; try discriminate. intros [= <-].
    apply StateInv_exec; [apply ok_clearStack|assumption].
  - destruct (_ && _); try discriminate. intros [= <-].
    apply StateInv_exec; [apply ok_releaseTeam|assumption].
  - destruct (_ && _); try discriminate.
    destruct (Bool.eqb checked (autoRefresh (ui w))); intros [= <-]; [exact H|].
    apply StateInv_effect_run. destruct H as (HP & Hts). split; [|exact Hts].
    simpl. apply P_toggle, HP.
  - destruct (_ && _); try discriminate.
    destruct (toast (ui w)); try discriminate. intros [= <-].
    destruct H as (HP & Hts). split; [|exact Hts].
    apply (ok_effect (SetToast None) w); assumption.
  - destruct (pending w !! i) as [t|] eqn:Hi; try discriminate. intros [= <-].
    destruct H as (HP & Hts). apply StateInv_exec.
    + rewrite Forall_forall in Hts. apply Hts, list_elem_of_In.
      eapply list_elem_of_lookup_2. exact Hi.
    + split; [exact HP|]. simpl. rewrite Forall_forall in *.
      intros x Hx. apply Hts. apply list_elem_of_In. apply list_elem_of_In in Hx.
      eapply list_elem_of_delete_inv. exact Hx.
  - destruct (_ && _); try discriminate. intros [= <-].
    apply (StateInv_frame _ _ H); reflexivity.
  - destruct (timeouts w !! i) as [[due []]|]; try discriminate.
    destruct (due <=? now w)%N; try discriminate. intros [= <-].
    destruct H as (HP & Hts). split; [|exact Hts].
    apply (ok_effect (SetToast None) (with_timeouts (delete i) w)); assumption.
  - destruct (interval w) as [due|]; try discriminate.
    destruct (due <=? now w)%N; try discriminate. intros [= <-].
    eapply StateInv_frame; [|reflexivity..].
    apply StateInv_exec; assumption.
Qed.

(** Whatever the three handlers keep true of the React state, by the
    effects they perform, holds in every state the page can reach. *)
Lemma state_invariant (es : list Event) (w : World) :
  P initial_state → run init_world es = Some w → P (ui w).
Proof.
  intros Hinit Hrun.
  assert (H : StateInv ok P init_world) by (split; [exact Hinit|constructor]).
  revert Hrun H. generalize init_world. revert w.
  induction es as [|e es IH]; simpl; intros w w0.
  - intros [= <-] (HP & _). exact HP.
  - destruct (step w0 e) as [w1|] eqn:E; [|discriminate].
    intros Hrun H. apply (IH w w1 Hrun). eapply StateInv_step; eassumption.
Qed.
End StateInvariant.

Lemma js_or_truthy (a b : JsVal) : truthy b = true → truthy (js_or a b) = true.
Proof. unfold js_or. destruct (truthy a) eqn:E; auto. Qed.

Ltac runs_with tac :=
  repeat first
    [ apply Runs_finally
    | apply Runs_try_catch; [|intros ?]
    | apply Runs_bind; [|intros ?]
    | apply Runs_get
    | apply Runs_lift
    | apply Runs_await_api
    | apply Runs_effect; tac
    | apply Runs_weaken; apply Runs_effect; tac
    | apply Runs_showToast; tac
    | match goal with |- Runs _ _ (if ?b then _ else _) => destruct b end ].

Lemma stores_truthy_fetchStack : Runs stores_truthy false fetchStack.
Proof.
  unfold fetchStack, setStack, setStats, setLoading, console_error.
  runs_with ltac:(first [exact I | apply js_or_truthy; reflexivity]).
Qed.

Lemma stores_truthy_releaseTeam (id : string) : Runs stores_truthy false (releaseTeam id).
Proof.
  unfold releaseTeam, console_error.
  runs_with ltac:(first [exact I | apply js_or_truthy; reflexivity]).
Qed.

Lemma stores_truthy_clearStack (confirmed : bool) :
  Runs stores_truthy false (clearStack confirmed).
Proof.
  unfold clearStack, setLoading, console_error.
  destruct (negb confirmed); [constructor|].
  runs_with ltac:(first [exact I | apply js_or_truthy; reflexivity]).
Qed.

(** X4.  In every state the page can reach, the stack and the stats it
    holds are truthy values (a response's own, or the [[]] and zero
    defaults), so the guards of the page never throw: the loader test,
    the two statistics and the [disabled] test of "Clear All Stack" all
    evaluate to a value. *)
Theorem guards_never_throw (es : list Event) (w : World) :
  run init_world es = Some w →
  data_truthy (ui w) ∧
  (∃ b, shows_loader (ui w) = Value b) ∧
  (∃ v, displayed_totalTeams (ui w) = Value v) ∧
  (∃ v, displayed_totalCards (ui w) = Value v) ∧
  (∃ b, clear_disabled (ui w) = Value b).
Proof.
  intros Hrun.
  assert (H : data_truthy (ui w)).
  { apply (state_invariant stores_truthy data_truthy) with (es := es);
      try assumption.
    - intros e w0 He HP. destruct e; simpl in *; try exact HP;
        destruct HP as (H1 & H2); split; assumption.
    - apply stores_truthy_fetchStack.
    - apply stores_truthy_releaseTeam.
    - apply stores_truthy_clearStack.
    - exact I.
    - intros s checked HP. exact HP.
    - split; reflexivity. }
  split; [exact H|]. destruct H as (Hstack & Hstats).
  unfold shows_loader, displayed_totalTeams, displayed_totalCards, clear_disabled.
  assert (Hs : ∀ name, ∃ v, get_prop (stack (ui w)) name = Value v).
  { intros name. destruct (stack (ui w)); simpl in *; try discriminate;
      try destruct (String.eqb name "length"); eexists; reflexivity. }
  assert (Ht : ∀ name, ∃ v, get_prop (stats (ui w)) name = Value v).
  { intros name. destruct (stats (ui w)); simpl in *; try discriminate;
      try destruct (String.eqb name "length"); eexists; reflexivity. }
  destruct (Hs "length") as (len & ->).
  destruct (Ht "totalTeams") as (teams & ->).
  destruct (Ht "totalCards") as (cards & ->).
  repeat split; try (eexists; reflexivity);
    destruct (loading (ui w)); eexists; reflexivity.
Qed.

Lemma guards_never_throw_witness :
  data_truthy (ui loaded_world) ∧
  ∃ v, displayed_totalTeams (ui loaded_world) = Value v.
Proof.
  destruct (guards_never_throw [Mount; Settle 0%nat (Fulfilled ok_stack)]
              loaded_world eq_refl) as (H & _ & Hteams & _).
  split; [exact H|exact Hteams].
Defined.

Lemma get_prop_of_truthy (v : JsVal) (name : string) :
  truthy v = true → get_prop v name = Value (field v name).
Proof.
  unfold field. destruct v; simpl; try discriminate; intros _;
    try destruct (String.eqb name "length"); reflexivity.
Qed.

(** ** The page *)

Lemma stack_section_rows (s : State) (items : list JsVal) :
  stack s = JArr items →
  stack_section s =
  match items with
  | [] => Value EmptyCard
  | _ :: _ =>
      match render_rows s items with
      | Raise e => Raise e
      | Value rows => Value (TeamRows rows)
      end
  end.
Proof. intros H. unfold stack_section. rewrite H. destruct items; reflexivity. Qed.

Lemma is_positive_count (z : Z) : is_positive (Dec (z <? 0) (Z.abs z) 0) = (0 <? z).
Proof. destruct z; reflexivity. Qed.

Lemma average_card_numbers (s : State) (totalCards totalTeams : Z) :
  get_prop (stats s) "totalCards" = Value (JNum totalCards) →
  get_prop (stats s) "totalTeams" = Value (JNum totalTeams) →
  average_card s =
  Value (if 0 <? totalCards
         then AverageOf (Dec false totalCards 0)
                        (Dec (totalTeams <? 0) (Z.abs totalTeams) 0)
         else AverageZero).
Proof.
  intros Hc Ht. unfold average_card. rewrite Hc. cbn [to_number].
  rewrite is_positive_count. destruct (0 <? totalCards) eqn:E; [|reflexivity].
  rewrite Ht. cbn [to_number]. destruct totalCards; try discriminate. reflexivity.
Qed.

(** The average card of the page is the one of [displayed_average]
    wherever both statistics are numbers. *)
Lemma average_card_agrees (s : State) (d : AvgDisplay) :
  displayed_average s = Some d →
  average_card s =
  Value match d with
        | AvgLiteral _ => AverageZero
        | AvgQuotient totalCards totalTeams =>
            AverageOf (Dec false totalCards 0)
                      (Dec (totalTeams <? 0) (Z.abs totalTeams) 0)
        end.
Proof.
  unfold displayed_average.
  destruct (get_prop (stats s) "totalCards") as [[| | |c| | |]|] eqn:Hc; try discriminate.
  destruct (get_prop (stats s) "totalTeams") as [[| | |t| | |]|] eqn:Ht; try discriminate.
  intros [= <-]. rewrite (average_card_numbers s c t Hc Ht).
  unfold average_cards. destruct (0 <? c); reflexivity.
Qed.

Lemma page_of_main_state (s : State) :
  loading s = false → truthy (stats s) = true →
  page s =
  match average_card s with
  | Raise e => Raise e
  | Value average =>
      match stack_section s with
      | Raise e => Raise e
      | Value section =>
          Value (MainPage (field (stats s) "totalTeams") (field (stats s) "totalCards")
                   average (strict_eq_zero (field (stats s) "totalCards"))
                   section (toast s))
      end
  end.
Proof.
  intros Hl Ht.
  unfold page, shows_loader, displayed_totalTeams, displayed_totalCards, clear_disabled.
  rewrite Hl, !(get_prop_of_truthy _ _ Ht). reflexivity.
Qed.

Lemma to_number_primitive (v : JsVal) :
  is_primitive v = true → ∃ n, to_number v = Value n.
Proof. destruct v; try discriminate; intros _; eexists; reflexivity. Qed.

Lemma average_card_primitive (s : State) :
  truthy (stats s) = true →
  is_primitive (field (stats s) "totalCards") = true →
  is_primitive (field (stats s) "totalTeams") = true →
  ∃ average, average_card s = Value average.
Proof.
  intros Ht Hc Hm. unfold average_card. rewrite !(get_prop_of_truthy _ _ Ht).
  destruct (to_number_primitive _ Hc) as (c & ->).
  destruct (to_number_primitive _ Hm) as (m & ->).
  destruct (is_positive c); eexists; reflexivity.
Qed.

Lemma entry_ok_has_cards (item : JsVal) : entry_ok item = true → has_cards item = true.
Proof.
  destruct item; try discriminate. unfold entry_ok, has_cards, field. simpl.
  destruct (lookup_field "cards" fields); rewrite ?andb_false_r; try discriminate.
  reflexivity.
Qed.

Lemma entries_have_cards (entries : list JsVal) :
  forallb entry_ok entries = true → forallb has_cards entries = true.
Proof.
  induction entries as [|item rest IH]; simpl; [reflexivity|].
  intros H. apply andb_true_iff in H as (Hi & Hr).
  rewrite (entry_ok_has_cards item Hi). apply IH, Hr.
Qed.

Lemma stats_ok_counts (st : JsVal) :
  stats_ok st = true →
  ∃ totalTeams totalCards,
    truthy st = true ∧
    field st "totalTeams" = JNum totalTeams ∧ field st "totalCards" = JNum totalCards ∧
    0 ≤ totalTeams ∧ 0 ≤ totalCards.
Proof.
  destruct st; try discriminate. unfold stats_ok. intros H.
  apply andb_true_iff in H as (Ht & Hc).
  destruct (field (JObj fields) "totalTeams") as [| | |t| | |]; try discriminate.
  destruct (field (JObj fields) "totalCards") as [| | |c| | |]; try discriminate.
  simpl in Ht, Hc. apply Z.leb_le in Ht, Hc. exists t, c. auto.
Qed.

(** The page on data of the documented shape. *)
Lemma page_well_formed (s : State) (entries : list JsVal) :
  loading s = false → stack s = JArr entries →
  forallb entry_ok entries = true → stats_ok (stats s) = true →
  ∃ totalTeams totalCards section,
    field (stats s) "totalTeams" = JNum totalTeams ∧
    field (stats s) "totalCards" = JNum totalCards ∧
    page s = Value (MainPage (JNum totalTeams) (JNum totalCards)
                      (if 0 <? totalCards
                       then AverageOf (Dec false totalCards 0) (Dec false totalTeams 0)
                       else AverageZero)
                      (totalCards =? 0) section (toast s)).
Proof.
  intros Hl Hk He Hs.
  destruct (stats_ok_counts _ Hs) as (t & c & Htruthy & Ht & Hc & Ht0 & Hc0).
  exists t, c.
  rewrite (page_of_main_state s Hl Htruthy).
  assert (Hgc : get_prop (stats s) "totalCards" = Value (JNum c))
    by (rewrite (get_prop_of_truthy _ _ Htruthy), Hc; reflexivity).
  assert (Hgt : get_prop (stats s) "totalTeams" = Value (JNum t))
    by (rewrite (get_prop_of_truthy _ _ Htruthy), Ht; reflexivity).
  rewrite (average_card_numbers s c t Hgc Hgt), Ht, Hc.
  assert (Hneg : (t <? 0) = false) by (apply Z.ltb_ge; exact Ht0).
  rewrite Hneg, (Z.abs_eq t Ht0).
  rewrite (stack_section_rows s entries Hk).
  pose proof (render_rows_spec s entries) as Hrows.
  rewrite (entries_have_cards entries He) in Hrows.
  destruct Hrows as (rows & Hrows & _).
  destruct entries as [|item rest].
  - eexists. split; [reflexivity|]. split; reflexivity.
  - rewrite Hrows. eexists. split; [reflexivity|]. split; reflexivity.
Qed.

(** What [fetchStack] stores from a well-formed successful response. *)
Lemma fetchStack_well_formed (w : World) (response : JsVal) (env : World → World)
    (rest : list (ApiResult * (World → World))) :
  stack_response_ok response = true →
  ∃ w' entries,
    drive fetchStack ((Fulfilled response, env) :: rest) w = Done tt w' ∧
    get_prop response "success" = Value (JBool true) ∧
    loading (ui w') = false ∧
    stack (ui w') = JArr entries ∧ forallb entry_ok entries = true ∧
    stats_ok (stats (ui w')) = true ∧
    stats (ui w') = js_or (field response "stats") default_stats ∧
    toast (ui w') = toast (ui (env w)).
Proof.
  intros H. unfold stack_response_ok in H.
  destruct (field response "success") as [| |[]| | | |] eqn:Es; try discriminate.
  destruct (field response "stack") as [| | | | |entries|] eqn:Ek; try discriminate.
  apply andb_true_iff in H as (Hentries & Hstats).
  assert (Hread : get_prop response "success" = Value (JBool true)).
  { unfold field in Es. destruct (get_prop response "success"); [|discriminate].
    rewrite Es. reflexivity. }
  assert (Hsucc : succeeded (Fulfilled response) = true).
  { simpl. rewrite Hread. reflexivity. }
  destruct (fetchStack_success _ env rest w Hsucc) as (resp & [= <-] & Hrun).
  rewrite Hrun. do 2 eexists. split; [reflexivity|]. split; [exact Hread|].
  split; [reflexivity|]. simpl. rewrite Ek.
  split; [reflexivity|]. split; [exact Hentries|]. split; [|split; reflexivity].
  unfold js_or.
  destruct (field response "stats"); simpl in Hstats; try discriminate Hstats;
    [reflexivity | exact Hstats].
Qed.

(** C1 (as amended).  After a well-formed successful stack response
    (the stack an array of entries, the stats an object of two counts or
    left out) the page leaves the loader and renders, with the toast it
    had.  When the response carries a [stats] object the two totals on
    the page are its [stats.totalTeams] and [stats.totalCards]; when
    [stats] is left out both totals are the default 0.  "Clear All
    Stack" is disabled exactly when the card total shown is 0. *)
Theorem displayed_totals_after_success (w : World) (response : JsVal)
    (env : World → World) :
  stack_response_ok response = true →
  ∃ w' totalTeams totalCards average section,
    drive fetchStack [(Fulfilled response, env)] w = Done tt w' ∧
    page (ui w') = Value (MainPage totalTeams totalCards average
                                   (strict_eq_zero totalCards) section
                                   (toast (ui (env w)))) ∧
    if truthy (field response "stats") then
      response_stat response "totalTeams" = Value totalTeams ∧
      response_stat response "totalCards" = Value totalCards
    else totalTeams = JNum 0 ∧ totalCards = JNum 0.
Proof.
  intros H.
  destruct (fetchStack_well_formed w response env [] H)
    as (w' & entries & Hrun & Hread & Hl & Hk & He & Hok & Hjs & Htoast).
  destruct (page_well_formed (ui w') entries Hl Hk He Hok)
    as (t & c & sec & Ht & Hc & Hpage).
  exists w', (JNum t), (JNum c). do 2 eexists. split; [exact Hrun|].
  split; [rewrite <- Htoast; exact Hpage|].
  rewrite Hjs in Ht, Hc. unfold js_or in Ht, Hc. unfold response_stat.
  rewrite (get_prop_field _ _ "stats" _ Hread).
  destruct (truthy (field response "stats")) eqn:Etr.
  - rewrite !(get_prop_of_truthy _ _ Etr), Ht, Hc. split; reflexivity.
  - simpl in Ht, Hc. injection Ht as <-. injection Hc as <-. split; reflexivity.
Qed.

Lemma displayed_totals_after_success_witness :
  ∃ w' average section,
    drive fetchStack [(Fulfilled ok_stack, id)] init_world = Done tt w' ∧
    page (ui w') = Value (MainPage (JNum 1) (JNum 4) average false section None).
Proof.
  destruct (displayed_totals_after_success init_world ok_stack id eq_refl)
    as (w' & t & c & average & section & Hrun & Hpage & Htotals).
  exists w', average, section. split; [exact Hrun|].
  destruct Htotals as ([= <-] & [= <-]). exact Hpage.
Defined.

(** C1, counterexample: a well-formed successful response that leaves
    [stats] out has no [stats.totalTeams] to equal (reading it throws),
    yet the page shows 0 teams and 0 cards. *)
Lemma totals_not_from_response_without_stats : ¬ totals_always_from_response.
Proof.
  intros claim.
  destruct (claim init_world ok_without_stats id eq_refl)
    as (w' & t & c & a & d & sec & ts & _ & _ & Hteams & _).
  discriminate Hteams.
Qed.

(** X5.  After a successful stack response whose [stack] is an array,
    [fetchStack] returns normally and shows no toast.  The page then
    leaves the loader and renders the three statistics, the controls and
    the list if the average card can be computed and every entry has a
    [cards] array; it throws if one entry has none, and it throws if a
    statistic the average needs cannot be converted to a number (which
    never happens for strings, numbers, booleans, [null] and missing
    fields). *)
Theorem page_after_stack_response (w : World) (response : JsVal)
    (env : World → World) (items : list JsVal) :
  succeeded (Fulfilled response) = true →
  field response "stack" = JArr items →
  ∃ w', drive fetchStack [(Fulfilled response, env)] w = Done tt w' ∧
        toast (ui w') = toast (ui (env w)) ∧
        stats (ui w') = js_or (field response "stats") default_stats ∧
        (is_primitive (field (stats (ui w')) "totalCards") = true →
         is_primitive (field (stats (ui w')) "totalTeams") = true →
         ∃ average, average_card (ui w') = Value average) ∧
        match average_card (ui w') with
        | Raise e => page (ui w') = Raise e
        | Value average =>
            if forallb has_cards items
            then ∃ section,
                   stack_section (ui w') = Value section ∧
                   page (ui w') =
                   Value (MainPage (field (stats (ui w')) "totalTeams")
                                   (field (stats (ui w')) "totalCards")
                                   average
                                   (strict_eq_zero (field (stats (ui w')) "totalCards"))
                                   section (toast (ui w')))
            else page (ui w') = Raise TypeError
        end.
Proof.
  intros H Hstack.
  destruct (fetchStack_success _ env [] w H) as (resp & [= <-] & ->).
  eexists. split; [reflexivity|]. split; [reflexivity|]. split; [reflexivity|].
  set (s := ui _).
  assert (Hl : loading s = false) by reflexivity.
  assert (Ht : truthy (stats s) = true).
  { subst s. simpl. apply js_or_truthy. reflexivity. }
  assert (Hs : stack s = JArr items).
  { subst s. simpl. rewrite Hstack. reflexivity. }
  split; [apply average_card_primitive, Ht|].
  rewrite (page_of_main_state s Hl Ht).
  destruct (average_card s) as [average|e]; [|reflexivity].
  rewrite (stack_section_rows s items Hs).
  pose proof (render_rows_spec s items) as Hrows.
  destruct items as [|item rest].
  - simpl. eexists. split; reflexivity.
  - destruct (forallb has_cards (item :: rest)).
    + destruct Hrows as (rows & -> & _). eexists. split; reflexivity.
    + rewrite Hrows. reflexivity.
Qed.

Lemma page_after_stack_response_witness :
  ∃ w', drive fetchStack [(Fulfilled stack_without_cards, id)] init_world = Done tt w' ∧
        page (ui w') = Raise TypeError.
Proof.
  destruct (page_after_stack_response init_world stack_without_cards
              id [JObj [("registrationId", JStr "T1")]] eq_refl eq_refl)
    as (w' & Hrun & _ & _ & _ & Hpage).
  exists w'. split; [exact Hrun|].
  injection Hrun as <-. exact Hpage.
Defined.

(** Statistics that are numeric strings are converted for the average;
    a statistic with an own [toString] makes the page throw. *)
Example page_converts_statistics :
  page (set_loading false
          (set_stats (JObj [("totalTeams", JStr "2"); ("totalCards", JStr " 5 ")])
                     initial_state))
  = Value (MainPage (JStr "2") (JStr " 5 ")
                    (AverageOf (Dec false 5 0) (Dec false 2 0)) false EmptyCard None) ∧
  page (set_loading false
          (set_stats (JObj [("totalTeams", JNum 1);
                            ("totalCards", JObj [("toString", JNum 0)])])
                     initial_state))
  = Raise TypeError.
Proof. split; reflexivity. Qed.

(** ** Whether the page is interactive *)

Lemma render_rows_status (s s' : State) (items : list JsVal) :
  match render_rows s items, render_rows s' items with
  | Value _, Value _ => True
  | Raise e, Raise e' => e = e'
  | _, _ => False
  end.
Proof.
  pose proof (render_rows_spec s items) as H.
  pose proof (render_rows_spec s' items) as H'.
  destruct (forallb has_cards items).
  - destruct H as (rows & -> & _). destruct H' as (rows' & -> & _). exact I.
  - rewrite H, H'. reflexivity.
Qed.

(** Whether the page is interactive depends on the loading flag, the
    stack and the stats only. *)
Lemma interactive_frame (s s' : State) :
  stack s' = stack s → stats s' = stats s → loading s' = loading s →
  interactive s' = interactive s.
Proof.
  intros Hk Ht Hl.
  unfold interactive, page, shows_loader, displayed_totalTeams, displayed_totalCards,
    average_card, clear_disabled, stack_section.
  rewrite Hk, Ht, Hl.
  destruct (loading s); destruct (get_prop (stack s) "length") as [len|];
    try reflexivity;
    try (destruct (strict_eq_zero len) eqn:Elen; [reflexivity|]);
    destruct (get_prop (stats s) "totalTeams"); try reflexivity;
    destruct (get_prop (stats s) "totalCards") as [c|]; try reflexivity;
    destruct (to_number c) as [n|]; try reflexivity;
    destruct (is_positive n); try destruct (to_number a); try reflexivity;
    try rewrite Elen; try destruct (strict_eq_zero c); try reflexivity;
    try destruct (strict_eq_zero len); try reflexivity;
    destruct (stack s) as [| | | | |items|]; try reflexivity;
    pose proof (render_rows_status s s' items) as Hrows;
    destruct (render_rows s items), (render_rows s' items);
    try contradiction; reflexivity.
Qed.

Lemma fetchStack_view (w : World) (r : ApiResult) (env : World → World)
    (rest : list (ApiResult * (World → World))) :
  ∃ w', drive fetchStack ((r, env) :: rest) w = Done tt w' ∧
        loading (ui w') = false ∧
        (succeeded r = true ∨ toast_type (toast (ui w')) = Some Error) ∧
        view_after_fetch r (ui (env w)) (ui w').
Proof.
  destruct (fetchStack_returns w r env rest) as (w' & Hrun & Hl & Htoast).
  exists w'. split; [exact Hrun|]. split; [exact Hl|]. split; [exact Htoast|].
  split.
  - intros Hf. destruct (fetchStack_failure r env rest w Hf) as (msg & log & Hrun').
    rewrite Hrun in Hrun'. injection Hrun' as ->.
    apply interactive_frame; reflexivity.
  - intros response -> Hok.
    destruct (fetchStack_well_formed w response env rest Hok)
      as (w2 & entries & Hrun' & _ & Hl' & Hk & He & Hst & _).
    rewrite Hrun in Hrun'. injection Hrun' as <-.
    destruct (page_well_formed (ui w') entries Hl' Hk He Hst)
      as (t & c & sec & _ & _ & Hpage).
    unfold interactive. rewrite Hpage. reflexivity.
Qed.

Lemma view_after_fetch_frame (r : ApiResult) (s s1 s2 : State) :
  view_after_fetch r s s1 →
  stack s2 = stack s1 → stats s2 = stats s1 → loading s2 = loading s1 →
  view_after_fetch r s s2.
Proof.
  intros (Hf & Hok) Hk Ht Hl.
  rewrite <- (interactive_frame s1 s2 Hk Ht Hl) in Hf, Hok.
  split; assumption.
Qed.

(** A release that went through awaits [fetchStack] and ends with its
    own marker removed from what that call left. *)
Lemma releaseTeam_refetch (id : string) (w : World) (r1 : ApiResult)
    (env1 : World → World) :
  released_ok r1 = true →
  ∃ k w1,
    drive (releaseTeam id) [(r1, env1)] w = Blocked stack_request k w1 ∧
    toast_type (toast (ui w1)) = Some Success ∧
    ∀ r2 env2 rest,
      ∃ wf, drive fetchStack ((r2, env2) :: rest) w1 = Done tt wf ∧
            drive (releaseTeam id) ((r1, env1) :: (r2, env2) :: rest) w
            = Done tt (apply_effect (DeleteReleasing id) wf).
Proof.
  intros H. unfold released_ok in H. apply andb_true_iff in H as (Hs & Hr).
  destruct (succeeded_fulfilled r1 Hs) as (response & -> & Hsucc & Ht).
  destruct (get_prop (field response "result") "released") as [released|] eqn:Er;
    [|discriminate].
  pose proof (get_prop_field _ _ "released" _ Er) as Er'.
  destruct (to_str (field (field response "result") "released")) as [count|] eqn:Ec.
  2:{ rewrite Er' in Er. injection Er as <-. rewrite Ec in Hr. discriminate. }
  unfold releaseTeam, fetchStack. simpl. unfold get.
  rewrite Hsucc. simpl. rewrite Ht.
  rewrite (get_prop_field _ _ "result" _ Hsucc). simpl. rewrite Er'. simpl.
  rewrite Ec. simpl.
  do 2 eexists. split; [reflexivity|]. split; [reflexivity|].
  intros r2 env2 rest. settle r2; eexists; split; reflexivity.
Qed.

Lemma clearStack_refetch (w : World) (r1 : ApiResult) (env1 : World → World) :
  succeeded r1 = true →
  ∃ k w1,
    drive (clearStack true) [(r1, env1)] w = Blocked stack_request k w1 ∧
    toast_type (toast (ui w1)) = Some Success ∧
    ∀ r2 env2 rest,
      ∃ wf, drive fetchStack ((r2, env2) :: rest) w1 = Done tt wf ∧
            drive (clearStack true) ((r1, env1) :: (r2, env2) :: rest) w
            = Done tt (apply_effect (SetLoading false) wf).
Proof.
  intros Hs. destruct (succeeded_fulfilled r1 Hs) as (response & -> & Hsucc & Ht).
  unfold clearStack, fetchStack. simpl. unfold get.
  rewrite Hsucc. simpl. rewrite Ht. simpl.
  do 2 eexists. split; [reflexivity|]. split; [reflexivity|].
  intros r2 env2 rest. settle r2; eexists; split; reflexivity.
Qed.

Lemma releaseTeam_failure_view (id : string) (w : World) (r1 : ApiResult)
    (env1 : World → World) (rest : list (ApiResult * (World → World))) :
  released_ok r1 = false →
  ∃ w', drive (releaseTeam id) ((r1, env1) :: rest) w = Done tt w' ∧
        toast_type (toast (ui w')) = Some Error ∧
        interactive (ui w') = interactive (ui (env1 (apply_effect (AddReleasing id) w))).
Proof.
  unfold released_ok, succeeded, releaseTeam, fetchStack.
  settle r1; intros H; try discriminate H.
  all: eexists; split; [reflexivity|]; split; [reflexivity|];
    apply interactive_frame; reflexivity.
Qed.

Lemma clearStack_failure_view (w : World) (r1 : ApiResult)
    (env1 : World → World) (rest : list (ApiResult * (World → World))) :
  succeeded r1 = false →
  ∃ w', drive (clearStack true) ((r1, env1) :: rest) w = Done tt w' ∧
        toast_type (toast (ui w')) = Some Error ∧
        interactive (ui w') =
        interactive (set_loading false (ui (env1 (with_ui (set_loading true) w)))).
Proof.
  unfold succeeded, clearStack, fetchStack.
  settle r1; intros H; try discriminate H.
  all: eexists; split; [reflexivity|]; split; [reflexivity|];
    apply interactive_frame; reflexivity.
Qed.

(** C9 (as amended).  For every way the requests settle (any response
    value at all, or a rejection) and whatever else happens meanwhile,
    each of the three handlers returns normally, never with an
    exception.  [fetchStack] ends with the loading flag false and,
    unless the fetch succeeded, an error toast.  [releaseTeam] ends with
    the team out of the busy set, having shown a success toast when the
    release response could be read in full and an error toast otherwise
    (so also for a truthy [success] with a missing or unreadable
    [result]).  [clearStack] when confirmed ends with the loading flag
    false, having shown a success toast or ending on an error toast, and
    when declined does nothing.  In the event system no rejection is
    ever left unhandled.

    The view afterwards: a failed call stores nothing, so the page is
    interactive exactly if the data it held before render; after a
    well-formed successful stack response it is interactive.  (A
    successful response is stored as it comes, and one that cannot be
    rendered makes the page throw: see
    [view_not_interactive_after_malformed_stack].) *)
Theorem no_exception_escapes (w : World) (registrationId : string)
    (r1 r2 : ApiResult) (env1 env2 : World → World)
    (rest : list (ApiResult * (World → World))) (es : list Event) :
  (∃ w', drive fetchStack ((r1, env1) :: rest) w = Done tt w' ∧
         loading (ui w') = false ∧
         (succeeded r1 = true ∨ toast_type (toast (ui w')) = Some Error) ∧
         view_after_fetch r1 (ui (env1 w)) (ui w')) ∧
  (∃ w', drive (releaseTeam registrationId) ((r1, env1) :: (r2, env2) :: rest) w
         = Done tt w' ∧
         registrationId ∉ releasing (ui w')) ∧
  (if released_ok r1 then
     ∃ k w1 w2,
       drive (releaseTeam registrationId) [(r1, env1)] w = Blocked stack_request k w1 ∧
       toast_type (toast (ui w1)) = Some Success ∧
       drive (releaseTeam registrationId) ((r1, env1) :: (r2, env2) :: rest) w
       = Done tt w2 ∧
       view_after_fetch r2 (ui (env2 w1)) (ui w2)
   else
     ∃ w', drive (releaseTeam registrationId) ((r1, env1) :: rest) w = Done tt w' ∧
           toast_type (toast (ui w')) = Some Error ∧
           interactive (ui w') =
           interactive (ui (env1 (apply_effect (AddReleasing registrationId) w)))) ∧
  (∃ w', drive (clearStack true) ((r1, env1) :: (r2, env2) :: rest) w = Done tt w' ∧
         loading (ui w') = false) ∧
  (if succeeded r1 then
     ∃ k w1 w2,
       drive (clearStack true) [(r1, env1)] w = Blocked stack_request k w1 ∧
       toast_type (toast (ui w1)) = Some Success ∧
       drive (clearStack true) ((r1, env1) :: (r2, env2) :: rest) w = Done tt w2 ∧
       view_after_fetch r2 (ui (env2 w1)) (ui w2)
   else
     ∃ w', drive (clearStack true) ((r1, env1) :: rest) w = Done tt w' ∧
           toast_type (toast (ui w')) = Some Error ∧
           interactive (ui w') =
           interactive (set_loading false (ui (env1 (with_ui (set_loading true) w))))) ∧
  drive (clearStack false) rest w = Done tt w ∧
  match run init_world es with
  | Some w' => unhandled w' = []
  | None => True
  end.
Proof.
  split; [apply fetchStack_view|].
  split.
  { destruct (releaseTeam_returns registrationId w r1 env1 r2 env2 rest) as (w' & Hrun).
    exists w'. split; [exact Hrun|].
    destruct (releaseTeam_shape registrationId) as (k & Hshape & Hk).
    rewrite Hshape in Hrun. simpl in Hrun.
    pose proof (drive_releases registrationId (k r1) (Hk r1) ((r2, env2) :: rest)
                  (env1 (apply_effect (AddReleasing registrationId) w))) as Hd.
    cbn [apply_effect] in Hd. rewrite Hrun in Hd. exact Hd. }
  split.
  { destruct (released_ok r1) eqn:H; [|apply releaseTeam_failure_view, H].
    destruct (releaseTeam_refetch registrationId w r1 env1 H)
      as (k & w1 & Hrun & Htoast & Hnext).
    destruct (Hnext r2 env2 rest) as (wf & Hf & Hrun2).
    exists k, w1. eexists. split; [exact Hrun|]. split; [exact Htoast|].
    split; [exact Hrun2|].
    destruct (fetchStack_view w1 r2 env2 rest) as (wf' & Hf' & _ & _ & Hview).
    rewrite Hf in Hf'. injection Hf' as <-.
    apply (view_after_fetch_frame _ _ _ _ Hview); reflexivity. }
  split; [apply clearStack_returns|].
  split.
  { destruct (succeeded r1) eqn:H; [|apply clearStack_failure_view, H].
    destruct (clearStack_refetch w r1 env1 H) as (k & w1 & Hrun & Htoast & Hnext).
    destruct (Hnext r2 env2 rest) as (wf & Hf & Hrun2).
    exists k, w1. eexists. split; [exact Hrun|]. split; [exact Htoast|].
    split; [exact Hrun2|].
    destruct (fetchStack_view w1 r2 env2 rest) as (wf' & Hf' & Hl & _ & Hview).
    rewrite Hf in Hf'. injection Hf' as <-.
    apply (view_after_fetch_frame _ _ _ _ Hview); try reflexivity.
    simpl. rewrite Hl. reflexivity. }
  split; [reflexivity|].
  destruct (run init_world es) as [w'|] eqn:Hrun; [|exact I].
  apply (Inv_reachable es w' Hrun).
Qed.

Lemma no_exception_escapes_witness :
  ∃ w', drive fetchStack [(Fulfilled ok_stack, id)] init_world = Done tt w' ∧
        loading (ui w') = false ∧ interactive (ui w') = true.
Proof.
  destruct (no_exception_escapes init_world "T1" (Fulfilled ok_stack) down id id [] [])
    as ((w' & Hrun & Hl & _ & _ & Hview) & _).
  exists w'. split; [exact Hrun|]. split; [exact Hl|].
  apply (Hview ok_stack); reflexivity.
Defined.

(** C9, counterexample: the page shows the stack of team T1 when a poll
    brings a successful response whose entry has no [cards].
    [fetchStack] stores it and returns normally, and the page then
    throws instead of rendering. *)
Lemma view_not_interactive_after_malformed_stack :
  ¬ every_response_leaves_view_interactive.
Proof.
  intros claim.
  destruct (claim loaded_world (Fulfilled stack_without_cards) id)
    as (w' & Hrun & Hview); [vm_compute; reflexivity|].
  injection Hrun as <-. vm_compute in Hview. discriminate Hview.
Qed.

Example page_throws_after_malformed_stack :
  ∃ w', drive fetchStack [(Fulfilled stack_without_cards, id)] loaded_world = Done tt w' ∧
        unhandled w' = [] ∧ toast (ui w') = None ∧ loading (ui w') = false ∧
        page (ui w') = Raise TypeError.
Proof. eexists. split; [reflexivity|]. vm_compute. repeat split; reflexivity. Qed.

(** ** Polling *)

Lemma polling_consistent_exec (o : Origin) (p : Async unit) (w : World) :
  polling_consistent w → polling_consistent (exec o p w).
Proof.
  unfold polling_consistent.
  destruct (exec_frame o p w) as (-> & -> & -> & -> & _). auto.
Qed.

Lemma polling_consistent_effect_run (w : World) :
  interval w = None → life w = Live → polling_consistent (effect_run w).
Proof.
  intros Hi Hl. destruct (effect_run_requests w) as (_ & Hi' & Ha & Hl').
  unfold polling_consistent. rewrite Hi', Ha, Hl', Hi, Hl.
  assert (Hn : now (effect_run w) = now w).
  { unfold effect_run, exec. simpl. destruct (autoRefresh (ui w)); reflexivity. }
  rewrite Hn. destruct (autoRefresh (ui w)).
  - split; [split; [auto|eauto]|]. intros due [= <-]. lia.
  - split; [|discriminate]. split; [intros (x & Hx); discriminate Hx|].
    intros (Hf & _). discriminate Hf.
Qed.

Lemma polling_consistent_step (w w' : World) (e : Event) :
  polling_consistent w → step w e = Some w' → polling_consistent w'.
Proof.
  intros H. destruct e; simpl.
  - destruct (life w) eqn:Hl; try discriminate. intros [= <-].
    apply polling_consistent_effect_run; [|reflexivity]. simpl.
    destruct H as (Hiff & _). destruct (interval w) as [d|] eqn:Hi; [|reflexivity].
    destruct (proj1 Hiff (ex_intro _ d eq_refl)) as (_ & Hlive). congruence.
  - destruct (is_live w); try discriminate. intros [= <-].
    unfold polling_consistent. simpl. split; [|discriminate].
    split; [intros (x & Hx); discriminate Hx|]. intros (_ & Hf). discriminate Hf.
  - destruct (_ && _); try discriminate. intros [= <-].
    apply polling_consistent_exec, H.
  - destruct (_ && _); try discriminate.
    destruct (clear_disabled (ui w)) as [[]|]; try discriminate. intros [= <-].
    apply polling_consistent_exec, H.
  - destruct (_ && _); try discriminate. intros [= <-].
    apply polling_consistent_exec, H.
  - destruct (is_live w) eqn:Hlive; simpl; try discriminate.
    destruct (main_view_shown (ui w)); try discriminate.
    destruct (Bool.eqb checked (autoRefresh (ui w))); intros [= <-]; [exact H|].
    apply polling_consistent_effect_run; [reflexivity|]. simpl.
    unfold is_live in Hlive. destruct (life w); try discriminate. reflexivity.
  - destruct (_ && _); try discriminate.
    destruct (toast (ui w)); try discriminate. intros [= <-]. exact H.
  - destruct (pending w !! i) as [t|]; try discriminate. intros [= <-].
    apply polling_consistent_exec. exact H.
  - destruct (_ && _); try discriminate. intros [= <-].
    destruct H as (Hiff & Hdue). split; [exact Hiff|].
    simpl. intros due Hi. specialize (Hdue due Hi). lia.
  - destruct (timeouts w !! i) as [[due []]|]; try discriminate.
    destruct (due <=? now w)%N; try discriminate. intros [= <-]. exact H.
  - destruct (interval w) as [due|] eqn:Hi; try discriminate.
    destruct (due <=? now w)%N eqn:E; try discriminate. intros [= <-].
    apply N.leb_le in E. destruct H as (Hiff & Hdue).
    unfold polling_consistent. simpl. split.
    + split; [intros _; apply Hiff; eauto|eauto].
    + intros d [= <-]. lia.
Qed.

(** X6.  In every state the page can reach, the polling interval is
    armed if and only if the page is mounted and auto-refresh is on, and
    while it is armed its next run is due at a time between now and
    3000 ms from now. *)
Theorem polling_matches_autoRefresh (es : list Event) (w : World) :
  run init_world es = Some w →
  (is_Some (interval w) ↔ autoRefresh (ui w) = true ∧ life w = Live) ∧
  ∀ due, interval w = Some due → (now w ≤ due ≤ now w + 3000)%N.
Proof.
  intros Hrun.
  assert (H : polling_consistent w).
  { assert (H0 : polling_consistent init_world).
    { split; [|discriminate]. simpl. split; [intros (x & Hx); discriminate Hx|].
      intros (_ & Hf). discriminate Hf. }
    revert Hrun H0. generalize init_world. revert w.
    induction es as [|e es IH]; simpl; intros w w0.
    - intros [= <-] H0. exact H0.
    - destruct (step w0 e) as [w1|] eqn:E; [|discriminate].
      intros Hrun H0. apply (IH w w1 Hrun).
      eapply polling_consistent_step; eassumption. }
  destruct H as (Hiff & Hdue). split; [exact Hiff|].
  intros due Hi. split; [|apply Hdue, Hi].
  pose proof (reachable_on_time es w Hrun) as Hon.
  apply on_time_spec in Hon as (_ & Hlow). apply Hlow, Hi.
Qed.

Lemma polling_matches_autoRefresh_witness :
  is_Some (interval loaded_world) ↔
  autoRefresh (ui loaded_world) = true ∧ life loaded_world = Live.
Proof.
  apply (polling_matches_autoRefresh [Mount; Settle 0%nat (Fulfilled ok_stack)]
           loaded_world eq_refl).
Defined.

(** ** releaseTeam *)

(** X7.  A release whose response has a truthy [success] and a
    [result.released] that can be read and printed shows the success
    toast with the released count (as JavaScript prints it) and the
    team, changes nothing else and fetches the stack again.  When that
    fetch succeeds, [releaseTeam] returns with the stack and stats of
    the new response (the [[]] and zero defaults for missing ones), the
    loading flag false and the team out of the busy set. *)
Theorem release_success_refreshes (id : string) (w : World) (r1 r2 : ApiResult)
    (env1 env2 : World → World) :
  released_ok r1 = true →
  ∃ response count k w1,
    r1 = Fulfilled response ∧
    to_str (field (field response "result") "released") = Value count ∧
    drive (releaseTeam id) [(r1, env1)] w = Blocked stack_request k w1 ∧
    toast (ui w1) =
      Some (mkToast ("Successfully released " +:+ count +:+
                     " cards for team " +:+ id) Success) ∧
    same_data (ui (env1 (apply_effect (AddReleasing id) w))) (ui w1) ∧
    loading (ui w1) = loading (ui (env1 (apply_effect (AddReleasing id) w))) ∧
    requests w1 = requests (env1 (apply_effect (AddReleasing id) w)) ∧
    (succeeded r2 = true →
     ∃ response2 w2,
       r2 = Fulfilled response2 ∧
       drive (releaseTeam id) [(r1, env1); (r2, env2)] w = Done tt w2 ∧
       stack (ui w2) = js_or (field response2 "stack") (JArr []) ∧
       stats (ui w2) = js_or (field response2 "stats") default_stats ∧
       loading (ui w2) = false ∧
       releasing (ui w2) = releasing (ui (env2 w1)) ∖ {[id]} ∧
       toast (ui w2) = toast (ui (env2 w1))).
Proof.
  intros H. unfold released_ok in H. apply andb_true_iff in H as (Hs & Hr).
  destruct (succeeded_fulfilled r1 Hs) as (response & -> & Hsucc & Ht).
  destruct (get_prop (field response "result") "released") as [released|] eqn:Er;
    [|discriminate].
  pose proof (get_prop_field _ _ "released" _ Er) as Er'.
  destruct (to_str (field (field response "result") "released")) as [count|] eqn:Ec.
  2:{ rewrite Er' in Er. injection Er as <-. rewrite Ec in Hr. discriminate. }
  exists response, count. unfold releaseTeam, fetchStack. simpl. unfold get.
  rewrite Hsucc. simpl. rewrite Ht.
  rewrite (get_prop_field _ _ "result" _ Hsucc). simpl. rewrite Er'. simpl.
  rewrite Ec. simpl.
  do 2 eexists. split; [reflexivity|]. split; [reflexivity|].
  split; [reflexivity|]. split; [reflexivity|].
  split; [unfold same_data; simpl; tauto|].
  split; [reflexivity|]. split; [reflexivity|].
  intros H2. destruct (succeeded_fulfilled r2 H2) as (response2 & -> & Hs2 & Ht2).
  exists response2. simpl. unfold get. rewrite Hs2. simpl. rewrite Ht2.
  rewrite (get_prop_field _ _ "stack" _ Hs2). simpl.
  rewrite (get_prop_field _ _ "stats" _ Hs2). simpl.
  eexists. split; [reflexivity|]. split; [reflexivity|]. simpl. tauto.
Qed.

Lemma release_success_refreshes_witness :
  ∃ k w1,
    drive (releaseTeam "T1")
      [(Fulfilled (JObj [("success", JBool true);
                         ("result", JObj [("released", JNum 4)])]), id)]
      loaded_world = Blocked stack_request k w1 ∧
    toast (ui w1) = Some (mkToast "Successfully released 4 cards for team T1" Success).
Proof.
  destruct (release_success_refreshes "T1" loaded_world
              (Fulfilled (JObj [("success", JBool true);
                                ("result", JObj [("released", JNum 4)])]))
              down id id eq_refl)
    as (response & count & k & w1 & Hr & Hcount & Hrun & Htoast & _).
  exists k, w1. split; [exact Hrun|].
  injection Hr as <-. injection Hcount as <-. exact Htoast.
Defined.

(** The count is printed as JavaScript prints numbers, and a count that
    cannot be printed turns the release into a failure: the template
    literal throws inside the [try], after the backend has released the
    cards, and no fetch follows. *)
Example release_toast_prints_count :
  (∃ k w1,
     drive (releaseTeam "T1")
       [(Fulfilled (JObj [("success", JBool true);
                          ("result", JObj [("released", JNum (10 ^ 21))])]), id)]
       loaded_world = Blocked stack_request k w1 ∧
     toast (ui w1)
     = Some (mkToast "Successfully released 1e+21 cards for team T1" Success)) ∧
  (∃ w',
     drive (releaseTeam "T1")
       [(Fulfilled (JObj [("success", JBool true);
                          ("result",
                           JObj [("released", JObj [("toString", JNum 0)])])]), id)]
       loaded_world = Done tt w' ∧
     toast (ui w') = Some (mkToast "Error releasing team T1" Error) ∧
     requests w' = []).
Proof.
  split.
  - do 2 eexists. split; reflexivity.
  - eexists. split; [reflexivity|]. split; reflexivity.
Qed.

(** X8.  A release that fails in any way (rejected request, unreadable
    response, falsy [success], or a truthy [success] without a readable
    [result.released]) ends at once: an error toast naming the team is
    shown, the team leaves the busy set, and the stack, the stats, the
    loading flag and the other teams' markers stay as they were; no
    fetch is issued. *)
Theorem release_failure_frame (id : string) (w : World) (r1 : ApiResult)
    (env1 : World → World) (rest : list (ApiResult * (World → World))) :
  released_ok r1 = false →
  ∃ w' msg,
    drive (releaseTeam id) ((r1, env1) :: rest) w = Done tt w' ∧
    toast (ui w') = Some (mkToast msg Error) ∧ names_team id msg ∧
    stack (ui w') = stack (ui (env1 (apply_effect (AddReleasing id) w))) ∧
    stats (ui w') = stats (ui (env1 (apply_effect (AddReleasing id) w))) ∧
    loading (ui w') = loading (ui (env1 (apply_effect (AddReleasing id) w))) ∧
    releasing (ui w') =
      releasing (ui (env1 (apply_effect (AddReleasing id) w))) ∖ {[id]} ∧
    requests w' = requests (env1 (apply_effect (AddReleasing id) w)).
Proof.
  unfold released_ok, succeeded, releaseTeam, fetchStack, names_team.
  settle r1; intros H; try discriminate H.
  all: do 2 eexists; split; [reflexivity|]; split; [reflexivity|];
    split; [first [left; reflexivity | right; eexists; reflexivity]|];
    simpl; tauto.
Qed.

Lemma release_failure_frame_witness :
  ∃ w', drive (releaseTeam "T1") [(Fulfilled refused, id)] loaded_world = Done tt w' ∧
        toast (ui w') =
          Some (mkToast "Failed to release team T1: database unavailable" Error) ∧
        stack (ui w') = stack (ui loaded_world).
Proof.
  destruct (release_failure_frame "T1" loaded_world (Fulfilled refused) id []
              eq_refl)
    as (w' & msg & Hrun & _ & _ & Hstack & _).
  exists w'. split; [exact Hrun|]. split; [|exact Hstack].
  injection Hrun as <-. reflexivity.
Defined.

Lemma effect_run_releasing (w : World) :
  releasing (ui (effect_run w)) = releasing (ui w).
Proof.
  unfold effect_run, exec. simpl. destruct (autoRefresh (ui w)); reflexivity.
Qed.

(** X9.  The busy marker of a team changes only through that team's own
    release: in every reachable state, an event leaves the marker of
    [id] as it was unless it is a click on the "Release All" button of
    [id] or the settling of a request of a [releaseTeam] call for [id].
    Fetches, clears, timers and the releases of other teams never touch
    it. *)
Theorem marker_changes_only_by_own_release (es : list Event) (w w' : World)
    (e : Event) (id : string) :
  run init_world es = Some w → step w e = Some w' →
  (id ∈ releasing (ui w') ↔ id ∈ releasing (ui w)) ∨
  e = ClickRelease id ∨
  ∃ i r t, e = Settle i r ∧ pending w !! i = Some t ∧ origin t = ORelease id.
Proof.
  intros Hrun. pose proof (Inv_reachable es w Hrun) as (Hts & _).
  destruct e; simpl.
  - destruct (life w); try discriminate. intros [= <-]. left.
    rewrite effect_run_releasing. reflexivity.
  - destruct (is_live w); try discriminate. intros [= <-]. left. reflexivity.
  - destruct (_ && _); try discriminate. intros [= <-]. left. reflexivity.
  - destruct (_ && _); try discriminate.
    destruct (clear_disabled (ui w)) as [[]|]; try discriminate. intros [= <-].
    left.
    destruct (exec_keeps_releasing OClear (clearStack confirmed) w
                (Runs_clearStack confirmed false)) as (-> & _). reflexivity.
  - destruct (_ && _); try discriminate. intros [= <-].
    destruct (decide (registrationId = id)) as [->|Hne]; [right; left; reflexivity|].
    left. destruct (releaseTeam_shape registrationId) as (k & -> & _).
    unfold exec. simpl. rewrite elem_of_union, elem_of_singleton.
    split; [intros [H|H]; [exact H|congruence] | auto].
  - destruct (_ && _); try discriminate.
    destruct (Bool.eqb checked (autoRefresh (ui w))); intros [= <-]; left;
      [reflexivity|].
    rewrite effect_run_releasing. reflexivity.
  - destruct (_ && _); try discriminate.
    destruct (toast (ui w)); try discriminate. intros [= <-]. left. reflexivity.
  - destruct (pending w !! i) as [t|] eqn:Hi; try discriminate. intros [= <-].
    assert (Htok : task_ok t).
    { rewrite Forall_forall in Hts. apply Hts, list_elem_of_In.
      eapply list_elem_of_lookup_2. exact Hi. }
    unfold task_ok in Htok. destruct (origin t) as [|id0|] eqn:Ho.
    + left. destruct (exec_keeps_releasing OFetch (resume t r)
                        (with_pending (delete i) w) (Htok r)) as (-> & _).
      reflexivity.
    + destruct (decide (id0 = id)) as [->|Hne].
      { right. right. exists i, r, t. auto. }
      left. destruct (exec_releases id0 (resume t r) (with_pending (delete i) w)
                        (Htok r)) as (_ & [(_ & ->)|(_ & _ & _ & _ & ->)]);
        [|reflexivity].
      simpl. rewrite elem_of_difference, elem_of_singleton.
      split; [tauto|]. intros H. split; [exact H|congruence].
    + left. destruct (exec_keeps_releasing OClear (resume t r)
                        (with_pending (delete i) w) (Htok r)) as (-> & _).
      reflexivity.
  - destruct (_ && _); try discriminate. intros [= <-]. left. reflexivity.
  - destruct (timeouts w !! i) as [[due []]|]; try discriminate.
    destruct (due <=? now w)%N; try discriminate. intros [= <-]. left. reflexivity.
  - destruct (interval w) as [due|]; try discriminate.
    destruct (due <=? now w)%N; try discriminate. intros [= <-]. left. reflexivity.
Qed.

Lemma marker_changes_only_by_own_release_witness :
  "T1" ∈ releasing (ui (default init_world (step releasing_world ClickRefresh)))
  ↔ "T1" ∈ releasing (ui releasing_world).
Proof.
  destruct (marker_changes_only_by_own_release
              [Mount; Settle 0%nat (Fulfilled ok_stack); ClickRelease "T1"]
              releasing_world
              (default init_world (step releasing_world ClickRefresh))
              ClickRefresh "T1")
    as [H|[H|(i & r & t & H & _)]]; [reflexivity..| exact H | | ];
    discriminate H.
Defined.

(** ** fetchStack on success *)

(** X10.  A successful stack response replaces the stack and the stats
    outright: what is held afterwards is a function of the response
    alone, whatever was held before (two racing fetches: the one that
    settles last wins).  The response's own values are kept when truthy,
    a missing [stack] becomes the empty list, which shows the "No Cards"
    card, and a missing [stats] the zero defaults.  Nothing else
    changes but the loading flag: no toast, no timer, no log entry, no
    request, and the busy set is untouched. *)
Theorem fetch_success_overwrites (w wA : World) (r : ApiResult)
    (env envA : World → World) :
  succeeded r = true →
  ∃ response w' wA',
    r = Fulfilled response ∧
    drive fetchStack [(r, env)] w = Done tt w' ∧
    drive fetchStack [(r, envA)] wA = Done tt wA' ∧
    stack (ui wA') = stack (ui w') ∧ stats (ui wA') = stats (ui w') ∧
    stack (ui w') = (if truthy (field response "stack")
                     then field response "stack" else JArr []) ∧
    stats (ui w') = (if truthy (field response "stats")
                     then field response "stats" else default_stats) ∧
    (truthy (field response "stack") = false →
     stack_section (ui w') = Value EmptyCard) ∧
    loading (ui w') = false ∧
    toast (ui w') = toast (ui (env w)) ∧
    releasing (ui w') = releasing (ui (env w)) ∧
    timeouts w' = timeouts (env w) ∧ console w' = console (env w) ∧
    requests w' = requests (env w).
Proof.
  intros H.
  destruct (fetchStack_success r env [] w H) as (response & Hr & Hrun).
  destruct (fetchStack_success r envA [] wA H) as (responseA & HrA & HrunA).
  rewrite Hr in HrA. injection HrA as <-.
  exists response. do 2 eexists. split; [exact Hr|].
  split; [exact Hrun|]. split; [exact HrunA|]. simpl. unfold js_or.
  repeat (split; [reflexivity|]).
  split; [|repeat split; reflexivity].
  intros Hf. unfold stack_section. simpl. rewrite Hf. reflexivity.
Qed.

Lemma fetch_success_overwrites_witness :
  ∃ w', drive fetchStack [(Fulfilled ok_without_stats, id)] loaded_world = Done tt w' ∧
        stack (ui w') = JArr [] ∧ stats (ui w') = default_stats.
Proof.
  destruct (fetch_success_overwrites loaded_world init_world
              (Fulfilled ok_without_stats) id id eq_refl)
    as (response & w' & wA' & Hr & Hrun & _ & _ & _ & Hstack & Hstats & _).
  injection Hr as <-.
  exists w'. split; [exact Hrun|]. split; [exact Hstack|exact Hstats].
Defined.

(** ** The loading flag *)

Lemma Unloads_finally (m : Async unit) :
  Runs every_effect false m → Unloads (finally m (setLoading false)).
Proof.
  induction 1 as [[]| |e k He Hk IH|req k Hk IH]; simpl.
  - apply Unloads_last.
  - discriminate.
  - apply Unloads_do. exact IH.
  - apply Unloads_await. exact IH.
Qed.

Lemma Unloads_fetchStack :
  ∃ k, fetchStack = Await stack_request k ∧ ∀ r, Unloads (k r).
Proof.
  eexists. split; [reflexivity|]. intros r.
  apply Unloads_finally. unfold setStack, setStats, console_error.
  apply Runs_try_catch; [|intros ?; runs_with ltac:(exact I)].
  apply (Runs_bind _ (match r with
                      | Fulfilled v => Ret v
                      | Rejected reason => Throw (Reason reason)
                      end)).
  - destruct r; constructor. reflexivity.
  - intros response. runs_with ltac:(exact I).
Qed.

Lemma Unloads_clearStack :
  ∃ k, clearStack true = Do (SetLoading true) (Await clear_request k) ∧
       ∀ r, Unloads (k r).
Proof.
  eexists. split; [reflexivity|]. intros r.
  apply Unloads_finally. unfold console_error.
  apply Runs_try_catch; [|intros ?; runs_with ltac:(exact I)].
  apply (Runs_bind _ (match r with
                      | Fulfilled v => Ret v
                      | Rejected reason => Throw (Reason reason)
                      end)).
  - destruct r; constructor. reflexivity.
  - intros response. runs_with ltac:(exact I).
Qed.

Lemma keeps_loading_releaseTeam (id : string) :
  ∃ k, releaseTeam id = Do (AddReleasing id) (Await (release_request id) k) ∧
       ∀ r, Runs keeps_loading false (k r).
Proof.
  eexists. split; [reflexivity|]. intros r. unfold console_error.
  apply Runs_finally; [|apply Runs_effect; exact I].
  apply Runs_try_catch; [|intros ?; runs_with ltac:(exact I)].
  apply (Runs_bind _ (match r with
                      | Fulfilled v => Ret v
                      | Rejected reason => Throw (Reason reason)
                      end)).
  - destruct r; constructor. reflexivity.
  - intros response. runs_with ltac:(exact I).
Qed.

Lemma exec_unloads (o : Origin) (p : Async unit) (w : World) :
  Unloads p →
  (pending (exec o p w) = pending w ∧ loading (ui (exec o p w)) = false) ∨
  ∃ t, pending (exec o p w) = pending w ++ [t] ∧ origin t = o ∧
       ∀ r, Unloads (resume t r).
Proof.
  intros H. revert w. induction H as [|e k Hk IH|req k Hk IH]; intros w.
  - left. split; reflexivity.
  - rewrite exec_do. destruct (IH (apply_effect e w)) as [(Hp & Hl)|(t & Hp & Ho & Hr)].
    + left. rewrite Hp, Hl. split; [destruct e; reflexivity|reflexivity].
    + right. exists t. rewrite Hp. split; [destruct e; reflexivity|auto].
  - right. eexists. split; [reflexivity|]. split; [reflexivity|exact Hk].
Qed.

Lemma exec_keeps_loading (o : Origin) (p : Async unit) (w : World) :
  Runs keeps_loading false p → loading (ui w) = false →
  loading (ui (exec o p w)) = false.
Proof.
  apply (exec_state keeps_loading (fun s => loading s = false)).
  intros e w0 He Hl. destruct e as [| |[]| | | | |]; simpl in *;
    try exact Hl; try reflexivity. contradiction.
Qed.

Lemma InvLoading_add (w w' : World) (t : Task) :
  InvLoading w → pending w' = pending w ++ [t] → loading_task_ok t →
  life w' = life w →
  (loading (ui w') = true → loading (ui w) = true ∨ is_loader (origin t) = true) →
  InvLoading w'.
Proof.
  intros (Hts & Hl) Hp Ht Hlife Hload. split.
  - rewrite Hp. apply Forall_app. split; [exact Hts|]. constructor; [exact Ht|constructor].
  - intros Htrue. rewrite Hlife, Hp.
    destruct (Hload Htrue) as [Hw|Hloader].
    + destruct (Hl Hw) as [Hf|(t0 & Hin & Hloader)]; [left; exact Hf|].
      right. exists t0. split; [|exact Hloader]. apply elem_of_app. left. exact Hin.
    + right. exists t. split; [|exact Hloader]. apply elem_of_app. right.
      apply list_elem_of_singleton. reflexivity.
Qed.

Lemma InvLoading_frame (w w' : World) :
  InvLoading w → pending w' = pending w → loading (ui w') = loading (ui w) →
  (life w = Fresh → life w' = Fresh) → InvLoading w'.
Proof.
  intros (Hts & Hl) Hp Hload Hlife. split; [rewrite Hp; exact Hts|].
  rewrite Hload, Hp. intros Htrue. destruct (Hl Htrue) as [Hf|Hex]; auto.
Qed.

Lemma InvLoading_fetch (w : World) : InvLoading w → InvLoading (exec OFetch fetchStack w).
Proof.
  intros H. destruct Unloads_fetchStack as (k & Hshape & Hk). rewrite Hshape.
  eapply InvLoading_add; [exact H|reflexivity|exact Hk|reflexivity|].
  intros Hl. left. exact Hl.
Qed.

Lemma InvLoading_effect_run (w : World) :
  InvLoading w → InvLoading (effect_run w).
Proof.
  intros H. unfold effect_run. pose proof (InvLoading_fetch w H) as H1.
  destruct (autoRefresh (ui (exec OFetch fetchStack w))); [|exact H1].
  apply (InvLoading_frame _ _ H1); auto.
Qed.

Lemma InvLoading_settle (w : World) (i : nat) (t : Task) (r : ApiResult) :
  InvLoading w → pending w !! i = Some t →
  InvLoading (exec (origin t) (resume t r) (with_pending (delete i) w)) ∧
  (is_loader (origin t) = true →
   loading (ui (exec (origin t) (resume t r) (with_pending (delete i) w))) = false ∨
   ∃ t', pending (exec (origin t) (resume t r) (with_pending (delete i) w))
         = delete i (pending w) ++ [t'] ∧ origin t' = origin t).
Proof.
  intros (Hts & Hl) Hi.
  assert (Htok : loading_task_ok t).
  { rewrite Forall_forall in Hts. apply Hts, list_elem_of_In.
    eapply list_elem_of_lookup_2. exact Hi. }
  set (w0 := with_pending (delete i) w).
  assert (Hts0 : Forall loading_task_ok (pending w0)).
  { subst w0. simpl. rewrite Forall_forall in *. intros x Hx. apply Hts.
    apply list_elem_of_In. apply list_elem_of_In in Hx.
    eapply list_elem_of_delete_inv. exact Hx. }
  destruct (exec_frame (origin t) (resume t r) w0) as (_ & _ & Hlife & _).
  unfold loading_task_ok in Htok. destruct (is_loader (origin t)) eqn:Hloader.
  - destruct (exec_unloads (origin t) (resume t r) w0 (Htok r))
      as [(Hp & Hfalse)|(t' & Hp & Ho & Hk)].
    + split; [|intros _; left; exact Hfalse]. split; [rewrite Hp; exact Hts0|].
      rewrite Hfalse. discriminate.
    + split; [|intros _; right; exists t'; split; [exact Hp|exact Ho]].
      split.
      * rewrite Hp. apply Forall_app. split; [exact Hts0|].
        constructor; [|constructor]. unfold loading_task_ok.
        rewrite Ho, Hloader. exact Hk.
      * intros _. right. exists t'. rewrite Hp, Ho. split; [|exact Hloader].
        apply elem_of_app. right. apply list_elem_of_singleton. reflexivity.
  - split; [|discriminate].
    assert (Hkeep : loading (ui (exec (origin t) (resume t r) w0)) = true →
                    loading (ui w) = true).
    { intros Htrue. destruct (loading (ui w)) eqn:E; [reflexivity|].
      rewrite (exec_keeps_loading (origin t) (resume t r) w0 (Htok r) E) in Htrue.
      discriminate Htrue. }
    assert (Hrest : loading (ui w) = true →
                    life w = Fresh ∨
                    ∃ t0, t0 ∈ pending w0 ∧ is_loader (origin t0) = true).
    { intros Htrue. destruct (Hl Htrue) as [Hf|(t0 & Hin & Hl0)]; [left; exact Hf|].
      right. exists t0. split; [|exact Hl0]. subst w0. simpl.
      destruct (elem_of_delete_or _ _ _ _ Hi Hin) as [->|Hin']; [|exact Hin'].
      congruence. }
    destruct (exec_runs keeps_loading (origin t) (resume t r) w0 (Htok r))
      as [Hp|(t' & Hp & Ho & Hk)].
    + split; [rewrite Hp; exact Hts0|]. rewrite Hp, Hlife. intros Htrue.
      apply Hrest, Hkeep, Htrue.
    + split.
      * rewrite Hp. apply Forall_app. split; [exact Hts0|].
        constructor; [|constructor]. unfold loading_task_ok.
        rewrite Ho, Hloader. exact Hk.
      * rewrite Hp, Hlife. intros Htrue.
        destruct (Hrest (Hkeep Htrue)) as [Hf|(t0 & Hin & Hl0)]; [left; exact Hf|].
        right. exists t0. split; [|exact Hl0]. apply elem_of_app. left. exact Hin.
Qed.

Lemma InvLoading_step (w w' : World) (e : Event) :
  InvLoading w → step w e = Some w' → InvLoading w'.
Proof.
  intros H. destruct e; simpl.
  - destruct (life w) eqn:Hlife; try discriminate. intros [= <-].
    destruct Unloads_fetchStack as (k & Hshape & Hk).
    unfold effect_run. rewrite Hshape. unfold exec. simpl.
    assert (H1 : InvLoading
                   (with_pending (fun ts => ts ++ [mkTask OFetch stack_request k])
                      (with_life Live w))).
    { destruct H as (Hts & _). split.
      - simpl. apply Forall_app. split; [exact Hts|].
        constructor; [exact Hk|constructor].
      - intros _. right. exists (mkTask OFetch stack_request k).
        split; [|reflexivity]. simpl.
        apply elem_of_app. right. apply list_elem_of_singleton. reflexivity. }
    destruct (autoRefresh (ui w)); [|exact H1].
    apply (InvLoading_frame _ _ H1); auto.
  - destruct (is_live w) eqn:Hlive; try discriminate. intros [= <-].
    destruct H as (Hts & Hl). split; [exact Hts|]. simpl. intros Htrue.
    destruct (Hl Htrue) as [Hf|Hex]; [|right; exact Hex].
    unfold is_live in Hlive. rewrite Hf in Hlive. discriminate Hlive.
  - destruct (_ && _); try discriminate. intros [= <-].
    apply InvLoading_fetch, H.
  - destruct (_ && _); try discriminate.
    destruct (clear_disabled (ui w)) as [[]|]; try discriminate. intros [= <-].
    destruct confirmed; [|exact H].
    destruct Unloads_clearStack as (k & Hshape & Hk). rewrite Hshape.
    eapply InvLoading_add; [exact H|reflexivity|exact Hk|reflexivity|].
    intros _. right. reflexivity.
  - destruct (_ && _); try discriminate. intros [= <-].
    destruct (keeps_loading_releaseTeam registrationId) as (k & Hshape & Hk).
    rewrite Hshape.
    eapply InvLoading_add; [exact H|reflexivity|exact Hk|reflexivity|].
    intros Hl. left. exact Hl.
  - destruct (_ && _); try discriminate.
    destruct (Bool.eqb checked (autoRefresh (ui w))); intros [= <-]; [exact H|].
    apply InvLoading_effect_run. apply (InvLoading_frame _ _ H); auto.
  - destruct (_ && _); try discriminate.
    destruct (toast (ui w)); try discriminate. intros [= <-].
    apply (InvLoading_frame _ _ H); auto.
  - destruct (pending w !! i) as [t|] eqn:Hi; try discriminate. intros [= <-].
    apply (InvLoading_settle w i t r H Hi).
  - destruct (_ && _); try discriminate. intros [= <-].
    apply (InvLoading_frame _ _ H); auto.
  - destruct (timeouts w !! i) as [[due []]|]; try discriminate.
    destruct (due <=? now w)%N; try discriminate. intros [= <-].
    apply (InvLoading_frame _ _ H); auto.
  - destruct (interval w) as [due|]; try discriminate.
    destruct (due <=? now w)%N; try discriminate. intros [= <-].
    apply (InvLoading_frame _ _ (InvLoading_fetch w H)); auto.
Qed.

Lemma InvLoading_reachable (es : list Event) (w : World) :
  run init_world es = Some w → InvLoading w.
Proof.
  assert (H0 : InvLoading init_world).
  { split; [constructor|]. intros _. left. reflexivity. }
  revert H0. generalize init_world. revert w.
  induction es as [|e es IH]; simpl; intros w w0 H0.
  - intros [= <-]. exact H0.
  - destruct (step w0 e) as [w1|] eqn:E; [|discriminate].
    apply IH. eapply InvLoading_step; eassumption.
Qed.

(** X11.  The loading state cannot get stuck.  In every state the page
    can reach after mounting, the loading flag is true only while a
    request of a [fetchStack] or [clearStack] call is in flight; and
    when such a request settles, either the loading flag is false
    afterwards or the same call is awaiting its next request. *)
Theorem loading_only_while_in_flight (es : list Event) (w : World) :
  run init_world es = Some w →
  (loading (ui w) = true →
   life w = Fresh ∨
   ∃ t, t ∈ pending w ∧ (origin t = OFetch ∨ origin t = OClear)) ∧
  ∀ i t r w',
    pending w !! i = Some t → (origin t = OFetch ∨ origin t = OClear) →
    step w (Settle i r) = Some w' →
    loading (ui w') = false ∨
    ∃ t', pending w' = delete i (pending w) ++ [t'] ∧ origin t' = origin t.
Proof.
  intros Hrun. pose proof (InvLoading_reachable es w Hrun) as H. split.
  - intros Htrue. destruct H as (_ & Hl).
    destruct (Hl Htrue) as [Hf|(t & Hin & Hloader)]; [left; exact Hf|].
    right. exists t. split; [exact Hin|].
    destruct (origin t); [left|discriminate Hloader|right]; reflexivity.
  - intros i t r w' Hi Ho. simpl. rewrite Hi. intros [= <-].
    apply (InvLoading_settle w i t r H Hi).
    destruct Ho as [-> | ->]; reflexivity.
Qed.

Lemma loading_only_while_in_flight_witness :
  loading (ui (default init_world (run init_world [Mount]))) = true ∧
  ∃ t, t ∈ pending (default init_world (run init_world [Mount])) ∧
       (origin t = OFetch ∨ origin t = OClear).
Proof.
  split; [reflexivity|].
  destruct (loading_only_while_in_flight [Mount]
              (default init_world (run init_world [Mount])) eq_refl)
    as (H & _).
  destruct (H eq_refl) as [Hf|Hex]; [discriminate Hf|exact Hex].
Defined.

(** ** Code that resumes after a response *)

Lemma Resumes_bind {A B} (m : Async A) (f : A → Async B) :
  Resumes m → (∀ a, Resumes (f a)) → Resumes (m ≫= f).
Proof.
  intros Hm Hf. unfold mbind, Async_bind.
  induction Hm; simpl; try (constructor; auto; fail). apply Hf.
Qed.

Lemma Resumes_try_catch {A} (m : Async A) (h : Thrown → Async A) :
  Resumes m → (∀ e, Resumes (h e)) → Resumes (try_catch m h).
Proof.
  intros Hm Hh. induction Hm; simpl; try (constructor; auto; fail). apply Hh.
Qed.

Lemma Resumes_finally {A} (m : Async A) (f : Async unit) :
  Resumes m → Resumes f → Resumes (finally m f).
Proof.
  intros Hm Hf. induction Hm; simpl; try (constructor; auto; fail).
  - apply (Resumes_bind f); [exact Hf | constructor].
  - apply (Resumes_bind f); [exact Hf | constructor].
Qed.

Lemma Resumes_lift {A} (c : Completion A) : Resumes (lift c).
Proof. destruct c; constructor. Qed.

Lemma Resumes_get (v : JsVal) (name : string) : Resumes (get v name).
Proof. apply Resumes_lift. Qed.

Lemma Resumes_effect (e : Effect) : beside_toast e → Resumes (effect e).
Proof. intros H. constructor; [exact H | constructor]. Qed.

Lemma Resumes_showToast (msg : string) (ty : option ToastType) :
  Resumes (showToast msg ty).
Proof. apply Resumes_toast. constructor. Qed.

Lemma Resumes_settled (r : ApiResult) :
  Resumes (match r with
           | Fulfilled v => Ret v
           | Rejected reason => Throw (Reason reason)
           end).
Proof. destruct r; constructor. Qed.

Lemma Resumes_await_stack : Resumes (await_api GET "/api/exitout/stack").
Proof. constructor. apply Resumes_settled. Qed.

Ltac resumes :=
  repeat first
    [ apply Resumes_showToast
    | apply Resumes_await_stack
    | apply Resumes_finally
    | apply Resumes_try_catch; [|intros ?]
    | apply Resumes_bind; [|intros ?]
    | apply Resumes_get
    | apply Resumes_lift
    | apply Resumes_settled
    | apply Resumes_effect; exact I
    | match goal with |- Resumes (if ?b then _ else _) => destruct b end ].

Lemma fetchStack_resumes :
  ∃ k, fetchStack = Await stack_request k ∧ ∀ r, Resumes (k r).
Proof.
  eexists. split; [reflexivity|]. intros r.
  unfold setStack, setStats, setLoading, console_error.
  apply Resumes_finally; [|apply Resumes_effect; exact I].
  apply Resumes_try_catch; [|intros ?; resumes].
  apply (Resumes_bind (match r with
                       | Fulfilled v => Ret v
                       | Rejected reason => Throw (Reason reason)
                       end)); [apply Resumes_settled|].
  intros response. resumes.
Qed.

Lemma Resumes_fetchStack : Resumes fetchStack.
Proof.
  destruct fetchStack_resumes as (k & -> & Hk). constructor. exact Hk.
Qed.

Lemma clearStack_resumes :
  ∃ k, clearStack true = Do (SetLoading true) (Await clear_request k) ∧
       ∀ r, Resumes (k r).
Proof.
  eexists. split; [reflexivity|]. intros r. unfold setLoading, console_error.
  apply Resumes_finally; [|apply Resumes_effect; exact I].
  apply Resumes_try_catch; [|intros ?; resumes].
  apply (Resumes_bind (match r with
                       | Fulfilled v => Ret v
                       | Rejected reason => Throw (Reason reason)
                       end)); [apply Resumes_settled|].
  intros response. resumes.
Qed.

Lemma releaseTeam_resumes (id : string) :
  ∃ k, releaseTeam id = Do (AddReleasing id) (Await (release_request id) k) ∧
       ∀ r, Resumes (k r).
Proof.
  eexists. split; [reflexivity|]. intros r. unfold console_error.
  apply Resumes_finally; [|apply Resumes_effect; exact I].
  apply Resumes_try_catch; [|intros ?; resumes].
  apply (Resumes_bind (match r with
                       | Fulfilled v => Ret v
                       | Rejected reason => Throw (Reason reason)
                       end)); [apply Resumes_settled|].
  intros response. resumes.
Qed.

Lemma toast_armed_beside (e : Effect) (w : World) :
  beside_toast e → toast_armed w → toast_armed (apply_effect e w).
Proof.
  intros He (Harm & Hdue). destruct e as [| | | | |[t|]|cb delay|]; simpl in He;
    try contradiction; try (split; assumption).
  - split; [|exact Hdue]. simpl. intros (x & Hx). discriminate Hx.
  - split; simpl.
    + intros _ Hnil. apply app_eq_nil in Hnil as (_ & Hnil). discriminate Hnil.
    + apply Forall_app. split; [exact Hdue|]. constructor; [|constructor].
      simpl. lia.
Qed.

Lemma toast_armed_show (t : Toast) (cb : TimerCallback) (w : World) :
  toast_armed w →
  toast_armed (apply_effect (SetTimeout cb 5000) (apply_effect (SetToast (Some t)) w)).
Proof.
  intros (_ & Hdue). split; simpl.
  - intros _ Hnil. apply app_eq_nil in Hnil as (_ & Hnil). discriminate Hnil.
  - apply Forall_app. split; [exact Hdue|]. constructor; [|constructor].
    simpl. lia.
Qed.

Lemma exec_resumes (o : Origin) (p : Async unit) (w : World) :
  Resumes p → toast_armed w →
  toast_armed (exec o p w) ∧
  (pending (exec o p w) = pending w ∨
   ∃ t, pending (exec o p w) = pending w ++ [t] ∧ origin t = o ∧
        request t = stack_request ∧ ∀ r, Resumes (resume t r)).
Proof.
  intros H. revert w. induction H as [a|e|t cb k Hk IH|e k He Hk IH|k Hk IH];
    intros w Hw.
  - split; [exact Hw|left; reflexivity].
  - split; [exact Hw|left; reflexivity].
  - rewrite !exec_do.
    destruct (IH _ (toast_armed_show t cb w Hw)) as (Ha & Hp).
    split; [exact Ha|exact Hp].
  - rewrite exec_do.
    destruct (IH (apply_effect e w) (toast_armed_beside e w He Hw)) as (Ha & Hp).
    split; [exact Ha|].
    assert (Hpe : pending (apply_effect e w) = pending w) by (destruct e; reflexivity).
    rewrite <- Hpe. exact Hp.
  - split; [exact Hw|]. right. eexists. split; [reflexivity|].
    split; [reflexivity|]. split; [reflexivity|exact Hk].
Qed.

Lemma InvResume_exec (o : Origin) (p : Async unit) (w : World) :
  Resumes p → InvResume w → InvResume (exec o p w).
Proof.
  intros Hp (Hts & Hw). destruct (exec_resumes o p w Hp Hw) as (Ha & Hpend).
  split; [|exact Ha].
  destruct Hpend as [->|(t & -> & _ & _ & Ht)]; [exact Hts|].
  apply Forall_app. split; [exact Hts|]. constructor; [exact Ht|constructor].
Qed.

Lemma InvResume_add (w : World) (t : Task) :
  InvResume w → (∀ r, Resumes (resume t r)) →
  InvResume (with_pending (fun ts => ts ++ [t]) w).
Proof.
  intros (Hts & Hw) Ht. split; [|exact Hw]. simpl.
  apply Forall_app. split; [exact Hts|]. constructor; [exact Ht|constructor].
Qed.

Lemma InvResume_effect_run (w : World) : InvResume w → InvResume (effect_run w).
Proof.
  intros H. unfold effect_run.
  pose proof (InvResume_exec OFetch fetchStack w Resumes_fetchStack H) as H1.
  destruct (autoRefresh (ui (exec OFetch fetchStack w))); exact H1.
Qed.

Lemma InvResume_step (w w' : World) (e : Event) :
  InvResume w → step w e = Some w' → InvResume w'.
Proof.
  intros H. destruct e; simpl.
  - destruct (life w); try discriminate. intros [= <-].
    apply InvResume_effect_run. exact H.
  - destruct (is_live w); try discriminate. intros [= <-]. exact H.
  - destruct (_ && _); try discriminate. intros [= <-].
    apply InvResume_exec; [apply Resumes_fetchStack|exact H].
  - destruct (_ && _); try discriminate.
    destruct (clear_disabled (ui w)) as [[]|]; try discriminate. intros [= <-].
    destruct confirmed; [|exact H].
    destruct clearStack_resumes as (k & -> & Hk).
    apply (InvResume_add (apply_effect (SetLoading true) w)); [|exact Hk].
    destruct H as (Hts & Hw). split; [exact Hts|exact Hw].
  - destruct (_ && _); try discriminate. intros [= <-].
    destruct (releaseTeam_resumes registrationId) as (k & -> & Hk).
    apply (InvResume_add (apply_effect (AddReleasing registrationId) w)); [|exact Hk].
    destruct H as (Hts & Hw). split; [exact Hts|exact Hw].
  - destruct (_ && _); try discriminate.
    destruct (Bool.eqb checked (autoRefresh (ui w))); intros [= <-]; [exact H|].
    apply InvResume_effect_run. exact H.
  - destruct (_ && _); try discriminate.
    destruct (toast (ui w)); try discriminate. intros [= <-].
    destruct H as (Hts & Hw). split; [exact Hts|].
    apply (toast_armed_beside (SetToast None) w I Hw).
  - destruct (pending w !! i) as [t|] eqn:Hi; try discriminate. intros [= <-].
    destruct H as (Hts & Hw). apply InvResume_exec.
    + rewrite Forall_forall in Hts. apply Hts, list_elem_of_In.
      eapply list_elem_of_lookup_2. exact Hi.
    + split; [|exact Hw]. simpl. rewrite Forall_forall in *.
      intros x Hx. apply Hts. apply list_elem_of_In. apply list_elem_of_In in Hx.
      eapply list_elem_of_delete_inv. exact Hx.
  - destruct (_ && _); try discriminate. intros [= <-].
    destruct H as (Hts & Harm & Hdue). split; [exact Hts|]. split; [exact Harm|].
    simpl. eapply Forall_impl; [|exact Hdue]. intros tc Htc. simpl in *. lia.
  - destruct (timeouts w !! i) as [[due []]|]; try discriminate.
    destruct (due <=? now w)%N; try discriminate. intros [= <-].
    destruct H as (Hts & _ & Hdue). split; [exact Hts|]. split; simpl.
    + intros (x & Hx). discriminate Hx.
    + apply Forall_delete_timeout, Hdue.
  - destruct (interval w) as [due|]; try discriminate.
    destruct (due <=? now w)%N; try discriminate. intros [= <-].
    apply (InvResume_exec OFetch fetchStack w Resumes_fetchStack H).
Qed.

Lemma InvResume_reachable (es : list Event) (w : World) :
  run init_world es = Some w → InvResume w.
Proof.
  assert (H0 : InvResume init_world).
  { split; [constructor|]. split; [|constructor].
    simpl. intros (x & Hx). discriminate Hx. }
  revert H0. generalize init_world. revert w.
  induction es as [|e es IH]; simpl; intros w w0 H0.
  - intros [= <-]. exact H0.
  - destruct (step w0 e) as [w1|] eqn:E; [|discriminate].
    apply IH. eapply InvResume_step; eassumption.
Qed.

(** X12.  No toast is left without a timer: in every state the page can
    reach, a toast on display has a dismissal timer pending that is due
    between now and 5000 ms from now (so it is cleared within 5000 ms),
    and no pending timer is due later than that. *)
Theorem toast_always_has_timer (es : list Event) (w : World) :
  run init_world es = Some w →
  (is_Some (toast (ui w)) →
   ∃ due, (due, ClearToast) ∈ timeouts w ∧ (now w ≤ due ≤ now w + 5000)%N) ∧
  ∀ due cb, (due, cb) ∈ timeouts w → (now w ≤ due ≤ now w + 5000)%N.
Proof.
  intros Hrun.
  pose proof (InvResume_reachable es w Hrun) as (_ & Harm & Hdue).
  pose proof (reachable_on_time es w Hrun) as Hon.
  apply on_time_spec in Hon as (Hlow & _).
  assert (Hall : ∀ due cb, (due, cb) ∈ timeouts w → (now w ≤ due ≤ now w + 5000)%N).
  { intros due cb Hin. apply list_elem_of_In in Hin.
    rewrite Forall_forall in Hlow, Hdue.
    specialize (Hlow _ Hin). specialize (Hdue _ Hin). simpl in *.
    apply N.leb_le in Hlow. lia. }
  split; [|exact Hall].
  intros Hsome. specialize (Harm Hsome).
  destruct (timeouts w) as [|[due []] rest] eqn:E; [contradiction|].
  exists due. split; [left|]. apply (Hall due ClearToast). left.
Qed.

Lemma toast_always_has_timer_witness :
  ∃ due, (due, ClearToast)
         ∈ timeouts (default init_world (run init_world [Mount; Settle 0%nat down])) ∧
         (0 ≤ due ≤ 5000)%N.
Proof.
  destruct (toast_always_has_timer [Mount; Settle 0%nat down]
              (default init_world (run init_world [Mount; Settle 0%nat down]))
              eq_refl) as (H & _).
  destruct H as (due & Hin & Hdue); [eexists; reflexivity|].
  exists due. split; [exact Hin|exact Hdue].
Defined.

Lemma requests_delete (ts : list Task) (i : nat) :
  map request (delete i ts) = delete i (map request ts).
Proof.
  revert i. induction ts as [|t ts IH]; intros [|i]; simpl; try reflexivity.
  f_equal. apply IH.
Qed.

(** The requests an event brings into flight, given those in flight
    before it (less the one that settles, when the event is a response)
    and after it. *)
Lemma exec_new_requests (o : Origin) (p : Async unit) (w : World) :
  Resumes p → toast_armed w →
  ∃ new, requests (exec o p w) = requests w ++ new ∧
         (new = [] ∨ new = [stack_request]).
Proof.
  intros Hp Hw. unfold requests.
  destruct (exec_resumes o p w Hp Hw) as (_ & [->|(t & -> & _ & Hq & _)]).
  - exists []. rewrite app_nil_r. auto.
  - exists [stack_request]. rewrite map_app. simpl. rewrite Hq. auto.
Qed.

(** X13.  Requests are sent only where the source sends them.  An event
    of a reachable state leaves the requests in flight as they were,
    less the one that settles when the event is a response, and adds at
    most one request at their end.  The added request is the fetch of
    the stack, or the event is an accepted "Clear All Stack" click
    (possible only while the page is not loading and [stats.totalCards]
    is not 0) and the request is the clear, or the event is a click on
    the "Release All" button of a team that is not busy and the request
    is that team's release.  No response, timer or toggle ever clears
    or releases, and a response is never answered by posting anew. *)
Theorem requests_only_on_user_action (es : list Event) (w w' : World) (e : Event) :
  run init_world es = Some w → step w e = Some w' →
  ∃ new,
    requests w' = match e with
                  | Settle i _ => delete i (requests w)
                  | _ => requests w
                  end ++ new ∧
    (new = [] ∨ new = [stack_request] ∨
     (new = [clear_request] ∧ e = ClickClear true ∧
      clear_disabled (ui w) = Value false) ∨
     ∃ id, new = [release_request id] ∧ e = ClickRelease id ∧
           id ∉ releasing (ui w)).
Proof.
  intros Hrun. pose proof (InvResume_reachable es w Hrun) as (Hts & Hw).
  assert (Hexec : ∀ o p w0, Resumes p → toast_armed w0 →
                  ∃ new, requests (exec o p w0) = requests w0 ++ new ∧
                         (new = [] ∨ new = [stack_request] ∨
                          (new = [clear_request] ∧ e = ClickClear true ∧
                           clear_disabled (ui w) = Value false) ∨
                          ∃ id, new = [release_request id] ∧ e = ClickRelease id ∧
                                id ∉ releasing (ui w))).
  { intros o p w0 Hp Hw0.
    destruct (exec_new_requests o p w0 Hp Hw0) as (new & Hnew & Hcases).
    exists new. split; [exact Hnew|]. destruct Hcases; auto. }
  assert (Hsame : ∀ l : list Request,
            ∃ new, l = l ++ new ∧
                   (new = [] ∨ new = [stack_request] ∨
                    (new = [clear_request] ∧ e = ClickClear true ∧
                     clear_disabled (ui w) = Value false) ∨
                    ∃ id, new = [release_request id] ∧ e = ClickRelease id ∧
                          id ∉ releasing (ui w))).
  { intros l. exists []. rewrite app_nil_r. auto. }
  assert (Hrun_eff : ∀ w0, requests (effect_run w0) = requests w0 ++ [stack_request]).
  { intros w0. destruct (effect_run_requests w0) as (-> & _). reflexivity. }
  destruct e; simpl.
  - destruct (life w); try discriminate. intros [= <-].
    exists [stack_request]. rewrite Hrun_eff. auto.
  - destruct (is_live w); try discriminate. intros [= <-]. apply Hsame.
  - destruct (_ && _); try discriminate. intros [= <-].
    apply (Hexec OFetch fetchStack w Resumes_fetchStack Hw).
  - destruct (_ && _); try discriminate.
    destruct (clear_disabled (ui w)) as [[]|] eqn:Ed; try discriminate.
    intros [= <-]. destruct confirmed; [|apply Hsame].
    exists [clear_request]. split; [|right; right; left; auto].
    unfold requests, exec. simpl. rewrite map_app. reflexivity.
  - destruct (is_live w && main_view_shown (ui w)
              && bool_decide (registrationId ∈ row_ids (stack (ui w)))); simpl;
      try discriminate.
    destruct (bool_decide (registrationId ∈ releasing (ui w))) eqn:Eb; simpl;
      try discriminate.
    apply bool_decide_eq_false in Eb. intros [= <-].
    exists [release_request registrationId]. split.
    + unfold requests, exec. simpl. rewrite map_app. reflexivity.
    + right. right. right. exists registrationId. auto.
  - destruct (_ && _); try discriminate.
    destruct (Bool.eqb checked (autoRefresh (ui w))); intros [= <-]; [apply Hsame|].
    exists [stack_request]. rewrite Hrun_eff. auto.
  - destruct (_ && _); try discriminate.
    destruct (toast (ui w)); try discriminate. intros [= <-]. apply Hsame.
  - destruct (pending w !! i) as [t|] eqn:Hi; try discriminate. intros [= <-].
    assert (Ht : ∀ r, Resumes (resume t r)).
    { rewrite Forall_forall in Hts. apply Hts, list_elem_of_In.
      eapply list_elem_of_lookup_2. exact Hi. }
    destruct (Hexec (origin t) (resume t r) (with_pending (delete i) w) (Ht r) Hw)
      as (new & Hnew & Hcases).
    exists new. split; [|exact Hcases].
    rewrite Hnew. unfold requests. simpl. rewrite requests_delete. reflexivity.
  - destruct (_ && _); try discriminate. intros [= <-]. apply Hsame.
  - destruct (timeouts w !! i) as [[due []]|]; try discriminate.
    destruct (due <=? now w)%N; try discriminate. intros [= <-]. apply Hsame.
  - destruct (interval w) as [due|]; try discriminate.
    destruct (due <=? now w)%N; try discriminate. intros [= <-].
    exists [stack_request]. split; [|auto].
    unfold requests, exec. simpl. rewrite map_app. reflexivity.
Qed.

Lemma requests_only_on_user_action_witness :
  ∃ new,
    requests releasing_world = requests loaded_world ++ new ∧
    (new = [] ∨ new = [stack_request] ∨
     (new = [clear_request] ∧ ClickRelease "T1" = ClickClear true ∧
      clear_disabled (ui loaded_world) = Value false) ∨
     ∃ id, new = [release_request id] ∧ ClickRelease "T1" = ClickRelease id ∧
           id ∉ releasing (ui loaded_world)).
Proof.
  apply (requests_only_on_user_action
           [Mount; Settle 0%nat (Fulfilled ok_stack)] loaded_world releasing_world
           (ClickRelease "T1")).
  - vm_compute. reflexivity.
  - reflexivity.
Defined.

(** A refused clear is not posted again: the response leaves no request
    in flight. *)
Example refused_clear_is_not_retried :
  ∃ w1 w2,
    step loaded_world (ClickClear true) = Some w1 ∧
    requests w1 = [clear_request] ∧
    step w1 (Settle 0%nat (Fulfilled refused)) = Some w2 ∧
    requests w2 = [].
Proof.
  do 2 eexists. split; [reflexivity|]. split; [reflexivity|].
  split; reflexivity.
Qed.

(** ** clearStack on success *)

(** X14.  After an accepted clear that the backend reports as done, the
    page shows what the awaited fetch brings: when that fetch succeeds,
    the stack and stats of its response (the [[]] and zero defaults for
    missing ones); when it fails, the stack and stats held before are
    kept (the cleared teams stay on display) under an error toast.
    Either way the loading flag ends false. *)
Theorem clear_success_refreshes (w : World) (r1 r2 : ApiResult)
    (env1 env2 : World → World) :
  succeeded r1 = true →
  ∃ k w1 w2,
    drive (clearStack true) [(r1, env1)] w = Blocked stack_request k w1 ∧
    drive (clearStack true) [(r1, env1); (r2, env2)] w = Done tt w2 ∧
    loading (ui w2) = false ∧
    releasing (ui w2) = releasing (ui (env2 w1)) ∧
    if succeeded r2 then
      ∃ response2, r2 = Fulfilled response2 ∧
        stack (ui w2) = js_or (field response2 "stack") (JArr []) ∧
        stats (ui w2) = js_or (field response2 "stats") default_stats ∧
        toast (ui w2) = toast (ui (env2 w1))
    else
      stack (ui w2) = stack (ui (env2 w1)) ∧
      stats (ui w2) = stats (ui (env2 w1)) ∧
      toast_type (toast (ui w2)) = Some Error.
Proof.
  intros H1. destruct (succeeded_fulfilled r1 H1) as (response & -> & Hs & Ht).
  unfold clearStack, fetchStack. simpl. unfold get. rewrite Hs. simpl. rewrite Ht.
  simpl. destruct (succeeded r2) eqn:H2.
  - destruct (succeeded_fulfilled r2 H2) as (response2 & -> & Hs2 & Ht2).
    simpl. unfold get. rewrite Hs2. simpl. rewrite Ht2.
    rewrite (get_prop_field _ _ "stack" _ Hs2). simpl.
    rewrite (get_prop_field _ _ "stats" _ Hs2). simpl.
    do 3 eexists. split; [reflexivity|]. split; [reflexivity|].
    split; [reflexivity|]. split; [reflexivity|].
    exists response2. repeat split; reflexivity.
  - destruct r2 as [response2|reason2]; simpl in H2; simpl; unfold get.
    + destruct (get_prop response2 "success") as [s|e] eqn:E; simpl.
      * rewrite H2. rewrite (get_prop_field _ _ "error" _ E). simpl.
        do 3 eexists. split; [reflexivity|]. split; [reflexivity|].
        repeat split; reflexivity.
      * do 3 eexists. split; [reflexivity|]. split; [reflexivity|].
        repeat split; reflexivity.
    + do 3 eexists. split; [reflexivity|]. split; [reflexivity|].
      repeat split; reflexivity.
Qed.

Lemma clear_success_refreshes_witness :
  ∃ w2, drive (clearStack true)
          [(Fulfilled (JObj [("success", JBool true)]), id); (down, id)]
          loaded_world = Done tt w2 ∧
        loading (ui w2) = false ∧
        toast_type (toast (ui w2)) = Some Error.
Proof.
  destruct (clear_success_refreshes loaded_world
              (Fulfilled (JObj [("success", JBool true)])) down id id eq_refl)
    as (k & w1 & w2 & _ & Hrun2 & Hload & _ & _ & _ & Htoast).
  exists w2. split; [exact Hrun2|]. split; [exact Hload|exact Htoast].
Defined.
